(** * The audio engine of the wave generator (src/hooks/useAudioEngine.ts)

    A shallow embedding of the [useAudioEngine] hook: the binaural
    signal graph, the drum sample bank and the chord player.

    What is modelled.  The hook's own state (the two pieces of React
    state, the three refs) and, next to it, the part of the Web Audio
    platform the hook talks to: the nodes it creates, their parameters,
    their connections, whether a source was started or stopped, and the
    exceptions the platform raises (starting twice, stopping a source
    that never started, selecting the "custom" wave shape by name, a
    zero-length buffer, an input index out of range).  The model records
    every value the hook hands to the platform; what the platform then
    does with it (narrowing to single precision, clamping to a nominal
    range, rendering) is not part of the hook and not part of the model.

    Numbers.  The definitions are written once, over an abstract number
    type with the arithmetic the hook uses, and read at two instances:
    binary64 floating point, which is what the hook computes with, and
    the real numbers, which is what its formulas mean. *)

From Stdlib Require Import ZArith Floats Reals Lra Lia.
From stdpp Require Import base option list gmap strings.

Set Default Proof Using "Type".

(** ** Numbers *)

(** The arithmetic of a JavaScript [number] as far as the hook uses it. *)
Class JSArith (num : Type) := {
  nadd : num → num → num;
  nsub : num → num → num;
  nmul : num → num → num;
  ndiv : num → num → num;
  nneg : num → num;
  (** an integer-valued number: integer literals, [notes.length], a loop index *)
  of_Z : Z → num;
  (** conversion to a WebIDL [unsigned long], as [createBuffer] does with
      its length argument: truncate, then reduce modulo 2^32 *)
  to_uint32 : num → Z;
}.

(** The part of [Math] the hook calls.  ECMA-262 leaves [sin], [exp] and
    [pow] implementation-approximated; [Math_random k] is the result of
    the [k]-th call of [Math.random()] since the page was loaded. *)
Class JSMath (num : Type) := {
  Math_PI : num;
  Math_sin : num → num;
  Math_exp : num → num;
  Math_pow : num → num → num;
  Math_random : nat → num;
}.

Declare Scope js_scope.
Delimit Scope js_scope with js.
Notation "x + y" := (nadd x y) : js_scope.
Notation "x - y" := (nsub x y) : js_scope.
Notation "x * y" := (nmul x y) : js_scope.
Notation "x / y" := (ndiv x y) : js_scope.
Notation "- x" := (nneg x) : js_scope.
Notation "# z" := (of_Z z) (at level 1, format "# z") : js_scope.

(** The decimal literal [m]e-[k], e.g. [dec 3 1] for [0.3]. *)
Definition dec {num : Type} `{!JSArith num} (m : Z) (k : nat) : num :=
  (#m / #(10 ^ Z.of_nat k))%js.

(** *** Binary64 *)

Module Binary64.

Definition float_of_Z (z : Z) : float :=
  match z with
  | Z0 => PrimFloat.zero
  | Zpos _ => PrimFloat.of_uint63 (Uint63.of_Z z)
  | Zneg p => PrimFloat.opp (PrimFloat.of_uint63 (Uint63.of_Z (Zpos p)))
  end.

(** Truncation toward zero; NaN and the infinities go to 0. *)
Definition trunc (x : float) : Z :=
  match Prim2SF x with
  | S754_finite s m e =>
      let a := if (0 <=? e)%Z then (Zpos m * 2 ^ e)%Z
               else (Zpos m / 2 ^ (- e))%Z in
      if s then (- a)%Z else a
  | _ => 0%Z
  end.

Definition uint32_of_float (x : float) : Z := (trunc x mod 2 ^ 32)%Z.

#[export] Instance arith : JSArith float := {|
  nadd := PrimFloat.add;
  nsub := PrimFloat.sub;
  nmul := PrimFloat.mul;
  ndiv := PrimFloat.div;
  nneg := PrimFloat.opp;
  of_Z := float_of_Z;
  to_uint32 := uint32_of_float;
|}.

End Binary64.

(** *** Real numbers *)

Module Exact.

Definition trunc (x : R) : Z :=
  if Rle_dec 0 x then Int_part x else (- Int_part (- x))%Z.

Definition uint32_of_R (x : R) : Z := (trunc x mod 2 ^ 32)%Z.

#[export] Instance arith : JSArith R := {|
  nadd := Rplus;
  nsub := Rminus;
  nmul := Rmult;
  ndiv := Rdiv;
  nneg := Ropp;
  of_Z := IZR;
  to_uint32 := uint32_of_R;
|}.

(** [Math] read exactly; the random draws stay a parameter. *)
Definition math (random : nat → R) : JSMath R := {|
  Math_PI := PI;
  Math_sin := sin;
  Math_exp := exp;
  Math_pow := Rpower;
  Math_random := random;
|}.

End Exact.

(** ** The platform: audio nodes *)

(** Nodes are identified by their position in creation order. *)
Abbreviation NodeId := nat (only parsing).

Inductive OscillatorType := sine | square | sawtooth | triangle | custom.

#[global] Instance OscillatorType_eq_dec : EqDecision OscillatorType.
Proof. solve_decision. Defined.

Inductive DOMException :=
  | InvalidStateError
  | NotSupportedError
  | IndexSizeError
  | TypeError.

(** [node.connect(destination, output, input)] *)
Record Connection := {
  target : NodeId;
  output : nat;
  input : nat;
}.

#[global] Instance Connection_eq_dec : EqDecision Connection.
Proof. solve_decision. Defined.

Section Platform.
Context {num : Type}.

(** The one automation call the hook makes. *)
Inductive AutomationEvent := SetValueAtTime (v : num) (startTime : num).

Record AudioParam := {
  value : num;
  events : list AutomationEvent;
}.

Definition param (v : num) : AudioParam := {| value := v; events := [] |}.

(** [p.value = v] *)
Definition set_value (v : num) (p : AudioParam) : AudioParam :=
  {| value := v; events := events p |}.

(** [p.setValueAtTime(v, t)] *)
Definition setValueAtTime (v t : num) (p : AudioParam) : AudioParam :=
  {| value := value p; events := events p ++ [SetValueAtTime v t] |}.

(** The value a parameter was last directed to: that of its latest
    automation event, or its [value] if nothing was scheduled. *)
Definition directed (p : AudioParam) : num :=
  match last (events p) with
  | Some (SetValueAtTime v _) => v
  | None => value p
  end.

Record AudioBuffer := {
  numberOfChannels : nat;
  bufferLength : nat;
  bufferSampleRate : num;
  channelData : list (list num);
}.

Inductive NodeData :=
  | Destination
  | Analyser (fftSize : Z)
  | Oscillator (type : OscillatorType) (frequency : AudioParam)
  | Gain (gain : AudioParam)
  | StereoPanner (pan : AudioParam)
  | ChannelMerger (numberOfInputs : nat)
  | Delay (maxDelayTime : num) (delayTime : AudioParam)
  | Convolver
  | BufferSource (buffer : option AudioBuffer) (loop : bool).

Record AudioNode := {
  data : NodeData;
  started : bool;
  stopped : bool;
  outputs : list Connection;
}.

Definition fresh (d : NodeData) : AudioNode :=
  {| data := d; started := false; stopped := false; outputs := [] |}.

Definition set_data (d : NodeData) (n : AudioNode) : AudioNode :=
  {| data := d; started := started n; stopped := stopped n;
     outputs := outputs n |}.

Definition set_outputs (o : list Connection) (n : AudioNode) : AudioNode :=
  {| data := data n; started := started n; stopped := stopped n;
     outputs := o |}.

Definition numberOfInputs (d : NodeData) : nat :=
  match d with
  | Oscillator _ _ | BufferSource _ _ => 0
  | ChannelMerger k => k
  | _ => 1
  end.

Definition numberOfOutputs (d : NodeData) : nat :=
  match d with
  | Destination => 0
  | _ => 1
  end.

(** What one call does to the node it is made on. *)
Definition NodeOp := AudioNode → DOMException + AudioNode.

Definition op_start : NodeOp := λ n,
  match data n with
  | Oscillator _ _ | BufferSource _ _ =>
      if started n then inl InvalidStateError
      else inr {| data := data n; started := true; stopped := stopped n;
                  outputs := outputs n |}
  | _ => inl TypeError
  end.

Definition op_stop : NodeOp := λ n,
  match data n with
  | Oscillator _ _ | BufferSource _ _ =>
      if started n
      then inr {| data := data n; started := true; stopped := true;
                  outputs := outputs n |}
      else inl InvalidStateError
  | _ => inl TypeError
  end.

Definition op_disconnect : NodeOp := λ n, inr (set_outputs [] n).

(** Connecting the same output to the same input twice is ignored. *)
Definition op_connect (c : Connection) : NodeOp := λ n,
  if decide (output c < numberOfOutputs (data n)) then
    inr (if decide (c ∈ outputs n) then n
         else set_outputs (outputs n ++ [c]) n)
  else inl IndexSizeError.

(** [osc.type = w]: "custom" cannot be selected by name. *)
Definition op_set_type (w : OscillatorType) : NodeOp := λ n,
  match data n with
  | Oscillator _ f =>
      if decide (w = custom) then inl InvalidStateError
      else inr (set_data (Oscillator w f) n)
  | _ => inl TypeError
  end.

Definition op_frequency (g : AudioParam → AudioParam) : NodeOp := λ n,
  match data n with
  | Oscillator w f => inr (set_data (Oscillator w (g f)) n)
  | _ => inl TypeError
  end.

Definition op_gain (g : AudioParam → AudioParam) : NodeOp := λ n,
  match data n with
  | Gain p => inr (set_data (Gain (g p)) n)
  | _ => inl TypeError
  end.

Definition op_pan (g : AudioParam → AudioParam) : NodeOp := λ n,
  match data n with
  | StereoPanner p => inr (set_data (StereoPanner (g p)) n)
  | _ => inl TypeError
  end.

Definition op_delayTime (g : AudioParam → AudioParam) : NodeOp := λ n,
  match data n with
  | Delay m p => inr (set_data (Delay m (g p)) n)
  | _ => inl TypeError
  end.

(** [source.buffer = b]: a buffer can be assigned once. *)
Definition op_set_buffer (b : AudioBuffer) : NodeOp := λ n,
  match data n with
  | BufferSource None l => inr (set_data (BufferSource (Some b) l) n)
  | BufferSource (Some _) _ => inl InvalidStateError
  | _ => inl TypeError
  end.

Definition op_set_loop (l : bool) : NodeOp := λ n,
  match data n with
  | BufferSource b _ => inr (set_data (BufferSource b l) n)
  | _ => inl TypeError
  end.

Definition op_set_fftSize (k : Z) : NodeOp := λ n,
  match data n with
  | Analyser _ => inr (set_data (Analyser k) n)
  | _ => inl TypeError
  end.

End Platform.

Arguments AutomationEvent : clear implicits.
Arguments AudioParam : clear implicits.
Arguments AudioBuffer : clear implicits.
Arguments NodeData : clear implicits.
Arguments AudioNode : clear implicits.
Arguments NodeOp : clear implicits.

(** ** The hook's state *)

Section Engine.
Context {num : Type} `{!JSArith num} `{!JSMath num}.

(** A loop index or an array length used as a number. *)
Local Coercion Z.of_nat : nat >-> Z.

Record AudioContext := {
  sampleRate : num;
  currentTime : num;
  destination : NodeId;
}.

(** [binauralNodes.current] *)
Record BinauralNodes := {
  leftOsc : option NodeId;
  rightOsc : option NodeId;
  leftGain : option NodeId;
  rightGain : option NodeId;
  noiseSource : option NodeId;
  noiseGain : option NodeId;
  toneGain : option NodeId;
  panNode : option NodeId;
  merger : option NodeId;
  delayNode : option NodeId;
  delayGain : option NodeId;
  convolverNode : option NodeId;
  reverbGain : option NodeId;
}.

Definition no_nodes : BinauralNodes := {|
  leftOsc := None; rightOsc := None; leftGain := None; rightGain := None;
  noiseSource := None; noiseGain := None; toneGain := None;
  panNode := None; merger := None; delayNode := None; delayGain := None;
  convolverNode := None; reverbGain := None |}.

(** The two pieces of React state, the three refs, and the platform:
    the nodes created so far, indexed by identity, and the number of
    [Math.random()] calls made so far. *)
Record Engine := {
  audioContext : option AudioContext;
  analyser : option NodeId;
  binauralNodes : BinauralNodes;
  drumBuffers : gmap string (AudioBuffer num);
  chordOscillators : list NodeId;
  graph : list (AudioNode num);
  draws : nat;
}.

(** The hook before its effect has run. *)
Definition unmounted : Engine := {|
  audioContext := None; analyser := None; binauralNodes := no_nodes;
  drumBuffers := ∅; chordOscillators := []; graph := []; draws := 0 |}.

Definition set_audioContext (c : option AudioContext) (s : Engine) :=
  {| audioContext := c; analyser := analyser s;
     binauralNodes := binauralNodes s; drumBuffers := drumBuffers s;
     chordOscillators := chordOscillators s; graph := graph s;
     draws := draws s |}.

Definition set_analyser (a : option NodeId) (s : Engine) :=
  {| audioContext := audioContext s; analyser := a;
     binauralNodes := binauralNodes s; drumBuffers := drumBuffers s;
     chordOscillators := chordOscillators s; graph := graph s;
     draws := draws s |}.

Definition set_binauralNodes (b : BinauralNodes) (s : Engine) :=
  {| audioContext := audioContext s; analyser := analyser s;
     binauralNodes := b; drumBuffers := drumBuffers s;
     chordOscillators := chordOscillators s; graph := graph s;
     draws := draws s |}.

Definition set_drumBuffers (m : gmap string (AudioBuffer num)) (s : Engine) :=
  {| audioContext := audioContext s; analyser := analyser s;
     binauralNodes := binauralNodes s; drumBuffers := m;
     chordOscillators := chordOscillators s; graph := graph s;
     draws := draws s |}.

Definition set_chordOscillators (l : list NodeId) (s : Engine) :=
  {| audioContext := audioContext s; analyser := analyser s;
     binauralNodes := binauralNodes s; drumBuffers := drumBuffers s;
     chordOscillators := l; graph := graph s; draws := draws s |}.

Definition set_graph (g : list (AudioNode num)) (s : Engine) :=
  {| audioContext := audioContext s; analyser := analyser s;
     binauralNodes := binauralNodes s; drumBuffers := drumBuffers s;
     chordOscillators := chordOscillators s; graph := g;
     draws := draws s |}.

Definition set_draws (k : nat) (s : Engine) :=
  {| audioContext := audioContext s; analyser := analyser s;
     binauralNodes := binauralNodes s; drumBuffers := drumBuffers s;
     chordOscillators := chordOscillators s; graph := graph s;
     draws := k |}.

(** ** Effects: state and exceptions *)

(** A call either returns or throws; the state it leaves behind is
    kept in both cases. *)
Inductive Completion (A : Type) :=
  | Normal (a : A) (s : Engine)
  | Throw (e : DOMException) (s : Engine).
Arguments Normal {A} a s.
Arguments Throw {A} e s.

Definition Eff (A : Type) : Type := Engine → Completion A.

Definition state_of {A} (c : Completion A) : Engine :=
  match c with Normal _ s | Throw _ s => s end.

Definition returns {A} (c : Completion A) : bool :=
  match c with Normal _ _ => true | Throw _ _ => false end.

#[global] Instance Eff_ret : MRet Eff := λ A a s, Normal a s.

#[global] Instance Eff_bind : MBind Eff := λ A B f m s,
  match m s with
  | Normal a s' => f a s'
  | Throw e s' => Throw e s'
  end.

Definition get {A} (f : Engine → A) : Eff A := λ s, Normal (f s) s.
Definition put (f : Engine → Engine) : Eff unit := λ s, Normal () (f s).
Definition throw {A} (e : DOMException) : Eff A := λ s, Throw e s.

(** [try { m } catch (e) { }] *)
Definition try_catch (m : Eff unit) : Eff unit := λ s,
  match m s with
  | Normal _ s' | Throw _ s' => Normal () s'
  end.

(** Calling an [async] function that never awaits: the body runs at
    once, and a throw becomes a rejected promise nobody looks at. *)
Definition async (m : Eff unit) : Eff unit := try_catch m.

(** [if (o) f(o)] *)
Definition when_node (o : option NodeId) (f : NodeId → Eff unit) : Eff unit :=
  match o with
  | Some i => f i
  | None => mret ()
  end.

(** [l.forEach(f)] *)
Fixpoint forEach {A} (l : list A) (f : A → Eff unit) : Eff unit :=
  match l with
  | [] => mret ()
  | x :: l' => f x ;; forEach l' f
  end.

(** [for (let i = i0; i < i0 + count; i++) acc = body(i, acc)] *)
Fixpoint for_loop {A} (i count : nat) (body : nat → A → Eff A) (acc : A)
  : Eff A :=
  match count with
  | 0 => mret acc
  | S c => acc' ← body i acc; for_loop (S i) c body acc'
  end.

(** *** Platform calls *)

Definition on_node (i : NodeId) (f : NodeOp num) : Eff unit := λ s,
  match graph s !! i with
  | None => Throw TypeError s
  | Some n =>
      match f n with
      | inl e => Throw e s
      | inr n' => Normal () (set_graph (<[i:=n']> (graph s)) s)
      end
  end.

Definition create (d : NodeData num) : Eff NodeId := λ s,
  Normal (length (graph s)) (set_graph (graph s ++ [fresh d]) s).

Definition createOscillator : Eff NodeId :=
  create (Oscillator sine (param #440%js)).
Definition createGain : Eff NodeId := create (Gain (param #1%js)).
Definition createStereoPanner : Eff NodeId :=
  create (StereoPanner (param #0%js)).
Definition createChannelMerger (k : nat) : Eff NodeId :=
  create (ChannelMerger k).
Definition createDelay (maxDelayTime : num) : Eff NodeId :=
  create (Delay maxDelayTime (param #0%js)).
Definition createConvolver : Eff NodeId := create Convolver.
Definition createBufferSource : Eff NodeId :=
  create (BufferSource None false).
Definition createAnalyser : Eff NodeId := create (Analyser 2048).

(** [ctx.createBuffer(channels, len, rate)]: silent channels of
    [ToUint32(len)] frames; a buffer of no frames or no channels is
    refused. *)
Definition createBuffer (channels : nat) (len rate : num)
  : Eff (AudioBuffer num) :=
  let frames := Z.to_nat (to_uint32 len) in
  if decide (frames = 0 ∨ channels = 0) then throw NotSupportedError
  else mret {| numberOfChannels := channels; bufferLength := frames;
               bufferSampleRate := rate;
               channelData := replicate channels (replicate frames #0%js) |}.

(** [src.connect(dst, out, inp)] *)
Definition connect (src dst : NodeId) (out inp : nat) : Eff unit :=
  g ← get graph;
  match g !! dst with
  | None => throw TypeError
  | Some d =>
      if decide (inp < numberOfInputs (data d))
      then on_node src
             (op_connect {| target := dst; output := out; input := inp |})
      else throw IndexSizeError
  end.

Definition disconnect (i : NodeId) : Eff unit := on_node i op_disconnect.
Definition start (i : NodeId) : Eff unit := on_node i op_start.
Definition stop (i : NodeId) : Eff unit := on_node i op_stop.

(** [Math.random()] *)
Definition random : Eff num := λ s,
  Normal (Math_random (draws s)) (set_draws (S (draws s)) s).

(** ** The hook (src/hooks/useAudioEngine.ts) *)

(** *** The drum sample bank *)

Definition createKick (ctx : AudioContext) : Eff (AudioBuffer num) :=
  buffer ← createBuffer 1 (sampleRate ctx * dec 5 1)%js (sampleRate ctx);
  data ← for_loop 0 (bufferLength buffer) (λ i data,
    let envelope := Math_exp (- #i / (sampleRate ctx * dec 1 1))%js in
    mret (<[i := (Math_sin (#60 * #2 * Math_PI * #i / sampleRate ctx)
                  * envelope * dec 5 1)%js]> data))
    (default [] (channelData buffer !! 0));
  mret {| numberOfChannels := numberOfChannels buffer;
          bufferLength := bufferLength buffer;
          bufferSampleRate := bufferSampleRate buffer;
          channelData := <[0 := data]> (channelData buffer) |}.

Definition createSnare (ctx : AudioContext) : Eff (AudioBuffer num) :=
  buffer ← createBuffer 1 (sampleRate ctx * dec 2 1)%js (sampleRate ctx);
  data ← for_loop 0 (bufferLength buffer) (λ i data,
    let envelope := Math_exp (- #i / (sampleRate ctx * dec 5 2))%js in
    r ← random;
    let noise := ((r * #2 - #1) * dec 3 1)%js in
    let tone :=
      (Math_sin (#200 * #2 * Math_PI * #i / sampleRate ctx) * dec 2 1)%js in
    mret (<[i := ((noise + tone) * envelope)%js]> data))
    (default [] (channelData buffer !! 0));
  mret {| numberOfChannels := numberOfChannels buffer;
          bufferLength := bufferLength buffer;
          bufferSampleRate := bufferSampleRate buffer;
          channelData := <[0 := data]> (channelData buffer) |}.

Definition createHihat (ctx : AudioContext) : Eff (AudioBuffer num) :=
  buffer ← createBuffer 1 (sampleRate ctx * dec 1 1)%js (sampleRate ctx);
  data ← for_loop 0 (bufferLength buffer) (λ i data,
    let envelope := Math_exp (- #i / (sampleRate ctx * dec 2 2))%js in
    r ← random;
    mret (<[i := ((r * #2 - #1) * envelope * dec 3 1)%js]> data))
    (default [] (channelData buffer !! 0));
  mret {| numberOfChannels := numberOfChannels buffer;
          bufferLength := bufferLength buffer;
          bufferSampleRate := bufferSampleRate buffer;
          channelData := <[0 := data]> (channelData buffer) |}.

(** [drumBuffers.current.set(k, b)] *)
Definition drumBuffers_set (k : string) (b : AudioBuffer num) : Eff unit :=
  put (λ s, set_drumBuffers (<[k := b]> (drumBuffers s)) s).

Definition loadDrumSamples (ctx : AudioContext) : Eff unit :=
  kick ← createKick ctx;
  drumBuffers_set "kick" kick;;
  snare ← createSnare ctx;
  drumBuffers_set "snare" snare;;
  hihat ← createHihat ctx;
  drumBuffers_set "hihat" hihat.

(** The effect run on mount: [new AudioContext()] at the sample rate
    of the output device, the analyser, the two state updates, the
    sample bank. *)
Definition mount (deviceRate : num) : Eff unit :=
  dest ← create Destination;
  let ctx := {| sampleRate := deviceRate; currentTime := #0%js;
                destination := dest |} in
  analyserNode ← createAnalyser;
  on_node analyserNode (op_set_fftSize 2048);;
  connect analyserNode (destination ctx) 0 0;;
  put (set_audioContext (Some ctx));;
  put (set_analyser (Some analyserNode));;
  async (loadDrumSamples ctx).

(** The audio clock moves on. *)
Definition tick (now : num) (s : Engine) : Engine :=
  match audioContext s with
  | Some ctx =>
      set_audioContext
        (Some {| sampleRate := sampleRate ctx; currentTime := now;
                 destination := destination ctx |}) s
  | None => s
  end.

(** *** The binaural session *)

(** The inner loop runs to [bufferSize], which is the buffer's length
    whenever [sampleRate * 2] is a whole number below 2^32; the model
    takes the length. *)
Definition createWhiteNoise (context : AudioContext)
  : Eff (AudioBuffer num) :=
  let bufferSize := (sampleRate context * #2)%js in
  buffer ← createBuffer 2 bufferSize (sampleRate context);
  channels ← for_loop 0 2 (λ channel channels,
    channelData ← for_loop 0 (bufferLength buffer) (λ i channelData,
      r ← random;
      mret (<[i := (r * #2 - #1)%js]> channelData))
      (default [] (channels !! channel));
    mret (<[channel := channelData]> channels))
    (channelData buffer);
  mret {| numberOfChannels := numberOfChannels buffer;
          bufferLength := bufferLength buffer;
          bufferSampleRate := bufferSampleRate buffer;
          channelData := channels |}.

Definition stopBinaural : Eff unit :=
  b ← get binauralNodes;
  when_node (leftOsc b) (λ leftOsc, stop leftOsc;; disconnect leftOsc);;
  when_node (rightOsc b) (λ rightOsc, stop rightOsc;; disconnect rightOsc);;
  when_node (noiseSource b)
    (λ noiseSource, stop noiseSource;; disconnect noiseSource);;
  when_node (leftGain b) disconnect;;
  when_node (rightGain b) disconnect;;
  when_node (noiseGain b) disconnect;;
  when_node (toneGain b) disconnect;;
  when_node (panNode b) disconnect;;
  when_node (merger b) disconnect;;
  when_node (delayNode b) disconnect;;
  when_node (delayGain b) disconnect;;
  when_node (convolverNode b) disconnect;;
  when_node (reverbGain b) disconnect;;
  put (set_binauralNodes no_nodes).

(** What [startBinaural] does once past its guard and the [stopBinaural]
    call. *)
Definition buildBinaural (audioContext : AudioContext) (analyser : NodeId)
    (baseFreq beatFreq noiseMix panValue : num) (waveform : OscillatorType)
  : Eff unit :=
  merger ← createChannelMerger 2;
  leftOsc ← createOscillator;
  rightOsc ← createOscillator;
  leftGain ← createGain;
  rightGain ← createGain;
  toneGain ← createGain;
  noiseGain ← createGain;
  panNode ← createStereoPanner;
  (* FX nodes *)
  delayNode ← createDelay #1%js;
  delayGain ← createGain;
  convolverNode ← createConvolver;
  reverbGain ← createGain;
  (* Set up oscillators *)
  on_node leftOsc (op_set_type waveform);;
  on_node rightOsc (op_set_type waveform);;
  on_node leftOsc (op_frequency (set_value baseFreq));;
  on_node rightOsc (op_frequency (set_value (baseFreq + beatFreq)%js));;
  (* Set up white noise *)
  noiseBuffer ← createWhiteNoise audioContext;
  noiseSource ← createBufferSource;
  on_node noiseSource (op_set_buffer noiseBuffer);;
  on_node noiseSource (op_set_loop true);;
  (* Set gain levels based on mix *)
  let toneLevel := ((#1 - noiseMix) * dec 3 1)%js in
  let noiseLevel := (noiseMix * dec 3 1)%js in
  on_node leftGain (op_gain (set_value #1%js));;
  on_node rightGain (op_gain (set_value #1%js));;
  on_node toneGain (op_gain (set_value toneLevel));;
  on_node noiseGain (op_gain (set_value noiseLevel));;
  on_node panNode (op_pan (set_value panValue));;
  (* Initialize FX *)
  on_node delayNode (op_delayTime (set_value (dec 3 1)));;
  on_node delayGain (op_gain (set_value #0%js));;
  on_node reverbGain (op_gain (set_value #0%js));;
  (* Connect tone path *)
  connect leftOsc leftGain 0 0;;
  connect rightOsc rightGain 0 0;;
  connect leftGain toneGain 0 0;;
  connect rightGain toneGain 0 0;;
  connect toneGain merger 0 0;;
  connect toneGain merger 0 1;;
  (* Connect noise path *)
  connect noiseSource noiseGain 0 0;;
  connect noiseGain merger 0 0;;
  connect noiseGain merger 0 1;;
  (* Connect FX chain *)
  connect merger delayNode 0 0;;
  connect delayNode delayGain 0 0;;
  connect delayGain merger 0 0;;
  (* Connect panning and output *)
  connect merger panNode 0 0;;
  connect panNode analyser 0 0;;
  (* Start oscillators *)
  start leftOsc;;
  start rightOsc;;
  start noiseSource;;
  put (set_binauralNodes {|
    leftOsc := Some leftOsc; rightOsc := Some rightOsc;
    leftGain := Some leftGain; rightGain := Some rightGain;
    noiseSource := Some noiseSource; noiseGain := Some noiseGain;
    toneGain := Some toneGain; panNode := Some panNode;
    merger := Some merger; delayNode := Some delayNode;
    delayGain := Some delayGain; convolverNode := Some convolverNode;
    reverbGain := Some reverbGain |}).

Definition startBinaural (baseFreq beatFreq noiseMix panValue : num)
    (waveform : OscillatorType) : Eff unit :=
  ctx ← get audioContext;
  an ← get analyser;
  match ctx, an with
  | Some audioContext, Some analyser =>
      stopBinaural;;
      buildBinaural audioContext analyser
        baseFreq beatFreq noiseMix panValue waveform
  | _, _ => mret ()
  end.

Definition updateBinauralFrequencies (baseFreq beatFreq : num) : Eff unit :=
  b ← get binauralNodes;
  ctx ← get audioContext;
  match leftOsc b, rightOsc b, ctx with
  | Some leftOsc, Some rightOsc, Some audioContext =>
      on_node leftOsc
        (op_frequency (setValueAtTime baseFreq (currentTime audioContext)));;
      on_node rightOsc
        (op_frequency (setValueAtTime (baseFreq + beatFreq)%js
                         (currentTime audioContext)))
  | _, _, _ => mret ()
  end.

Definition updateNoiseMix (mix : num) : Eff unit :=
  b ← get binauralNodes;
  ctx ← get audioContext;
  match noiseGain b, toneGain b, ctx with
  | Some noiseGain, Some toneGain, Some audioContext =>
      let toneLevel := ((#1 - mix) * dec 3 1)%js in
      let noiseLevel := (mix * dec 3 1)%js in
      on_node toneGain
        (op_gain (setValueAtTime toneLevel (currentTime audioContext)));;
      on_node noiseGain
        (op_gain (setValueAtTime noiseLevel (currentTime audioContext)))
  | _, _, _ => mret ()
  end.

Definition updatePanning (panValue : num) : Eff unit :=
  b ← get binauralNodes;
  ctx ← get audioContext;
  match panNode b, ctx with
  | Some panNode, Some audioContext =>
      on_node panNode
        (op_pan (setValueAtTime panValue (currentTime audioContext)))
  | _, _ => mret ()
  end.

Definition updateWaveform (waveform : OscillatorType) : Eff unit :=
  b ← get binauralNodes;
  match leftOsc b, rightOsc b with
  | Some leftOsc, Some rightOsc =>
      on_node leftOsc (op_set_type waveform);;
      on_node rightOsc (op_set_type waveform)
  | _, _ => mret ()
  end.

(** *** The chord player *)

(** Convert semitone to frequency (C4 = 261.63 Hz) *)
Definition semitoneToFrequency (semitone octave : num) : num :=
  let baseFreq := dec 26163 2 in
  let octaveMultiplier := Math_pow #2%js (octave - #4)%js in
  (baseFreq * Math_pow #2%js (semitone / #12) * octaveMultiplier)%js.

Definition stopChord : Eff unit :=
  oscs ← get chordOscillators;
  forEach oscs (λ osc, try_catch (stop osc;; disconnect osc));;
  put (set_chordOscillators []).

Definition playChord (notes : list num) (octave volume : num) : Eff unit :=
  ctx ← get audioContext;
  an ← get analyser;
  match ctx, an with
  | Some audioContext, Some analyser =>
      (* Stop any existing chord *)
      stopChord;;
      chordGain ← createGain;
      on_node chordGain (op_gain (set_value (volume * dec 2 1)%js));;
      connect chordGain analyser 0 0;;
      forEach notes (λ semitone,
        osc ← createOscillator;
        noteGain ← createGain;
        on_node osc (op_set_type sine);;
        on_node osc
          (op_frequency (set_value (semitoneToFrequency semitone octave)));;
        on_node noteGain
          (op_gain (set_value (#1 / #(length notes))%js));;
        connect osc noteGain 0 0;;
        connect noteGain chordGain 0 0;;
        start osc;;
        put (λ s, set_chordOscillators (chordOscillators s ++ [osc]) s))
  | _, _ => mret ()
  end.

(** *** Drum hits *)

Definition playDrumSound (drumType : string) : Eff unit :=
  ctx ← get audioContext;
  an ← get analyser;
  match ctx, an with
  | Some audioContext, Some analyser =>
      buffers ← get drumBuffers;
      match buffers !! drumType with
      | None => mret ()
      | Some buffer =>
          source ← createBufferSource;
          gain ← createGain;
          on_node source (op_set_buffer buffer);;
          on_node gain (op_gain (set_value (dec 5 1)));;
          connect source gain 0 0;;
          connect gain analyser 0 0;;
          start source
      end
  | _, _ => mret ()
  end.

End Engine.

Arguments AudioContext : clear implicits.
Arguments Engine : clear implicits.
Arguments Completion : clear implicits.
Arguments Normal {num A} a s.
Arguments Throw {num A} e s.

(** ** A host to run the model on *)

(** One implementation of [Math] over binary64, so that the model can be
    evaluated on concrete inputs.  Every theorem below that is stated
    for binary64 holds for any [JSMath float]; this one is used to run
    examples.  [sin] and [exp] reduce their argument and sum a Taylor
    series, [pow] multiplies out whole exponents and goes through
    [exp] and a logarithm series otherwise. *)
Module Host.
Import Binary64.
Local Open Scope float_scope.

Definition PI : float := 0x1.921fb54442d18p+1.
Definition LN2 : float := 0x1.62e42fefa39efp-1.

(** Nearest whole number, for |x| < 2^51. *)
Definition round (x : float) : float :=
  (x + 0x1.8p+52) - 0x1.8p+52.

(** [acc + t·Σ_k Π_{j<k} (step j)], [n] terms. *)
Fixpoint series (n : nat) (j : Z) (step : Z → float) (t acc : float)
  : float :=
  match n with
  | 0%nat => acc
  | S n' => series n' (j + 1)%Z step (t * step j) (acc + t)
  end.

Definition sin (x : float) : float :=
  let r := x - round (x / (2 * PI)) * (2 * PI) in
  series 14 0 (λ j, - (r * r) / float_of_Z ((2 * j + 2) * (2 * j + 3))) r 0.

Definition exp (x : float) : float :=
  let m := round (x / LN2) in
  let r := x - m * LN2 in
  Z.ldexp (series 18 0 (λ j, r / float_of_Z (j + 1)) 1 0) (trunc m).

Definition ln (x : float) : float :=
  let z := (x - 1) / (x + 1) in
  2 * series 40 0
        (λ j, z * z * float_of_Z (2 * j + 1) / float_of_Z (2 * j + 3)) z 0.

Definition pow_pos (b : float) (n : positive) : float :=
  Pos.iter (λ a, a * b) 1 n.

Definition pow (b e : float) : float :=
  if PrimFloat.eqb e (round e) then
    match trunc e with
    | Z0 => 1
    | Zpos n => pow_pos b n
    | Zneg n => 1 / pow_pos b n
    end
  else exp (e * ln b).

(** A multiplicative congruential sequence in [0, 1). *)
Definition random (k : nat) : float :=
  float_of_Z ((Z.of_nat (S k) * 2654435761) mod 2 ^ 32) / float_of_Z (2 ^ 32).

#[export] Instance math : JSMath float := {|
  Math_PI := PI;
  Math_sin := sin;
  Math_exp := exp;
  Math_pow := pow;
  Math_random := random;
|}.

End Host.

(** * The components that call the hook *)

(** Each component calls [useAudioEngine()] for itself, so each has an
    engine of its own: the generator's engine never plays a chord or a
    drum, and the chord player's never runs a session.

    A component's state is its pieces of React state together with the
    state of its engine.  An event handler reads the state of the render
    it was created in and leaves the next state; a throw leaves the
    React state as it was, apart from updates the handler had already
    asked for, and the engine as far as the call got. *)

Inductive Outcome (S : Type) :=
  | Done (s : S)
  | Failed (e : DOMException) (s : S).
Arguments Done {S} s.
Arguments Failed {S} e s.

Definition after {S} (o : Outcome S) : S :=
  match o with Done s | Failed _ s => s end.

Definition finished {S} (o : Outcome S) : bool :=
  match o with Done _ => true | Failed _ _ => false end.

(** [Object.is] on numbers, which is how React compares the
    dependencies of an effect. *)
Module Same.

#[export] Instance float_eq_dec : EqDecision float.
Proof.
  intros x y. destruct (PrimFloat.Leibniz.eqb x y) eqn:E.
  - left. by apply FloatAxioms.Leibniz.eqb_spec.
  - right. intros H. apply FloatAxioms.Leibniz.eqb_spec in H. congruence.
Defined.

#[export] Instance R_eq_dec : EqDecision R := Req_dec_T.

End Same.

(** ** The generator *)

Module Preset.
Section Preset.
Context {num : Type}.

Record t := {
  name : string;
  id : string;
  baseFreq : num;
  beatFreq : num;
  noiseMix : num;
  description : string;
}.

End Preset.
Arguments t : clear implicits.
End Preset.

Module BinauralGenerator.
Section BinauralGenerator.
Context {num : Type} `{!JSArith num} `{!JSMath num} `{!EqDecision num}.

Record State := {
  isPlaying : bool;
  baseFreq : num;
  beatFreq : num;
  noiseMix : num;
  panValue : num;
  waveform : OscillatorType;
  currentEmotion : string;
  (** the state of this component's [useAudioEngine()] *)
  engine : Engine num;
}.

(** The first render on a device running at [deviceRate], once the
    hook's effect has run. *)
Definition initial (deviceRate : num) : State := {|
  isPlaying := false;
  baseFreq := #200%js;
  beatFreq := #10%js;
  noiseMix := #0%js;
  panValue := #0%js;
  waveform := sine;
  currentEmotion := "calm";
  engine := state_of (mount deviceRate unmounted);
|}.

Definition set_engine (e : Engine num) (g : State) : State :=
  {| isPlaying := isPlaying g; baseFreq := baseFreq g;
     beatFreq := beatFreq g; noiseMix := noiseMix g;
     panValue := panValue g; waveform := waveform g;
     currentEmotion := currentEmotion g; engine := e |}.

Definition setIsPlaying (b : bool) (g : State) : State :=
  {| isPlaying := b; baseFreq := baseFreq g;
     beatFreq := beatFreq g; noiseMix := noiseMix g;
     panValue := panValue g; waveform := waveform g;
     currentEmotion := currentEmotion g; engine := engine g |}.

Definition setBaseFreq (v : num) (g : State) : State :=
  {| isPlaying := isPlaying g; baseFreq := v;
     beatFreq := beatFreq g; noiseMix := noiseMix g;
     panValue := panValue g; waveform := waveform g;
     currentEmotion := currentEmotion g; engine := engine g |}.

Definition setBeatFreq (v : num) (g : State) : State :=
  {| isPlaying := isPlaying g; baseFreq := baseFreq g;
     beatFreq := v; noiseMix := noiseMix g;
     panValue := panValue g; waveform := waveform g;
     currentEmotion := currentEmotion g; engine := engine g |}.

Definition setNoiseMix (v : num) (g : State) : State :=
  {| isPlaying := isPlaying g; baseFreq := baseFreq g;
     beatFreq := beatFreq g; noiseMix := v;
     panValue := panValue g; waveform := waveform g;
     currentEmotion := currentEmotion g; engine := engine g |}.

Definition setPanValue (v : num) (g : State) : State :=
  {| isPlaying := isPlaying g; baseFreq := baseFreq g;
     beatFreq := beatFreq g; noiseMix := noiseMix g;
     panValue := v; waveform := waveform g;
     currentEmotion := currentEmotion g; engine := engine g |}.

Definition setWaveform (w : OscillatorType) (g : State) : State :=
  {| isPlaying := isPlaying g; baseFreq := baseFreq g;
     beatFreq := beatFreq g; noiseMix := noiseMix g;
     panValue := panValue g; waveform := w;
     currentEmotion := currentEmotion g; engine := engine g |}.

Definition setCurrentEmotion (e : string) (g : State) : State :=
  {| isPlaying := isPlaying g; baseFreq := baseFreq g;
     beatFreq := beatFreq g; noiseMix := noiseMix g;
     panValue := panValue g; waveform := waveform g;
     currentEmotion := e; engine := engine g |}.

(** Run a call of the hook on the component's engine, then update the
    React state with [next] if the call returned. *)
Definition call (m : Eff (num:=num) ()) (next : State → State) (g : State)
  : Outcome State :=
  match m (engine g) with
  | Normal _ e => Done (next (set_engine e g))
  | Throw x e => Failed x (set_engine e g)
  end.

Definition handleTogglePlay (g : State) : Outcome State :=
  if isPlaying g then
    call stopBinaural (setIsPlaying false) g
  else
    call (startBinaural (baseFreq g) (beatFreq g) (noiseMix g / #100)%js
            (panValue g / #100)%js (waveform g))
      (setIsPlaying true) g.

Definition emotionPresets : list (Preset.t num) := [
  {| Preset.name := "Calm"; Preset.id := "calm";
     Preset.baseFreq := #200%js; Preset.beatFreq := #4%js;
     Preset.noiseMix := #30%js;
     Preset.description := "Theta waves for deep relaxation" |};
  {| Preset.name := "Focus"; Preset.id := "focus";
     Preset.baseFreq := #400%js; Preset.beatFreq := #14%js;
     Preset.noiseMix := #10%js;
     Preset.description := "Beta waves for concentration" |};
  {| Preset.name := "Energized"; Preset.id := "energized";
     Preset.baseFreq := #600%js; Preset.beatFreq := #30%js;
     Preset.noiseMix := #5%js;
     Preset.description := "Gamma waves for high energy" |};
  {| Preset.name := "Anxiety"; Preset.id := "anxiety";
     Preset.baseFreq := #800%js; Preset.beatFreq := #40%js;
     Preset.noiseMix := #60%js;
     Preset.description := "High frequency stimulation" |};
  {| Preset.name := "Meditative"; Preset.id := "meditative";
     Preset.baseFreq := #150%js; Preset.beatFreq := #7%js;
     Preset.noiseMix := #20%js;
     Preset.description := "Alpha waves for meditation" |} ].

Definition applyEmotionPreset (preset : Preset.t num) (g : State) : State :=
  setCurrentEmotion (Preset.id preset)
    (setNoiseMix (Preset.noiseMix preset)
       (setBeatFreq (Preset.beatFreq preset)
          (setBaseFreq (Preset.baseFreq preset) g))).

(** What happens to the component: the play button, a preset button,
    the four sliders ([onChange] hands over [Number(e.target.value)])
    and the wave shape buttons; and, in between, the audio clock moving
    on. *)
Inductive Event :=
  | TogglePlay
  | ApplyEmotionPreset (preset : Preset.t num)
  | SetBaseFreq (v : num)
  | SetBeatFreq (v : num)
  | SetWaveform (wave : OscillatorType)
  | SetNoiseMix (v : num)
  | SetPanValue (v : num)
  | Elapse (now : num).

Definition handle (ev : Event) (g : State) : Outcome State :=
  match ev with
  | TogglePlay => handleTogglePlay g
  | ApplyEmotionPreset preset => Done (applyEmotionPreset preset g)
  | SetBaseFreq v => Done (setBaseFreq v g)
  | SetBeatFreq v => Done (setBeatFreq v g)
  | SetWaveform wave => Done (setWaveform wave g)
  | SetNoiseMix v => Done (setNoiseMix v g)
  | SetPanValue v => Done (setPanValue v g)
  | Elapse now => Done (set_engine (tick now (engine g)) g)
  end.

(** The body of the effect that keeps a running session in line with
    the controls. *)
Definition syncEffect (g : State) : Eff (num:=num) () :=
  if isPlaying g then
    updateBinauralFrequencies (baseFreq g) (beatFreq g);;
    updateNoiseMix (noiseMix g / #100)%js;;
    updatePanning (panValue g / #100)%js;;
    updateWaveform (waveform g)
  else mret ().

(** Its dependencies. *)
Definition deps (g : State)
  : num * num * num * num * OscillatorType * bool :=
  (baseFreq g, beatFreq g, noiseMix g, panValue g, waveform g, isPlaying g).

(** The render that follows a handler: the effect runs if one of its
    dependencies is not the same as in the render before. *)
Definition commit (old new : State) : Outcome State :=
  if decide (deps new = deps old) then Done new
  else call (syncEffect new) (λ g, g) new.

Definition dispatch (ev : Event) (g : State) : Outcome State :=
  match handle ev g with
  | Done g' => commit g g'
  | Failed x g' => Failed x g'
  end.

(** Events one after the other. *)
Definition run (evs : list Event) (g : State) : State :=
  foldl (λ g ev, after (dispatch ev g)) g evs.

End BinauralGenerator.
Arguments State : clear implicits.
Arguments Event : clear implicits.
End BinauralGenerator.

(** ** The chord player *)

Module Chord.

Record t {num : Type} := {
  name : string;
  notes : list num;
}.
Arguments t : clear implicits.

End Chord.

Module ChordPlayer.
Section ChordPlayer.
Context {num : Type} `{!JSArith num} `{!JSMath num}.

Record State := {
  selectedChord : option string;
  octave : num;
  chordVolume : num;
  (** the state of this component's [useAudioEngine()] *)
  engine : Engine num;
}.

Definition initial (deviceRate : num) : State := {|
  selectedChord := None;
  octave := #4%js;
  chordVolume := #50%js;
  engine := state_of (mount deviceRate unmounted);
|}.

Definition set_engine (e : Engine num) (p : State) : State :=
  {| selectedChord := selectedChord p; octave := octave p;
     chordVolume := chordVolume p; engine := e |}.

Definition setSelectedChord (c : option string) (p : State) : State :=
  {| selectedChord := c; octave := octave p;
     chordVolume := chordVolume p; engine := engine p |}.

Definition setOctave (v : num) (p : State) : State :=
  {| selectedChord := selectedChord p; octave := v;
     chordVolume := chordVolume p; engine := engine p |}.

Definition setChordVolume (v : num) (p : State) : State :=
  {| selectedChord := selectedChord p; octave := octave p;
     chordVolume := v; engine := engine p |}.

Definition chords : list (Chord.t num) := [
  {| Chord.name := "C"; Chord.notes := [ #0; #4; #7 ]%js |};
  {| Chord.name := "Dm"; Chord.notes := [ #2; #5; #9 ]%js |};
  {| Chord.name := "Em"; Chord.notes := [ #4; #7; #11 ]%js |};
  {| Chord.name := "F"; Chord.notes := [ #5; #9; #0 ]%js |};
  {| Chord.name := "G"; Chord.notes := [ #7; #11; #2 ]%js |};
  {| Chord.name := "Am"; Chord.notes := [ #9; #0; #4 ]%js |};
  {| Chord.name := "Bdim"; Chord.notes := [ #11; #2; #5 ]%js |} ].

(** The state update is asked for before the hook is called, so it
    stands whether or not the call returns. *)
Definition call (m : Eff (num:=num) ()) (p : State) : Outcome State :=
  match m (engine p) with
  | Normal _ e => Done (set_engine e p)
  | Throw x e => Failed x (set_engine e p)
  end.

Definition handleChordPress (chord : Chord.t num) (p : State)
  : Outcome State :=
  call (playChord (Chord.notes chord) (octave p) (chordVolume p / #100)%js)
    (setSelectedChord (Some (Chord.name chord)) p).

Definition handleChordRelease (p : State) : Outcome State :=
  call stopChord (setSelectedChord None p).

(** What the user can do: press a chord button (mouse down, touch
    start), let go of it (mouse up, mouse leave, touch end), and move
    the two sliders. *)
Inductive Event :=
  | Press (chord : Chord.t num)
  | Release
  | SetOctave (v : num)
  | SetChordVolume (v : num).

Definition dispatch (ev : Event) (p : State) : Outcome State :=
  match ev with
  | Press chord => handleChordPress chord p
  | Release => handleChordRelease p
  | SetOctave v => Done (setOctave v p)
  | SetChordVolume v => Done (setChordVolume v p)
  end.

Definition run (evs : list Event) (p : State) : State :=
  foldl (λ p ev, after (dispatch ev p)) p evs.

End ChordPlayer.
Arguments State : clear implicits.
Arguments Event : clear implicits.
End ChordPlayer.

(** ** The beat sequencer *)

Module BeatSequencer.
Section BeatSequencer.
Context {num : Type} `{!JSArith num} `{!JSMath num}.

Record State := {
  isPlaying : bool;
  bpm : num;
  currentStep : nat;
  pattern : list (list bool);
  (** the state of this component's [useAudioEngine()] *)
  engine : Engine num;
}.

Definition initial (deviceRate : num) : State := {|
  isPlaying := false;
  bpm := #120%js;
  currentStep := 0;
  pattern := [
    [true; false; false; false; true; false; false; false];
    [false; false; true; false; false; false; true; false];
    [true; true; true; true; true; true; true; true] ];
  engine := state_of (mount deviceRate unmounted);
|}.

Definition set_engine (e : Engine num) (q : State) : State :=
  {| isPlaying := isPlaying q; bpm := bpm q; currentStep := currentStep q;
     pattern := pattern q; engine := e |}.

Definition setIsPlaying (b : bool) (q : State) : State :=
  {| isPlaying := b; bpm := bpm q; currentStep := currentStep q;
     pattern := pattern q; engine := engine q |}.

Definition setBpm (v : num) (q : State) : State :=
  {| isPlaying := isPlaying q; bpm := v; currentStep := currentStep q;
     pattern := pattern q; engine := engine q |}.

Definition setCurrentStep (k : nat) (q : State) : State :=
  {| isPlaying := isPlaying q; bpm := bpm q; currentStep := k;
     pattern := pattern q; engine := engine q |}.

Definition setPattern (pat : list (list bool)) (q : State) : State :=
  {| isPlaying := isPlaying q; bpm := bpm q; currentStep := currentStep q;
     pattern := pat; engine := engine q |}.

(** [l.forEach((x, i) => f(x, i))], counting from [i]. *)
Fixpoint forEachIndexed {A} (l : list A) (i : nat)
    (f : A → nat → Eff (num:=num) ()) : Eff (num:=num) () :=
  match l with
  | [] => mret ()
  | x :: l' => f x i;; forEachIndexed l' (S i) f
  end.

(** [['kick', 'snare', 'hihat'][trackIndex]] *)
Definition drumTypes : list string := ["kick"; "snare"; "hihat"].

(** [track[step]] as a condition: a step the row does not have reads
    as [undefined], which counts as false. *)
Definition active (track : list bool) (step : nat) : bool :=
  default false (track !! step).

(** The sounds of a step.  A track beyond the third has no drum type:
    [playDrumSound(undefined)] finds no buffer and does nothing. *)
Definition playStep (pat : list (list bool)) (step : nat)
  : Eff (num:=num) () :=
  forEachIndexed pat 0 (λ track trackIndex,
    if active track step then
      match drumTypes !! trackIndex with
      | Some drumType => playDrumSound drumType
      | None => mret ()
      end
    else mret ()).

(** What the interval timer does at each tick. *)
Definition tick (q : State) : Outcome State :=
  let nextStep := (currentStep q + 1) mod 8 in
  match playStep (pattern q) nextStep (engine q) with
  | Normal _ e => Done (setCurrentStep nextStep (set_engine e q))
  | Throw x e => Failed x (set_engine e q)
  end.

(** [row[step] = v]: past its end, the row grows up to [step]; the
    steps skipped over read as [undefined] and count as false. *)
Definition assign (row : list bool) (step : nat) (v : bool) : list bool :=
  if decide (step < length row) then <[step := v]> row
  else row ++ replicate (step - length row) false ++ [v].

(** A track the pattern does not have is [undefined], and reading a
    step of it throws a [TypeError]. *)
Definition toggleStep (track step : nat) (q : State) : Outcome State :=
  match pattern q !! track with
  | None => Failed TypeError q
  | Some row =>
      Done (setPattern
              (<[track := assign row step (negb (active row step))]>
                 (pattern q)) q)
  end.

(** What happens: the play button, the tempo slider, a step button, and
    a tick of the timer, which runs only while the sequencer plays. *)
Inductive Event :=
  | TogglePlaying
  | SetBpm (v : num)
  | ToggleStep (track step : nat)
  | Tick.

Definition dispatch (ev : Event) (q : State) : Outcome State :=
  match ev with
  | TogglePlaying => Done (setIsPlaying (negb (isPlaying q)) q)
  | SetBpm v => Done (setBpm v q)
  | ToggleStep track step => toggleStep track step q
  | Tick => if isPlaying q then tick q else Done q
  end.

Definition run (evs : list Event) (q : State) : State :=
  foldl (λ q ev, after (dispatch ev q)) q evs.

(** The period of the timer, in milliseconds. *)
Definition interval (q : State) : num :=
  (#60 / bpm q / #2 * #1000)%js.

End BeatSequencer.
Arguments State : clear implicits.
Arguments Event : clear implicits.
End BeatSequencer.

(** ** The curve on the canvas *)

(** The part of [Math] the drawing loop calls besides [Math.sin]. *)
Class JSMathDraw (num : Type) := {
  Math_sign : num → num;
  Math_abs : num → num;
}.

Module Draw.

(** [Math.sign] keeps a zero and a NaN as they are. *)
#[export] Instance float_draw : JSMathDraw float := {|
  Math_sign x :=
    if PrimFloat.ltb x 0 then (-1)%float
    else if PrimFloat.ltb 0 x then 1%float
    else x;
  Math_abs := PrimFloat.abs;
|}.

#[export] Instance R_draw : JSMathDraw R := {|
  Math_sign x :=
    if Rlt_dec x 0 then (-1)%R else if Rlt_dec 0 x then 1%R else 0%R;
  Math_abs := Rabs;
|}.

Section Draw.
Context {num : Type} `{!JSArith num} `{!JSMath num} `{!JSMathDraw num}.
Local Coercion Z.of_nat : nat >-> Z.

(** Where sample [i] of the analyser's bytes is drawn, top to bottom:
    the body of the drawing loop, for the byte [dataArray[i]] and the
    canvas height. *)
Definition plotY (waveform : OscillatorType) (i : nat) (byte : Z)
    (height : num) : num :=
  let v := (#byte / #128)%js in
  let y := (v * height / #2)%js in
  match waveform with
  | square =>
      (Math_sign (y - height / #2) * Math_abs (y - height / #2)
       + height / #2)%js
  | triangle =>
      (height / #2
       + Math_abs (y - height / #2) * Math_sign (Math_sin (#i * dec 1 1)))%js
  | _ => y
  end.

(** Where it is drawn, left to right: [x] starts at 0 and moves on by
    [sliceWidth] after every sample. *)
Fixpoint plotX (sliceWidth : num) (i : nat) : num :=
  match i with
  | 0 => #0%js
  | S i' => (plotX sliceWidth i' + sliceWidth)%js
  end.

Definition sliceWidth (width : num) (bufferLength : nat) : num :=
  (width / #bufferLength)%js.

End Draw.
End Draw.

(** * The vocabulary of the properties *)

Section Vocabulary.
Context {num : Type} `{!JSArith num} `{!JSMath num}.
Implicit Types s : Engine num.
Implicit Types g d B : list (AudioNode num).
Implicit Types n : AudioNode num.
Implicit Types ctx : AudioContext num.
Local Coercion Z.of_nat : nat >-> Z.

(** *** Initialization *)

(** The engine has been set up: both pieces of React state are set. *)
Definition initialized s : Prop :=
  is_Some (audioContext s) ∧ is_Some (analyser s).

(** *** What a loop writes, and how many frames a buffer gets *)

(** [d[i] = v i; d[i+1] = v (i+1); ...], [c] assignments. *)
Fixpoint writes (i c : nat) (v : nat → num) (d : list num) : list num :=
  match c with
  | 0 => d
  | S c' => writes (S i) c' v (<[i := v i]> d)
  end.

(** The number of frames [createBuffer] allots for a length argument. *)
Definition frames (len : num) : nat := Z.to_nat (to_uint32 len).

(** The noise buffer of a session started after [k] random draws. *)
Definition noiseFrames (ctx : AudioContext num) : nat :=
  frames (sampleRate ctx * #2)%js.

Definition whiteNoise (ctx : AudioContext num) (k : nat) : AudioBuffer num :=
  let F := noiseFrames ctx in
  let channel c :=
    writes 0 F (λ j, (Math_random (k + c * F + j) * #2 - #1)%js)
      (replicate F #0%js) in
  {| numberOfChannels := 2; bufferLength := F;
     bufferSampleRate := sampleRate ctx;
     channelData := [channel 0; channel 1] |}.

(** *** Nodes and connections written in full *)

Definition conn (t : NodeId) (i : nat) : Connection :=
  {| target := t; output := 0; input := i |}.

Definition node (d : NodeData num) (st sp : bool) (o : list Connection)
  : AudioNode num :=
  {| data := d; started := st; stopped := sp; outputs := o |}.

(** *** The nodes of a session *)

(** The handle of the session whose merger is node [b]: the thirteen
    nodes are created in a row. *)
Definition handle_at (b : NodeId) : BinauralNodes := {|
  leftOsc := Some (b + 1); rightOsc := Some (b + 2);
  leftGain := Some (b + 3); rightGain := Some (b + 4);
  noiseSource := Some (b + 12); noiseGain := Some (b + 6);
  toneGain := Some (b + 5); panNode := Some (b + 7);
  merger := Some b; delayNode := Some (b + 8);
  delayGain := Some (b + 9); convolverNode := Some (b + 10);
  reverbGain := Some (b + 11) |}.

(** The thirteen nodes of a running session whose merger is node [b]
    and whose output goes to the analyser [a]. *)
Definition session_block (b a : NodeId) (wl wr : OscillatorType)
    (fl fr tg ng pn : AudioParam num) (nb : AudioBuffer num)
  : list (AudioNode num) :=
  [ node (ChannelMerger 2) false false [conn (b + 8) 0; conn (b + 7) 0];
    node (Oscillator wl fl) true false [conn (b + 3) 0];
    node (Oscillator wr fr) true false [conn (b + 4) 0];
    node (Gain (set_value #1%js (param #1%js))) false false [conn (b + 5) 0];
    node (Gain (set_value #1%js (param #1%js))) false false [conn (b + 5) 0];
    node (Gain tg) false false [conn b 0; conn b 1];
    node (Gain ng) false false [conn b 0; conn b 1];
    node (StereoPanner pn) false false [conn a 0];
    node (Delay #1%js (set_value (dec 3 1) (param #0%js))) false false
      [conn (b + 9) 0];
    node (Gain (set_value #0%js (param #1%js))) false false [conn b 0];
    node Convolver false false [];
    node (Gain (set_value #0%js (param #1%js))) false false [];
    node (BufferSource (Some nb) true) true false [conn (b + 6) 0] ].

(** The session as [startBinaural] leaves it. *)
Definition new_session (b a : NodeId) (ctx : AudioContext num) (k : nat)
    (baseFreq beatFreq noiseMix panValue : num) (w : OscillatorType) :=
  session_block b a w w
    (set_value baseFreq (param #440%js))
    (set_value (baseFreq + beatFreq)%js (param #440%js))
    (set_value ((#1 - noiseMix) * dec 3 1)%js (param #1%js))
    (set_value (noiseMix * dec 3 1)%js (param #1%js))
    (set_value panValue (param #0%js))
    (whiteNoise ctx k).

(** Asked for the "custom" shape, [startBinaural] throws at its first
    assignment to [type], with twelve unconfigured nodes created. *)
Definition unborn_session : list (AudioNode num) :=
  [ fresh (ChannelMerger 2);
    fresh (Oscillator sine (param #440%js));
    fresh (Oscillator sine (param #440%js));
    fresh (Gain (param #1%js)); fresh (Gain (param #1%js));
    fresh (Gain (param #1%js)); fresh (Gain (param #1%js));
    fresh (StereoPanner (param #0%js));
    fresh (Delay #1%js (param #0%js));
    fresh (Gain (param #1%js)); fresh Convolver;
    fresh (Gain (param #1%js)) ].

(** *** Calls that only quieten the graph *)

Definition is_oscillator n : bool :=
  match data n with Oscillator _ _ => true | _ => false end.

(** A buffer source set to loop. *)
Definition is_loop n : bool :=
  match data n with BufferSource _ true => true | _ => false end.

(** Started, not stopped, and connected to something. *)
Definition audible n : bool :=
  started n && negb (stopped n) && bool_decide (outputs n ≠ []).

Definition live_oscillator n : bool := is_oscillator n && audible n.
Definition live_loop n : bool := is_loop n && audible n.

(** [n'] is [n] after calls that retune, stop or disconnect it. *)
Record calm n n' : Prop := {
  calm_inputs : numberOfInputs (data n') = numberOfInputs (data n);
  calm_oscillator : is_oscillator n' = is_oscillator n;
  calm_loop : is_loop n' = is_loop n;
  calm_started : started n' = started n;
  calm_stopped : stopped n = true → stopped n' = true;
  calm_outputs : outputs n' = outputs n ∨ outputs n' = [];
}.

Definition calm_op (f : NodeOp num) : Prop := ∀ n n', f n = inr n' → calm n n'.

Definition calm_graph g g' : Prop :=
  length g' = length g ∧
  ∀ i n, g !! i = Some n → ∃ n', g' !! i = Some n' ∧ calm n n'.

(** [s'] differs from [s] by calls that quieten nodes selected by [P]. *)
Record quieter (P : NodeId → Prop) s s' : Prop := {
  q_context : audioContext s' = audioContext s;
  q_analyser : analyser s' = analyser s;
  q_handle : binauralNodes s' = binauralNodes s;
  q_buffers : drumBuffers s' = drumBuffers s;
  q_chord : chordOscillators s' = chordOscillators s;
  q_draws : draws s' = draws s;
  q_graph : calm_graph (graph s) (graph s');
  q_others : ∀ i, ¬ P i → graph s' !! i = graph s !! i;
}.

Definition quiet {A} (P : NodeId → Prop) (m : Eff A) : Prop :=
  ∀ s, quieter P s (state_of (m s)).

(** *** Well-formed states *)

(** The nodes [B] sit in [g] from position [b] on. *)
Definition block_at (b : nat) B g : Prop :=
  ∀ k n, B !! k = Some n → g !! (b + k) = Some n.

(** Every sounding oscillator is a voice of the chord or one of the
    session's pair; every sounding looped source is the session's
    noise. *)
Definition strays_ok g (h : BinauralNodes) (ch : list NodeId) : Prop :=
  ∀ i n, g !! i = Some n →
    (live_oscillator n = true →
     i ∈ ch ∨ leftOsc h = Some i ∨ rightOsc h = Some i) ∧
    (live_loop n = true → noiseSource h = Some i).

(** Every voice of the chord is an oscillator that was started. *)
Definition voices_ok g (ch : list NodeId) : Prop :=
  Forall (λ i, ∃ n, g !! i = Some n ∧ is_oscillator n = true
                    ∧ started n = true) ch.

Definition analyser_ok g (a : NodeId) : Prop :=
  ∃ an, g !! a = Some an ∧ 0 < numberOfInputs (data an).

(** No session, or a session whose thirteen nodes are in place. *)
Definition session_ok (a : NodeId) (h : BinauralNodes) (ch : list NodeId) g
  : Prop :=
  h = no_nodes ∨
  ∃ b wl wr fl fr tg ng pn nb,
    h = handle_at b ∧
    block_at b (session_block b a wl wr fl fr tg ng pn nb) g ∧
    Forall (λ i, i < b ∨ b + 13 ≤ i) ch.

Record wf s : Prop := {
  wf_context : ∃ ctx, audioContext s = Some ctx ∧ noiseFrames ctx ≠ 0;
  wf_analyser : ∃ a, analyser s = Some a ∧ analyser_ok (graph s) a ∧
    session_ok a (binauralNodes s) (chordOscillators s) (graph s);
  wf_voices : voices_ok (graph s) (chordOscillators s);
  wf_strays : strays_ok (graph s) (binauralNodes s) (chordOscillators s);
}.

(** *** A stopped session *)

(** A node after [stopBinaural]: disconnected, and stopped if it was a
    source that had been started. *)
Definition silence n : AudioNode num :=
  node (data n) (started n) (started n || stopped n) [].

(** *** A started session *)

(** The state [startBinaural] builds on the stopped state [s1]. *)
Definition started_from s1 (ctx : AudioContext num) (a : NodeId)
    (baseFreq beatFreq noiseMix panValue : num) (w : OscillatorType)
  : Engine num :=
  Build_Engine (audioContext s1) (Some a) (handle_at (length (graph s1)))
    (drumBuffers s1) (chordOscillators s1)
    (graph s1 ++ new_session (length (graph s1)) a ctx (draws s1)
                   baseFreq beatFreq noiseMix panValue w)
    (draws s1 + 2 * noiseFrames ctx).

(** Asked for the "custom" shape it throws, after stopping what was
    running: no session is left. *)
Definition unborn_from s1 : Engine num :=
  Build_Engine (audioContext s1) (analyser s1) (binauralNodes s1)
    (drumBuffers s1) (chordOscillators s1)
    (graph s1 ++ unborn_session) (draws s1).

(** *** Chords *)

(** Releasing one voice: what the callback of [stopChord] does. *)
Definition release (osc : NodeId) : Eff (num:=num) () :=
  try_catch (stop osc;; disconnect osc).

Definition killed (g : list (AudioNode num)) (i : NodeId) : Prop :=
  ∃ n', g !! i = Some n' ∧ stopped n' = true ∧ outputs n' = [].

(** The nodes [playChord] creates for its notes, from node [i] on:
    an oscillator and its gain per note, each gain feeding the chord's
    gain [cg]; [N] is [notes.length]. *)
Fixpoint voice_nodes (cg : NodeId) (N : nat) (octave : num) (i : NodeId)
    (notes : list num) : list (AudioNode num) :=
  match notes with
  | [] => []
  | semitone :: rest =>
      node (Oscillator sine
              (set_value (semitoneToFrequency semitone octave)
                 (param #440%js)))
        true false [conn (i + 1) 0]
      :: node (Gain (set_value (#1 / #(Z.of_nat N))%js (param #1%js)))
           false false [conn cg 0]
      :: voice_nodes cg N octave (i + 2) rest
  end.

(** Their oscillators. *)
Fixpoint voice_ids (i : NodeId) (notes : list num) : list NodeId :=
  match notes with
  | [] => []
  | _ :: rest => i :: voice_ids (i + 2) rest
  end.

(** The state [playChord] builds on [s1], the state [stopChord] left. *)
Definition chord_from s1 (a : NodeId) (notes : list num)
    (octave volume : num) : Engine num :=
  let c := length (graph s1) in
  Build_Engine (audioContext s1) (analyser s1) (binauralNodes s1)
    (drumBuffers s1)
    (voice_ids (c + 1) notes)
    (graph s1 ++
     node (Gain (set_value (volume * dec 2 1)%js (param #1%js)))
       false false [conn a 0]
     :: voice_nodes c (length notes) octave (c + 1) notes)
    (draws s1).

(** *** Drum hits *)

(** The state after a hit: a one-shot source playing [buffer] into a
    gain of its own, which feeds the analyser [a]. *)
Definition hit_from s (a : NodeId) (buffer : AudioBuffer num) : Engine num :=
  Build_Engine (audioContext s) (analyser s) (binauralNodes s)
    (drumBuffers s) (chordOscillators s)
    (graph s ++
     [ node (BufferSource (Some buffer) false) true false
         [conn (length (graph s) + 1) 0];
       node (Gain (set_value (dec 5 1) (param #1%js))) false false
         [conn a 0] ])
    (draws s).

(** *** The sample bank and the mounted hook *)

Definition kickFrames ctx : nat := frames (sampleRate ctx * dec 5 1)%js.
Definition snareFrames ctx : nat := frames (sampleRate ctx * dec 2 1)%js.
Definition hihatFrames ctx : nat := frames (sampleRate ctx * dec 1 1)%js.

(** Sample [i] of each buffer as the loops compute it; [r] is the
    random number drawn for that sample. *)
Definition kick_sample ctx (i : nat) : num :=
  (Math_sin (#60 * #2 * Math_PI * #i / sampleRate ctx)
   * Math_exp (- #i / (sampleRate ctx * dec 1 1)) * dec 5 1)%js.

Definition snare_sample ctx (r : num) (i : nat) : num :=
  (((r * #2 - #1) * dec 3 1
    + Math_sin (#200 * #2 * Math_PI * #i / sampleRate ctx) * dec 2 1)
   * Math_exp (- #i / (sampleRate ctx * dec 5 2)))%js.

Definition hihat_sample ctx (r : num) (i : nat) : num :=
  ((r * #2 - #1) * Math_exp (- #i / (sampleRate ctx * dec 2 2))
   * dec 3 1)%js.

(** A one-channel buffer of [F] frames holding [v 0], [v 1], ... *)
Definition mono (F : nat) (rate : num) (v : nat → num) : AudioBuffer num :=
  {| numberOfChannels := 1; bufferLength := F; bufferSampleRate := rate;
     channelData := [writes 0 F v (replicate F #0%js)] |}.

Definition kick_buffer ctx : AudioBuffer num :=
  mono (kickFrames ctx) (sampleRate ctx) (kick_sample ctx).
Definition snare_buffer ctx (k : nat) : AudioBuffer num :=
  mono (snareFrames ctx) (sampleRate ctx)
    (λ j, snare_sample ctx (Math_random (k + j)) j).
Definition hihat_buffer ctx (k : nat) : AudioBuffer num :=
  mono (hihatFrames ctx) (sampleRate ctx)
    (λ j, hihat_sample ctx (Math_random (k + j)) j).

(** The bank once all three buffers are in. *)
Definition bank ctx (k : nat) : gmap string (AudioBuffer num) :=
  <["hihat" := hihat_buffer ctx (k + snareFrames ctx)]>
    (<["snare" := snare_buffer ctx k]>
       (<["kick" := kick_buffer ctx]> ∅)).

(** The context the mount effect creates on a device running at
    [rate]. *)
Definition mounted_ctx (rate : num) : AudioContext num :=
  {| sampleRate := rate; currentTime := #0%js; destination := 0 |}.

Definition mounted_graph : list (AudioNode num) :=
  [ fresh Destination; node (Analyser 2048) false false [conn 0 0] ].

Definition mounted (rate : num) : Engine num :=
  state_of (mount rate unmounted).

(** *** The states the hook reaches *)

(** One call of the hook's interface, or the audio clock moving on. *)
Inductive step : Engine num → Engine num → Prop :=
  | step_startBinaural s baseFreq beatFreq noiseMix panValue w :
      step s (state_of (startBinaural baseFreq beatFreq noiseMix panValue w s))
  | step_stopBinaural s : step s (state_of (stopBinaural s))
  | step_updateBinauralFrequencies s baseFreq beatFreq :
      step s (state_of (updateBinauralFrequencies baseFreq beatFreq s))
  | step_updateNoiseMix s mix : step s (state_of (updateNoiseMix mix s))
  | step_updatePanning s panValue :
      step s (state_of (updatePanning panValue s))
  | step_updateWaveform s w : step s (state_of (updateWaveform w s))
  | step_playChord s notes octave volume :
      step s (state_of (playChord notes octave volume s))
  | step_stopChord s : step s (state_of (stopChord s))
  | step_playDrumSound s drumType :
      step s (state_of (playDrumSound drumType s))
  | step_tick s now : step s (tick now s).

(** The states reached after mounting on a device running at [rate]. *)
Inductive reachable (rate : num) : Engine num → Prop :=
  | reachable_mount : reachable rate (mounted rate)
  | reachable_step s s' : reachable rate s → step s s' → reachable rate s'.

(** *** Reading the session's parameters *)

Definition node_at s (o : option NodeId) : option (AudioNode num) :=
  o ≫= λ i, graph s !! i.

Definition frequency_of (n : AudioNode num) : option (AudioParam num) :=
  match data n with Oscillator _ f => Some f | _ => None end.

Definition gain_of (n : AudioNode num) : option (AudioParam num) :=
  match data n with Gain p => Some p | _ => None end.

(** [binauralNodes.current.leftOsc.frequency], and so on. *)
Definition leftFrequency s : option (AudioParam num) :=
  node_at s (leftOsc (binauralNodes s)) ≫= frequency_of.
Definition rightFrequency s : option (AudioParam num) :=
  node_at s (rightOsc (binauralNodes s)) ≫= frequency_of.
Definition toneGainParam s : option (AudioParam num) :=
  node_at s (toneGain (binauralNodes s)) ≫= gain_of.
Definition noiseGainParam s : option (AudioParam num) :=
  node_at s (noiseGain (binauralNodes s)) ≫= gain_of.

(** *** Retired nodes *)

(** The nodes a handle refers to. *)
Definition handle_ids (h : BinauralNodes) : list NodeId :=
  omap (λ o : option NodeId, o)
    [ leftOsc h; rightOsc h; leftGain h; rightGain h; noiseSource h;
      noiseGain h; toneGain h; panNode h; merger h; delayNode h;
      delayGain h; convolverNode h; reverbGain h ].

(** Disconnected, and not sounding. *)
Definition retired (g : list (AudioNode num)) (i : NodeId) : Prop :=
  ∃ n, g !! i = Some n ∧ outputs n = [] ∧ audible n = false.

(** *** Calls in a row *)




End Vocabulary.

(** ** The closed forms of the drum sounds *)

Section Forms.
Local Open Scope R_scope.

(** The closed forms as the specification writes them: [t] is the time
    of the sample in seconds, [noise] the random value of the sample. *)
Definition spec_kick (t : R) : R :=
  sin (2 * PI * 60 * t) * exp (- t / 0.1) * 0.5.
Definition spec_snare (noise t : R) : R :=
  (noise * 0.3 + sin (2 * PI * 200 * t) * 0.2) * exp (- t / 0.05).
Definition spec_hihat (noise t : R) : R :=
  noise * exp (- t / 0.02) * 0.3.

(** A one-channel buffer holding [data]. *)
Definition mono_of (rate : R) (data : list R) : AudioBuffer R :=
  {| numberOfChannels := 1; bufferLength := length data;
     bufferSampleRate := rate; channelData := [data] |}.

(** Every draw one half. *)
Definition even_draws (k : nat) : R := 1 / 2.

End Forms.

(** ** A 44.1 kHz device *)

Section Device.
Import Binary64 Host.

Definition rate0 : float := #44100%js.

(** The hook just mounted. *)
Definition s0 : Engine float := mounted rate0.

(** A session with a 200 Hz tone and a 4 Hz beat. *)
Definition s1 : Engine float :=
  state_of (startBinaural #200 #4 #0 #0 sine s0)%js.


End Device.

(** ** More readings of a state *)

Section MoreReadings.
Context {num : Type} `{!JSArith num} `{!JSMath num}.
Implicit Types s : Engine num.

Definition type_of (n : AudioNode num) : option OscillatorType :=
  match data n with Oscillator w _ => Some w | _ => None end.

Definition pan_of (n : AudioNode num) : option (AudioParam num) :=
  match data n with StereoPanner p => Some p | _ => None end.

(** The buffer a source plays, and whether it loops. *)
Definition buffer_of (n : AudioNode num) : option (AudioBuffer num * bool) :=
  match data n with
  | BufferSource (Some b) l => Some (b, l)
  | _ => None
  end.

(** [binauralNodes.current.leftOsc.type], and so on. *)
Definition leftType s : option OscillatorType :=
  node_at s (leftOsc (binauralNodes s)) ≫= type_of.
Definition rightType s : option OscillatorType :=
  node_at s (rightOsc (binauralNodes s)) ≫= type_of.
Definition panParam s : option (AudioParam num) :=
  node_at s (panNode (binauralNodes s)) ≫= pan_of.
Definition noiseBuffer s : option (AudioBuffer num * bool) :=
  node_at s (noiseSource (binauralNodes s)) ≫= buffer_of.



(** The calls that work on the binaural session. *)
Inductive session_call : Engine num → Engine num → Prop :=
  | call_startBinaural s baseFreq beatFreq noiseMix panValue w :
      session_call s
        (state_of (startBinaural baseFreq beatFreq noiseMix panValue w s))
  | call_stopBinaural s : session_call s (state_of (stopBinaural s))
  | call_updateBinauralFrequencies s baseFreq beatFreq :
      session_call s
        (state_of (updateBinauralFrequencies baseFreq beatFreq s))
  | call_updateNoiseMix s mix :
      session_call s (state_of (updateNoiseMix mix s))
  | call_updatePanning s panValue :
      session_call s (state_of (updatePanning panValue s))
  | call_updateWaveform s w :
      session_call s (state_of (updateWaveform w s)).

(** The calls that work on chords and drums. *)
Inductive voice_call : Engine num → Engine num → Prop :=
  | call_playChord s notes octave volume :
      voice_call s (state_of (playChord notes octave volume s))
  | call_stopChord s : voice_call s (state_of (stopChord s))
  | call_playDrumSound s drumType :
      voice_call s (state_of (playDrumSound drumType s)).

(** Every oscillator is silent, and every looping source. *)
Definition silent s : Prop :=
  ∀ i n, graph s !! i = Some n →
    live_oscillator n = false ∧ live_loop n = false.

End MoreReadings.

(** ** Where the connections lead *)

Section Routing.
Context {num : Type} `{!JSArith num} `{!JSMath num}.
Implicit Types s : Engine num.
Implicit Types g : list (AudioNode num).

(** Every connection of [g] leads to a node that exists; to node 0 only
    from node 1; and never to the convolver or the reverb gain of the
    handle [h]. *)
Definition routed g (h : BinauralNodes) : Prop :=
  ∀ i n c, g !! i = Some n → c ∈ outputs n →
    target c < length g ∧ (target c = 0 → i = 1) ∧
    Some (target c) ≠ convolverNode h ∧ Some (target c) ≠ reverbGain h.

(** The hook as mounted, however far it has come since: the context's
    destination is node 0 and the analyser node 1, as created on mount
    and still connected; the session and the voices came later. *)
Record tapped s : Prop := {
  t_wf : wf s;
  t_context : ∃ ctx, audioContext s = Some ctx ∧ destination ctx = 0;
  t_analyser : analyser s = Some 1;
  t_destination : graph s !! 0 = Some (fresh Destination);
  t_tap : graph s !! 1 = Some (node (Analyser 2048) false false [conn 0 0]);
  t_routed : routed (graph s) (binauralNodes s);
  t_handle : binauralNodes s = no_nodes ∨
             ∃ b, 2 ≤ b ∧ binauralNodes s = handle_at b;
  t_voices : Forall (λ i, 2 ≤ i) (chordOscillators s);
}.

End Routing.

(** ** What the components keep *)

Section Events.
Context {S E : Type} (dispatch : E → S → Outcome S).

(** No event of the list ends in a throw. *)
Fixpoint all_done (evs : list E) (s : S) : Prop :=
  match evs with
  | [] => True
  | ev :: evs' =>
      finished (dispatch ev s) = true ∧ all_done evs' (after (dispatch ev s))
  end.

End Events.

Section GeneratorVocabulary.
Import BinauralGenerator.
Context {num : Type} `{!JSArith num} `{!JSMath num} `{!EqDecision num}.

(** The wave shapes the component has buttons for. *)
Definition selectable (ev : Event num) : Prop :=
  match ev with
  | SetWaveform wave => wave ≠ custom
  | _ => True
  end.

(** The session's two oscillators and its noise source sound. *)
Definition sounding (s : Engine num) : Prop :=
  live_oscillator <$> node_at s (leftOsc (binauralNodes s)) = Some true ∧
  live_oscillator <$> node_at s (rightOsc (binauralNodes s)) = Some true ∧
  live_loop <$> node_at s (noiseSource (binauralNodes s)) = Some true.

(** The session is directed at what the controls show. *)
Definition in_tune (g : State num) : Prop :=
  let s := engine g in
  directed <$> leftFrequency s = Some (baseFreq g) ∧
  directed <$> rightFrequency s = Some (baseFreq g + beatFreq g)%js ∧
  directed <$> toneGainParam s
  = Some ((#1 - noiseMix g / #100) * dec 3 1)%js ∧
  directed <$> noiseGainParam s = Some (noiseMix g / #100 * dec 3 1)%js ∧
  directed <$> panParam s = Some (panValue g / #100)%js ∧
  leftType s = Some (waveform g) ∧ rightType s = Some (waveform g).

(** What the generator keeps from one event to the next. *)
Record steady (g : State num) : Prop := {
  steady_wf : wf (engine g);
  steady_chord : chordOscillators (engine g) = [];
  steady_shape : waveform g ≠ custom;
  steady_playing :
    isPlaying g = true →
    binauralNodes (engine g) ≠ no_nodes ∧ in_tune g;
  steady_stopped :
    isPlaying g = false → binauralNodes (engine g) = no_nodes;
}.

End GeneratorVocabulary.

Section ChordVocabulary.
Import ChordPlayer.
Context {num : Type} `{!JSArith num} `{!JSMath num}.

(** The chords the component has buttons for. *)
Definition pressable (ev : Event num) : Prop :=
  match ev with
  | Press chord => chord ∈ chords
  | _ => True
  end.

(** The oscillators that sound are the voices held, no more and no
    less. *)
Definition voices_sound (s : Engine num) : Prop :=
  ∀ i n, graph s !! i = Some n →
    (live_oscillator n = true ↔ i ∈ chordOscillators s).

(** What the chord player keeps from one event to the next. *)
Record held (p : State num) : Prop := {
  held_wf : wf (engine p);
  held_idle : binauralNodes (engine p) = no_nodes;
  held_live :
    Forall (λ i, ∃ n, graph (engine p) !! i = Some n
                      ∧ live_oscillator n = true)
      (chordOscillators (engine p));
  held_none : selectedChord p = None → chordOscillators (engine p) = [];
  held_some : ∀ name, selectedChord p = Some name →
    ∃ chord, chord ∈ chords ∧ Chord.name chord = name ∧
      length (chordOscillators (engine p)) = length (Chord.notes chord);
}.

End ChordVocabulary.

Section SequencerVocabulary.
Import BeatSequencer.
Context {num : Type} `{!JSArith num} `{!JSMath num}.

(** [pattern[track][step]], where there is one. *)
Definition cell (pat : list (list bool)) (track step : nat) : option bool :=
  pat !! track ≫= λ row, row !! step.

(** The drums of a step: those of the first three tracks that are
    active at it, in the order of the tracks. *)
Definition step_drums (pat : list (list bool)) (step : nat) : list string :=
  omap (λ '(track, drumType),
          if active track step then Some drumType else None)
    (zip pat drumTypes).

(** What the sequencer keeps from one event to the next. *)
Record looping (rate : num) (q : State num) : Prop := {
  looping_wf : wf (engine q);
  looping_bank : drumBuffers (engine q) = bank (mounted_ctx rate) 0;
  looping_idle : binauralNodes (engine q) = no_nodes;
  looping_chord : chordOscillators (engine q) = [];
  looping_step : currentStep q < 8;
  looping_tracks : length (pattern q) = 3;
}.

End SequencerVocabulary.

(** * Verification *)

(** Unfold the plumbing of [Eff] and reduce. *)
Ltac run :=
  cbv beta iota zeta delta
    [mbind mret Eff_bind Eff_ret get put throw when_node try_catch async].

Lemma bind_run {num A B} (m : Eff (num:=num) A) (f : A → Eff B) s :
  (m ≫= f) s
  = match m s with Normal a s' => f a s' | Throw e s' => Throw e s' end.
Proof. reflexivity. Qed.

Lemma ret_run {num A} (a : A) (s : Engine num) :
  mret (M:=Eff) a s = Normal a s.
Proof. reflexivity. Qed.

(** Step through binds and returns at the head of a run. *)
Ltac eff :=
  repeat first [rewrite bind_run | rewrite ret_run | progress cbv beta iota].

(** ** Guards *)

Section Guards.
Context {num : Type} `{!JSArith num} `{!JSMath num}.
Implicit Types s : Engine num.

Lemma startBinaural_uninitialized s baseFreq beatFreq noiseMix panValue w :
  ¬ initialized s →
  startBinaural baseFreq beatFreq noiseMix panValue w s = Normal () s.
Proof.
  unfold initialized, startBinaural. intros Hn. run.
  destruct (audioContext s), (analyser s); try reflexivity.
  exfalso. apply Hn. split; eauto.
Qed.

Lemma playChord_uninitialized s notes octave volume :
  ¬ initialized s → playChord notes octave volume s = Normal () s.
Proof.
  unfold initialized, playChord. intros Hn. run.
  destruct (audioContext s), (analyser s); try reflexivity.
  exfalso. apply Hn. split; eauto.
Qed.

Lemma playDrumSound_uninitialized s drumType :
  ¬ initialized s → playDrumSound drumType s = Normal () s.
Proof.
  unfold initialized, playDrumSound. intros Hn. run.
  destruct (audioContext s), (analyser s); try reflexivity.
  exfalso. apply Hn. split; eauto.
Qed.

Lemma updateBinauralFrequencies_idle s baseFreq beatFreq :
  binauralNodes s = no_nodes →
  updateBinauralFrequencies baseFreq beatFreq s = Normal () s.
Proof. unfold updateBinauralFrequencies. intros H. run. rewrite H. reflexivity. Qed.

Lemma updateNoiseMix_idle s mix :
  binauralNodes s = no_nodes → updateNoiseMix mix s = Normal () s.
Proof. unfold updateNoiseMix. intros H. run. rewrite H. reflexivity. Qed.

Lemma updatePanning_idle s panValue :
  binauralNodes s = no_nodes → updatePanning panValue s = Normal () s.
Proof. unfold updatePanning. intros H. run. rewrite H. reflexivity. Qed.

Lemma updateWaveform_idle s w :
  binauralNodes s = no_nodes → updateWaveform w s = Normal () s.
Proof. unfold updateWaveform. intros H. run. rewrite H. reflexivity. Qed.

End Guards.

(** ** Loops that fill an array *)

Section Loops.
Context {num : Type} `{!JSArith num} `{!JSMath num}.
Implicit Types s : Engine num.
Implicit Types (v : nat → num) (d : list num).

Lemma writes_ext v v' c : ∀ i d,
  (∀ j, i ≤ j < i + c → v j = v' j) → writes i c v d = writes i c v' d.
Proof.
  induction c as [|c IH]; intros i d Hv; [reflexivity|].
  cbn. rewrite (Hv i) by lia. apply IH. intros j Hj. apply Hv. lia.
Qed.

Lemma length_writes v c : ∀ i d, length (writes i c v d) = length d.
Proof.
  induction c as [|c IH]; intros i d; [reflexivity|].
  cbn. rewrite IH. apply length_insert.
Qed.

Lemma writes_lookup_lt v c : ∀ i d j, j < i → writes i c v d !! j = d !! j.
Proof.
  induction c as [|c IH]; intros i d j Hj; [reflexivity|].
  cbn. rewrite IH by lia. apply list_lookup_insert_ne. lia.
Qed.

Lemma writes_lookup v c : ∀ i d j,
  i ≤ j < i + c → j < length d → writes i c v d !! j = Some (v j).
Proof.
  induction c as [|c IH]; intros i d j Hj Hd; [lia|].
  cbn. destruct (decide (j = i)) as [->|Hne].
  - rewrite writes_lookup_lt by lia. apply list_lookup_insert_eq. done.
  - apply IH; [lia|]. by rewrite length_insert.
Qed.

Lemma for_loop_pure (v : nat → num) c : ∀ i d s,
  for_loop i c (λ i d, mret (<[i := v i]> d)) d s
  = Normal (writes i c v d) s.
Proof.
  induction c as [|c IH]; intros i d s; [reflexivity|].
  cbn [for_loop writes]. run. apply IH.
Qed.

Lemma for_loop_random (g : nat → num → num) c : ∀ i d s,
  for_loop i c (λ i d, r ← random; mret (<[i := g i r]> d)) d s
  = Normal (writes i c (λ j, g j (Math_random (draws s + (j - i)))) d)
           (set_draws (draws s + c) s).
Proof.
  induction c as [|c IH]; intros i d s.
  - cbn. run. destruct s; unfold set_draws; cbn. do 2 f_equal. lia.
  - cbn [for_loop writes]. run. unfold random at 1.
    etrans; [apply IH|]. destruct s; unfold set_draws; cbn. f_equal.
    + replace (i - i) with 0 by lia. rewrite Nat.add_0_r.
      apply writes_ext. intros j Hj. do 2 f_equal. lia.
    + f_equal; lia.
Qed.

Lemma createBuffer_ok channels len rate s :
  frames len ≠ 0 → channels ≠ 0 →
  createBuffer channels len rate s
  = Normal {| numberOfChannels := channels; bufferLength := frames len;
              bufferSampleRate := rate;
              channelData := replicate channels (replicate (frames len) #0%js) |}
      s.
Proof.
  intros Hf Hc. unfold createBuffer. fold (frames len).
  destruct (decide _) as [[?|?]|_]; done.
Qed.

Lemma createBuffer_refused channels len rate s :
  frames len = 0 →
  createBuffer channels len rate s = Throw NotSupportedError s.
Proof.
  intros Hf. unfold createBuffer. fold (frames len).
  destruct (decide _) as [_|Hn]; [done|]. exfalso. apply Hn. by left.
Qed.

Lemma createWhiteNoise_ok ctx s :
  noiseFrames ctx ≠ 0 →
  createWhiteNoise ctx s
  = Normal (whiteNoise ctx (draws s))
      (set_draws (draws s + 2 * noiseFrames ctx) s).
Proof.
  intros HF. unfold createWhiteNoise.
  rewrite bind_run, createBuffer_ok by (done || lia). fold (noiseFrames ctx).
  cbn [for_loop bufferLength channelData numberOfChannels bufferSampleRate].
  eff. cbn [replicate lookup list_lookup]. unfold default, Datatypes.id.
  rewrite (for_loop_random (λ _ r, (r * #2 - #1)%js)).
  eff. cbn [insert list_insert lookup list_lookup].
  unfold default, Datatypes.id.
  rewrite (for_loop_random (λ _ r, (r * #2 - #1)%js)).
  eff. cbn [insert list_insert lookup list_lookup].
  unfold whiteNoise. fold (noiseFrames ctx).
  destruct s; unfold set_draws; cbn. f_equal.
  - f_equal. f_equal; [|f_equal]; apply writes_ext; intros j Hj;
      do 3 f_equal; lia.
  - f_equal. lia.
Qed.

Lemma createWhiteNoise_refused ctx s :
  noiseFrames ctx = 0 →
  createWhiteNoise ctx s = Throw NotSupportedError s.
Proof.
  intros HF. unfold createWhiteNoise.
  by rewrite bind_run, createBuffer_refused.
Qed.

End Loops.

(** ** Running the hook on a graph with a known tail *)

(** The nodes a call creates are appended to the graph, and until the
    call returns it touches only them.  The lemmas below run one
    platform call on a graph [g ++ d], where [g] is whatever existed
    before and [d] is the tail built so far. *)

Section Run.
Context {num : Type} `{!JSArith num} `{!JSMath num}.
Implicit Types s : Engine num.
Implicit Types g d : list (AudioNode num).

Lemma lookup_app_plus {A} (l1 l2 : list A) k :
  (l1 ++ l2) !! (length l1 + k) = l2 !! k.
Proof. rewrite lookup_app_r by lia. f_equal. lia. Qed.

Lemma create_run c a h m ch g d k x :
  create x (Build_Engine c a h m ch (g ++ d) k)
  = Normal (length g + length d)
      (Build_Engine c a h m ch (g ++ (d ++ [fresh x])) k).
Proof.
  unfold create, set_graph. cbn. by rewrite length_app, app_assoc.
Qed.

Lemma on_node_run c a h m ch g d k j f n n' :
  d !! j = Some n → f n = inr n' →
  on_node (length g + j) f (Build_Engine c a h m ch (g ++ d) k)
  = Normal () (Build_Engine c a h m ch (g ++ <[j := n']> d) k).
Proof.
  intros Hn Hf. unfold on_node, set_graph. cbn.
  by rewrite lookup_app_plus, Hn, Hf, insert_app_r.
Qed.

Lemma on_node_run0 c a h m ch g d k f n n' :
  d !! 0 = Some n → f n = inr n' →
  on_node (length g) f (Build_Engine c a h m ch (g ++ d) k)
  = Normal () (Build_Engine c a h m ch (g ++ <[0 := n']> d) k).
Proof.
  intros Hn Hf. rewrite <- (Nat.add_0_r (length g)) at 1.
  by eapply on_node_run.
Qed.

Lemma on_node_throws c a h m ch g d k j f n e :
  d !! j = Some n → f n = inl e →
  on_node (length g + j) f (Build_Engine c a h m ch (g ++ d) k)
  = Throw e (Build_Engine c a h m ch (g ++ d) k).
Proof.
  intros Hn Hf. unfold on_node. cbn. by rewrite lookup_app_plus, Hn, Hf.
Qed.

Lemma connect_run c a h m ch g d k js jd inp ns ns' nd :
  d !! jd = Some nd → inp < numberOfInputs (data nd) →
  d !! js = Some ns →
  op_connect {| target := length g + jd; output := 0; input := inp |} ns
    = inr ns' →
  connect (length g + js) (length g + jd) 0 inp
    (Build_Engine c a h m ch (g ++ d) k)
  = Normal () (Build_Engine c a h m ch (g ++ <[js := ns']> d) k).
Proof.
  intros Hd Hi Hs Hc. unfold connect. rewrite bind_run. cbn [get graph].
  rewrite lookup_app_plus, Hd. rewrite decide_True by done.
  by eapply on_node_run.
Qed.

Lemma connect_old_run c a h m ch g d k js i inp ns ns' nd :
  g !! i = Some nd → inp < numberOfInputs (data nd) →
  d !! js = Some ns →
  op_connect {| target := i; output := 0; input := inp |} ns = inr ns' →
  connect (length g + js) i 0 inp (Build_Engine c a h m ch (g ++ d) k)
  = Normal () (Build_Engine c a h m ch (g ++ <[js := ns']> d) k).
Proof.
  intros Hd Hi Hs Hc. unfold connect. rewrite bind_run. cbn [get graph].
  rewrite lookup_app_l by (by eapply lookup_lt_Some).
  rewrite Hd. rewrite decide_True by done.
  by eapply on_node_run.
Qed.

Lemma op_connect_new c (n : AudioNode num) :
  output c < numberOfOutputs (data n) → c ∉ outputs n →
  op_connect c n = inr (set_outputs (outputs n ++ [c]) n).
Proof.
  intros Ho Hc. unfold op_connect.
  rewrite decide_True by done. by rewrite decide_False by done.
Qed.

Lemma op_set_type_ok w w0 (f : AudioParam num) st sp o :
  w ≠ custom →
  op_set_type w (node (Oscillator w0 f) st sp o)
  = inr (node (Oscillator w f) st sp o).
Proof. intros Hw. unfold op_set_type. cbn. by rewrite decide_False. Qed.

End Run.

Ltac not_connected :=
  cbn; rewrite ?elem_of_cons, elem_of_nil; unfold conn;
  let H := fresh in
  intros H; repeat destruct H as [H|H]; try done; inversion H; lia.

Ltac side :=
  lazymatch goal with
  | |- op_connect _ _ = inr _ =>
      apply op_connect_new; [cbn; lia | not_connected]
  | |- op_set_type _ _ = inr _ => by apply op_set_type_ok
  | |- _ < _ => cbn; lia
  | |- _ => cbn; reflexivity
  end.

Ltac tidy :=
  cbv beta iota delta
    [set_outputs set_data fresh outputs data started stopped];
  cbn [length app insert list_insert Nat.add].

(** One platform call at the head of the run. *)
Ltac step :=
  rewrite ?bind_run;
  first
    [ rewrite create_run
    | erewrite on_node_run by side
    | erewrite on_node_run0 by side
    | erewrite connect_run by side
    | erewrite connect_old_run by (eassumption || side) ];
  tidy.

(** ** The binaural session *)

Section Session.
Context {num : Type} `{!JSArith num} `{!JSMath num}.
Implicit Types s : Engine num.
Implicit Types g d : list (AudioNode num).

Lemma length_session_block b a wl wr fl fr tg ng pn nb :
  length (session_block b a wl wr fl fr tg ng pn nb) = 13.
Proof. reflexivity. Qed.

Lemma buildBinaural_ok ctx a an base beat mix pan w c h m ch g k :
  g !! a = Some an → 0 < numberOfInputs (data an) →
  w ≠ custom → noiseFrames ctx ≠ 0 →
  buildBinaural ctx a base beat mix pan w
    (Build_Engine c (Some a) h m ch g k)
  = Normal ()
      (Build_Engine c (Some a) (handle_at (length g)) m ch
         (g ++ new_session (length g) a ctx k base beat mix pan w)
         (k + 2 * noiseFrames ctx)).
Proof.
  intros Ha Hin Hw HF. unfold buildBinaural.
  unfold createChannelMerger, createOscillator, createGain,
    createStereoPanner, createDelay, createConvolver, createBufferSource,
    start.
  rewrite <- (app_nil_r g) at 1.
  do 16 step.
  rewrite bind_run, createWhiteNoise_ok by done.
  unfold set_draws;
    cbn [audioContext analyser binauralNodes drumBuffers chordOscillators
           graph draws].
  repeat step.
  unfold put, set_binauralNodes, new_session, session_block, handle_at,
    node, conn. cbn. by rewrite Nat.add_0_r.
Qed.

Lemma buildBinaural_custom ctx a base beat mix pan c h m ch g k :
  buildBinaural ctx a base beat mix pan custom
    (Build_Engine c (Some a) h m ch g k)
  = Throw InvalidStateError
      (Build_Engine c (Some a) h m ch (g ++ unborn_session) k).
Proof.
  unfold buildBinaural.
  unfold createChannelMerger, createOscillator, createGain,
    createStereoPanner, createDelay, createConvolver, createBufferSource.
  rewrite <- (app_nil_r g) at 1.
  do 12 step.
  rewrite bind_run. erewrite on_node_throws by (cbn; reflexivity).
  reflexivity.
Qed.

End Session.

Arguments session_block : simpl never.
Arguments new_session : simpl never.
Arguments unborn_session : simpl never.

(** Reduce the projections of a state that is given field by field. *)
Ltac fields :=
  cbn [audioContext analyser binauralNodes drumBuffers chordOscillators
         graph draws] in *.

(** ** Calls that only quieten the graph *)

Section Calm.
Context {num : Type} `{!JSArith num} `{!JSMath num}.
Implicit Types s : Engine num.
Implicit Types g d : list (AudioNode num).
Implicit Types n : AudioNode num.
Local Abbreviation quiet := (quiet (num:=num)) (only parsing).
Local Abbreviation calm_op := (calm_op (num:=num)) (only parsing).

Lemma calm_refl n : calm n n.
Proof. split; auto. Qed.

Lemma calm_trans n1 n2 n3 : calm n1 n2 → calm n2 n3 → calm n1 n3.
Proof.
  intros [] []. split; try congruence; auto.
  destruct calm_outputs1 as [-> | ->]; auto.
Qed.

Lemma calm_audible n n' : calm n n' → audible n' = true → audible n = true.
Proof.
  intros [] Ha. unfold audible in *.
  apply andb_true_iff in Ha as [Ha Ho]. apply andb_true_iff in Ha as [Hs Hp].
  rewrite calm_started0 in Hs. rewrite Hs. cbn.
  destruct (stopped n) eqn:E.
  - rewrite calm_stopped0 in Hp by done. done.
  - cbn. apply bool_decide_eq_true in Ho. apply bool_decide_eq_true.
    destruct calm_outputs0 as [Heq|Heq]; congruence.
Qed.

Lemma calm_live_oscillator n n' :
  calm n n' → live_oscillator n' = true → live_oscillator n = true.
Proof.
  intros Hc H. unfold live_oscillator in *.
  apply andb_true_iff in H as [H1 H2]. apply andb_true_iff. split.
  - by rewrite <- (calm_oscillator _ _ Hc).
  - by eapply calm_audible.
Qed.

Lemma calm_live_loop n n' :
  calm n n' → live_loop n' = true → live_loop n = true.
Proof.
  intros Hc H. unfold live_loop in *.
  apply andb_true_iff in H as [H1 H2]. apply andb_true_iff. split.
  - by rewrite <- (calm_loop _ _ Hc).
  - by eapply calm_audible.
Qed.

Ltac calm_op_tac :=
  let n := fresh "n" in let n' := fresh "n'" in let H := fresh "H" in
  intros n n' H; destruct n as [[] [] ? ?];
  unfold op_stop, op_disconnect, op_set_type, op_frequency, op_gain, op_pan,
    set_outputs, set_data in H; cbn in H;
  repeat case_decide; simplify_eq; split; cbn; auto.

Lemma calm_stop : calm_op op_stop.
Proof. calm_op_tac. Qed.
Lemma calm_disconnect : calm_op op_disconnect.
Proof. calm_op_tac. Qed.
Lemma calm_set_type w : calm_op (op_set_type w).
Proof. calm_op_tac. Qed.
Lemma calm_frequency f : calm_op (op_frequency f).
Proof. calm_op_tac. Qed.
Lemma calm_gain f : calm_op (op_gain f).
Proof. calm_op_tac. Qed.
Lemma calm_pan f : calm_op (op_pan f).
Proof. calm_op_tac. Qed.

Lemma calm_graph_refl g : calm_graph g g.
Proof. split; [done|]. intros i n Hn. exists n. split; [done|apply calm_refl]. Qed.

Lemma calm_graph_trans g1 g2 g3 :
  calm_graph g1 g2 → calm_graph g2 g3 → calm_graph g1 g3.
Proof.
  intros [L1 H1] [L2 H2]. split; [congruence|].
  intros i n Hn. destruct (H1 i n Hn) as (n2 & Hn2 & C1).
  destruct (H2 i n2 Hn2) as (n3 & Hn3 & C2).
  exists n3. split; [done|]. by eapply calm_trans.
Qed.

(** Going back from the later graph to the earlier one. *)
Lemma calm_graph_inv g g' i n' :
  calm_graph g g' → g' !! i = Some n' → ∃ n, g !! i = Some n ∧ calm n n'.
Proof.
  intros [L H] Hn'. assert (Hi : i < length g).
  { rewrite <- L. by eapply lookup_lt_Some. }
  destruct (lookup_lt_is_Some_2 _ _ Hi) as [n Hn].
  destruct (H i n Hn) as (n2 & Hn2 & C). exists n. split; [done|]. congruence.
Qed.

Lemma quieter_refl P s : quieter P s s.
Proof. split; auto. apply calm_graph_refl. Qed.

Lemma quieter_trans P s1 s2 s3 :
  quieter P s1 s2 → quieter P s2 s3 → quieter P s1 s3.
Proof.
  intros [] []. split; try congruence.
  - by eapply calm_graph_trans.
  - intros i Hi. rewrite q_others1, q_others0; auto.
Qed.

Lemma quiet_ret {A} P (a : A) : quiet P (mret a).
Proof. intros s. apply quieter_refl. Qed.

Lemma quiet_get {A} P (f : Engine num → A) : quiet P (get f).
Proof. intros s. apply quieter_refl. Qed.

Lemma quiet_throw {A} P e : quiet P (throw (A:=A) e).
Proof. intros s. apply quieter_refl. Qed.

Lemma quiet_bind {A B} P (m : Eff A) (f : A → Eff B) :
  quiet P m → (∀ a, quiet P (f a)) → quiet P (m ≫= f).
Proof.
  intros Hm Hf s. rewrite bind_run. specialize (Hm s).
  destruct (m s) as [a s'|e s']; cbn in *; [|done].
  eapply quieter_trans; [done|apply Hf].
Qed.

Lemma quiet_on_node (P : NodeId → Prop) i f :
  P i → calm_op f → quiet P (on_node i f).
Proof.
  intros HP Hf s. unfold on_node.
  destruct (graph s !! i) as [n|] eqn:Hn; [|apply quieter_refl].
  destruct (f n) as [e|n'] eqn:Hfn; [apply quieter_refl|].
  cbn. destruct s; cbn in *. split; cbn; auto.
  - split; [by rewrite length_insert|].
    intros j nj Hj. destruct (decide (i = j)) as [-> | Hne].
    + exists n'. rewrite list_lookup_insert_eq by (by eapply lookup_lt_Some).
      split; [done|]. apply Hf. congruence.
    + exists nj. rewrite list_lookup_insert_ne by done.
      split; [done|apply calm_refl].
  - intros j Hj. apply list_lookup_insert_ne. congruence.
Qed.

Lemma quiet_when_node P o (f : NodeId → Eff unit) :
  (∀ i, o = Some i → quiet P (f i)) → quiet P (when_node o f).
Proof. destruct o; cbn; auto using quiet_ret. Qed.

Lemma quiet_try_catch P (m : Eff unit) : quiet P m → quiet P (try_catch m).
Proof.
  intros Hm s. specialize (Hm s). unfold try_catch.
  by destruct (m s).
Qed.

Lemma quiet_forEach {A} P (l : list A) (f : A → Eff unit) :
  (∀ x, x ∈ l → quiet P (f x)) → quiet P (forEach l f).
Proof.
  induction l as [|x l IH]; intros Hf; cbn; [apply quiet_ret|].
  apply quiet_bind; [apply Hf; left|].
  intros _. apply IH. intros y Hy. apply Hf. by right.
Qed.

Lemma quiet_weaken {A} (P Q : NodeId → Prop) (m : Eff A) :
  (∀ i, P i → Q i) → quiet P m → quiet Q m.
Proof.
  intros HPQ Hm s. destruct (Hm s). split; auto.
Qed.

End Calm.

(** ** Well-formed states *)

Section WellFormed.
Context {num : Type} `{!JSArith num} `{!JSMath num}.
Implicit Types s : Engine num.
Implicit Types g d B : list (AudioNode num).
Implicit Types n : AudioNode num.

Lemma block_at_app g1 B g2 : block_at (length g1) B (g1 ++ B ++ g2).
Proof.
  intros k n Hk. rewrite lookup_app_plus. by apply lookup_app_l_Some.
Qed.

Lemma block_at_split b B g :
  0 < length B → block_at b B g →
  ∃ g1 g2, g = g1 ++ B ++ g2 ∧ length g1 = b.
Proof.
  intros HB Hb.
  assert (Hlen : b + length B ≤ length g).
  { destruct (lookup_lt_is_Some_2 B (length B - 1)) as [n Hn]; [lia|].
    apply Hb, lookup_lt_Some in Hn. lia. }
  exists (take b g), (drop (b + length B) g). split.
  - apply list_eq. intros i.
    destruct (decide (i < b)) as [Hi|Hi].
    { rewrite lookup_app_l by (rewrite length_take; lia).
      by rewrite lookup_take_lt. }
    rewrite lookup_app_r by (rewrite length_take; lia).
    rewrite length_take, Nat.min_l by lia.
    destruct (decide (i - b < length B)) as [Hj|Hj].
    { rewrite lookup_app_l by done.
      destruct (lookup_lt_is_Some_2 B (i - b)) as [n Hn]; [done|].
      rewrite Hn. apply Hb in Hn. by replace (b + (i - b)) with i in Hn by lia. }
    rewrite lookup_app_r by lia. rewrite lookup_drop. f_equal. lia.
  - rewrite length_take. lia.
Qed.

Lemma block_at_grow b B g g' : block_at b B g → block_at b B (g ++ g').
Proof. intros Hb k n Hk. apply lookup_app_l_Some. by apply Hb. Qed.

Lemma analyser_ok_calm g g' a :
  calm_graph g g' → analyser_ok g a → analyser_ok g' a.
Proof.
  intros [_ Hc] (an & Ha & Hin). destruct (Hc a an Ha) as (an' & Ha' & C).
  exists an'. split; [done|]. by rewrite (calm_inputs _ _ C).
Qed.

Lemma voices_ok_calm g g' ch :
  calm_graph g g' → voices_ok g ch → voices_ok g' ch.
Proof.
  intros [_ Hc] Hv. eapply Forall_impl; [exact Hv|]. cbn.
  intros i (n & Hn & Ho & Hs). destruct (Hc i n Hn) as (n' & Hn' & C).
  exists n'. split; [done|].
  by rewrite (calm_oscillator _ _ C), (calm_started _ _ C).
Qed.

Lemma strays_ok_calm g g' h ch :
  calm_graph g g' → strays_ok g h ch → strays_ok g' h ch.
Proof.
  intros Hc Hs i n' Hn'.
  destruct (calm_graph_inv _ _ _ _ Hc Hn') as (n & Hn & C).
  destruct (Hs i n Hn) as [H1 H2]. split; intros Hl.
  - apply H1. by eapply calm_live_oscillator.
  - apply H2. by eapply calm_live_loop.
Qed.

Lemma session_ok_others a h ch g g' :
  (∀ i, i ∉ ch → g' !! i = g !! i) →
  session_ok a h ch g → session_ok a h ch g'.
Proof.
  intros Hg [->|(b & wl & wr & fl & fr & tg & ng & pn & nb & -> & Hb & Hch)];
    [by left|right].
  exists b, wl, wr, fl, fr, tg, ng, pn, nb. split; [done|]. split; [|done].
  intros k n Hk. rewrite Hg; [by apply Hb|].
  intros Hin. rewrite Forall_forall in Hch. apply Hch in Hin.
  apply lookup_lt_Some in Hk. rewrite length_session_block in Hk. lia.
Qed.

End WellFormed.

(** ** Stopping the session *)

Section Stop.
Context {num : Type} `{!JSArith num} `{!JSMath num}.
Implicit Types s : Engine num.
Implicit Types g d B : list (AudioNode num).
Implicit Types n : AudioNode num.

Lemma stopBinaural_idle s :
  binauralNodes s = no_nodes → stopBinaural s = Normal () s.
Proof.
  intros H. unfold stopBinaural. rewrite bind_run. cbn [get].
  rewrite H. cbn. unfold put, set_binauralNodes. destruct s; cbn in *.
  by subst.
Qed.

Lemma stopBinaural_active c a m ch g1 g2 k a0 wl wr fl fr tg ng pn nb :
  stopBinaural
    (Build_Engine c a (handle_at (length g1)) m ch
       (g1 ++ session_block (length g1) a0 wl wr fl fr tg ng pn nb ++ g2) k)
  = Normal ()
      (Build_Engine c a no_nodes m ch
         (g1 ++ (silence <$> session_block (length g1) a0 wl wr fl fr
                               tg ng pn nb) ++ g2) k).
Proof.
  unfold stopBinaural. rewrite bind_run. unfold get, handle_at.
  cbn [binauralNodes leftOsc rightOsc leftGain rightGain noiseSource
         noiseGain toneGain panNode merger delayNode delayGain
         convolverNode reverbGain when_node].
  unfold stop, disconnect, session_block, node. cbn [app].
  repeat step.
  reflexivity.
Qed.

Lemma session_block_length b a wl wr fl fr tg ng pn nb :
  0 < length (session_block (num:=num) b a wl wr fl fr tg ng pn nb).
Proof. rewrite length_session_block. lia. Qed.

(** Up to its last assignment, [stopBinaural] only quietens nodes. *)
Lemma stopBinaural_quiet s :
  ∃ s1, quieter (λ _, True) s s1 ∧
    (stopBinaural s = Normal () (set_binauralNodes no_nodes s1) ∨
     ∃ e, stopBinaural s = Throw e s1).
Proof.
  unfold stopBinaural. rewrite bind_run. cbn [get].
  set (b := binauralNodes s). clearbody b.
  pose (k13 := put (set_binauralNodes no_nodes) : Eff (num:=num) ()).
  assert (H13 : ∀ s, ∃ s1, quieter (λ _, True) s s1 ∧
    (k13 s = Normal () (set_binauralNodes no_nodes s1) ∨
     ∃ e, k13 s = Throw e s1)).
  { intros s0. exists s0. split; [apply quieter_refl|by left]. }
  fold k13. revert H13. generalize k13. clear k13. intros k13 H13.
  assert (Hk : ∀ o (f : NodeId → Eff (num:=num) ()),
    (∀ i, quiet (λ _, True) (f i)) → quiet (λ _, True) (when_node o f)).
  { intros o f Hf. apply quiet_when_node. auto. }
  assert (Hkill : ∀ i, quiet (λ _ : NodeId, True)
    (stop i ;; disconnect i : Eff (num:=num) ())).
  { intros i. apply quiet_bind; [|intros _];
      apply quiet_on_node; auto using calm_stop, calm_disconnect. }
  assert (Hdis : ∀ i, quiet (λ _ : NodeId, True)
    (disconnect i : Eff (num:=num) ())).
  { intros i. apply quiet_on_node; auto using calm_disconnect. }
  assert (Hthen : ∀ (m k : Eff (num:=num) ()),
    quiet (λ _, True) m →
    (∀ s, ∃ s1, quieter (λ _, True) s s1 ∧
      (k s = Normal () (set_binauralNodes no_nodes s1) ∨
       ∃ e, k s = Throw e s1)) →
    ∀ s, ∃ s1, quieter (λ _, True) s s1 ∧
      ((m ;; k) s = Normal () (set_binauralNodes no_nodes s1) ∨
       ∃ e, (m ;; k) s = Throw e s1)).
  { intros m k Hm Hk' s0. rewrite bind_run. specialize (Hm s0).
    destruct (m s0) as [[] s1|e s1]; cbn in Hm.
    - destruct (Hk' s1) as (s2 & Hq & Hr). exists s2. split; [|done].
      by eapply quieter_trans.
    - exists s1. split; [done|]. right. by exists e. }
  revert s.
  repeat (apply Hthen; [apply Hk; auto|]).
  exact H13.
Qed.

Lemma audible_silence n : audible (silence n) = false.
Proof. unfold audible, silence. cbn. by rewrite andb_false_r. Qed.

(** From a well-formed state [stopBinaural] returns, and leaves a
    well-formed state with no session. *)
Lemma stopBinaural_wf s :
  wf s →
  ∃ s', stopBinaural s = Normal () s' ∧ wf s' ∧
    binauralNodes s' = no_nodes ∧
    audioContext s' = audioContext s ∧ analyser s' = analyser s ∧
    drumBuffers s' = drumBuffers s ∧
    chordOscillators s' = chordOscillators s ∧ draws s' = draws s ∧
    calm_graph (graph s) (graph s').
Proof.
  intros Hwf. pose proof Hwf as [Hctx (a & Ha & Han & Hses) Hv Hst].
  destruct Hses as
    [Hidle|(b & wl & wr & fl & fr & tg & ng & pn & nb & Hh & Hb & Hch)].
  { exists s. rewrite stopBinaural_idle by done.
    do 8 (split; [done|]). apply calm_graph_refl. }
  destruct (block_at_split _ _ _ (session_block_length _ _ _ _ _ _ _ _ _ _) Hb)
    as (g1 & g2 & Hg & Hlen).
  destruct (stopBinaural_quiet s) as (s1 & Hq & Hr).
  clear Hwf. destruct s as [c an h m ch g k]. fields. subst b h g an.
  rewrite stopBinaural_active in *.
  destruct Hr as [Hr|[e Hr]]; [|discriminate].
  apply (f_equal (λ r, graph (state_of r))) in Hr.
  unfold set_binauralNodes in Hr. cbn [state_of] in Hr. fields.
  eexists. split; [reflexivity|].
  assert (Hc : calm_graph
    (g1 ++ session_block (length g1) a wl wr fl fr tg ng pn nb ++ g2)
    (g1 ++ (silence <$> session_block (length g1) a wl wr fl fr tg ng pn nb)
        ++ g2)).
  { destruct Hq as [_ _ _ _ _ _ Hc _]. fields. by rewrite Hr. }
  split; [|repeat (split; [done|]); exact Hc].
  split; fields.
  - done.
  - exists a. split; [done|]. split; [by eapply analyser_ok_calm|by left].
  - by eapply voices_ok_calm.
  - intros i n' Hn'.
    destruct (calm_graph_inv _ _ _ _ Hc Hn') as (n0 & Hn0 & C).
    destruct (Hst i n0 Hn0) as [Ho Hp]. split; intros Hl.
    + destruct (Ho (calm_live_oscillator _ _ C Hl)) as [?|[Hi|Hi]];
        [by left|..];
        cbn in Hi; injection Hi as <-; rewrite lookup_app_plus in Hn';
        cbn in Hn'; injection Hn' as <-;
        unfold live_oscillator in Hl; rewrite audible_silence in Hl;
        by rewrite andb_false_r in Hl.
    + specialize (Hp (calm_live_loop _ _ C Hl)).
      cbn in Hp; injection Hp as <-; rewrite lookup_app_plus in Hn';
        cbn in Hn'; injection Hn' as <-;
        unfold live_loop in Hl; rewrite audible_silence in Hl;
        by rewrite andb_false_r in Hl.
Qed.

End Stop.

(** ** Starting a session *)

(** Go through the nodes of a block given in full. *)
Ltac each_node k H :=
  repeat (destruct k as [|k]; [cbn in H; injection H as <-|]);
  [..|cbn in H; discriminate H].

Section Start.
Context {num : Type} `{!JSArith num} `{!JSMath num}.
Implicit Types s : Engine num.
Implicit Types g d B : list (AudioNode num).
Implicit Types n : AudioNode num.

Lemma started_from_wf s1 ctx a base beat mix pan w :
  wf s1 → binauralNodes s1 = no_nodes →
  audioContext s1 = Some ctx → analyser s1 = Some a →
  wf (started_from s1 ctx a base beat mix pan w).
Proof.
  intros [Hctx (a' & Ha & Han & _) Hv Hst] Hidle Hc Hana.
  assert (a' = a) as -> by congruence.
  unfold started_from. split; fields.
  - done.
  - exists a. split; [done|]. split.
    + destruct Han as (an & Hl & Hi). exists an. split; [|done].
      by apply lookup_app_l_Some.
    + right. unfold new_session. do 9 eexists. split; [done|]. split.
      * intros k n Hk. by rewrite lookup_app_plus.
      * eapply Forall_impl; [exact Hv|]. cbn.
        intros i (n & Hn & _). left. by eapply lookup_lt_Some.
  - eapply Forall_impl; [exact Hv|]. cbn.
    intros i (n & Hn & Hon). exists n. split; [|done].
    by apply lookup_app_l_Some.
  - intros i n Hn. apply lookup_app_Some in Hn as [Hn|[Hle Hn]].
    + destruct (Hst i n Hn) as [Ho Hp]. rewrite Hidle in Ho, Hp.
      split; intros Hl.
      * destruct (Ho Hl) as [?|[?|?]]; [by left|done|done].
      * by specialize (Hp Hl).
    + remember (i - length (graph s1)) as k eqn:Hk.
      assert (i = length (graph s1) + k) as -> by lia. clear Hk Hle.
      unfold new_session, session_block in Hn.
      split; intros Hl; each_node k Hn; try discriminate Hl;
        cbn; auto.
Qed.

(** From a well-formed state, with a wave shape that can be selected,
    [startBinaural] stops what was running and returns with a new
    session in place. *)
Lemma startBinaural_run s base beat mix pan w :
  wf s → w ≠ custom →
  ∃ s1 ctx a,
    stopBinaural s = Normal () s1 ∧ wf s1 ∧ binauralNodes s1 = no_nodes ∧
    audioContext s1 = Some ctx ∧ analyser s1 = Some a ∧
    audioContext s = Some ctx ∧ analyser s = Some a ∧
    drumBuffers s1 = drumBuffers s ∧
    chordOscillators s1 = chordOscillators s ∧ draws s1 = draws s ∧
    calm_graph (graph s) (graph s1) ∧
    startBinaural base beat mix pan w s
    = Normal () (started_from s1 ctx a base beat mix pan w).
Proof.
  intros Hwf Hw.
  destruct (stopBinaural_wf s Hwf)
    as (s1 & Hstop & Hwf1 & Hidle & Hc & Ha & Hb & Hch & Hd & Hg).
  pose proof Hwf1 as [(ctx & Hctx & HF) (a & Hana & (an & Han & Hin) & _) _ _].
  exists s1, ctx, a. do 4 (split; [done|]).
  split; [done|]. split; [congruence|]. split; [congruence|].
  do 4 (split; [done|]).
  unfold startBinaural, get. eff.
  rewrite <- Hc, Hctx, <- Ha, Hana. rewrite bind_run, Hstop. cbv beta iota.
  destruct s1 as [c1 a1 h1 m1 ch1 g1 k1]. fields. subst.
  unfold started_from. fields. rewrite Hana.
  by erewrite buildBinaural_ok.
Qed.

Lemma unborn_from_wf s1 :
  wf s1 → binauralNodes s1 = no_nodes → wf (unborn_from s1).
Proof.
  intros [Hctx (a & Ha & Han & _) Hv Hst] Hidle.
  unfold unborn_from. split; fields.
  - done.
  - exists a. split; [done|]. split; [|by left].
    destruct Han as (an & Hl & Hi). exists an. split; [|done].
    by apply lookup_app_l_Some.
  - eapply Forall_impl; [exact Hv|]. cbn.
    intros i (n & Hn & Hon). exists n. split; [|done].
    by apply lookup_app_l_Some.
  - intros i n Hn. apply lookup_app_Some in Hn as [Hn|[Hle Hn]].
    + by apply Hst.
    + remember (i - length (graph s1)) as k eqn:Hk. clear Hk Hle.
      unfold unborn_session in Hn.
      split; intros Hl; each_node k Hn; discriminate Hl.
Qed.

Lemma startBinaural_custom s base beat mix pan :
  wf s →
  ∃ s1, stopBinaural s = Normal () s1 ∧ wf s1 ∧
    binauralNodes s1 = no_nodes ∧
    startBinaural base beat mix pan custom s
    = Throw InvalidStateError (unborn_from s1).
Proof.
  intros Hwf.
  destruct (stopBinaural_wf s Hwf)
    as (s1 & Hstop & Hwf1 & Hidle & Hc & Ha & Hb & Hch & Hd & Hg).
  pose proof Hwf1 as [(ctx & Hctx & HF) (a & Hana & _) _ _].
  exists s1. do 3 (split; [done|]).
  unfold startBinaural, get. eff.
  rewrite <- Hc, Hctx, <- Ha, Hana. rewrite bind_run, Hstop. cbv beta iota.
  destruct s1 as [c1 a1 h1 m1 ch1 g1 k1]. fields. subst.
  unfold unborn_from. fields. rewrite Hana.
  by rewrite buildBinaural_custom.
Qed.

End Start.

(** ** Live updates *)

Section Update.
Context {num : Type} `{!JSArith num} `{!JSMath num}.
Implicit Types s : Engine num.
Implicit Types g d B : list (AudioNode num).
Implicit Types n : AudioNode num.

(** A well-formed state with a session, field by field. *)
Lemma wf_active_form s :
  wf s → binauralNodes s ≠ no_nodes →
  ∃ ctx a g1 g2 wl wr fl fr tg ng pn nb,
    noiseFrames ctx ≠ 0 ∧
    Forall (λ i, i < length g1 ∨ length g1 + 13 ≤ i) (chordOscillators s) ∧
    s = Build_Engine (Some ctx) (Some a) (handle_at (length g1))
          (drumBuffers s) (chordOscillators s)
          (g1 ++ session_block (length g1) a wl wr fl fr tg ng pn nb ++ g2)
          (draws s).
Proof.
  intros [(ctx & Hctx & HF) (a & Ha & Han & Hses) Hv Hst] Hact.
  destruct Hses as
    [?|(b & wl & wr & fl & fr & tg & ng & pn & nb & Hh & Hb & Hch)];
    [done|].
  destruct (block_at_split _ _ _ (session_block_length _ _ _ _ _ _ _ _ _ _) Hb)
    as (g1 & g2 & Hg & Hlen).
  exists ctx, a, g1, g2, wl, wr, fl, fr, tg, ng, pn, nb. split; [done|].
  split; [by subst b|].
  destruct s. fields. by subst.
Qed.

Ltac run_update :=
  unfold get, handle_at; eff;
  cbn [audioContext binauralNodes leftOsc rightOsc noiseGain toneGain
         panNode];
  unfold session_block, node; cbn [app];
  repeat step; reflexivity.

Lemma updateBinauralFrequencies_active ctx a a0 m ch g1 g2 k
    wl wr fl fr tg ng pn nb base beat :
  updateBinauralFrequencies base beat
    (Build_Engine (Some ctx) a (handle_at (length g1)) m ch
       (g1 ++ session_block (length g1) a0 wl wr fl fr tg ng pn nb ++ g2) k)
  = Normal ()
      (Build_Engine (Some ctx) a (handle_at (length g1)) m ch
         (g1 ++ session_block (length g1) a0 wl wr
                  (setValueAtTime base (currentTime ctx) fl)
                  (setValueAtTime (base + beat)%js (currentTime ctx) fr)
                  tg ng pn nb ++ g2) k).
Proof. unfold updateBinauralFrequencies. run_update. Qed.

Lemma updateNoiseMix_active ctx a a0 m ch g1 g2 k
    wl wr fl fr tg ng pn nb mix :
  updateNoiseMix mix
    (Build_Engine (Some ctx) a (handle_at (length g1)) m ch
       (g1 ++ session_block (length g1) a0 wl wr fl fr tg ng pn nb ++ g2) k)
  = Normal ()
      (Build_Engine (Some ctx) a (handle_at (length g1)) m ch
         (g1 ++ session_block (length g1) a0 wl wr fl fr
                  (setValueAtTime ((#1 - mix) * dec 3 1)%js
                     (currentTime ctx) tg)
                  (setValueAtTime (mix * dec 3 1)%js (currentTime ctx) ng)
                  pn nb ++ g2) k).
Proof. unfold updateNoiseMix. run_update. Qed.

Lemma updatePanning_active ctx a a0 m ch g1 g2 k
    wl wr fl fr tg ng pn nb pan :
  updatePanning pan
    (Build_Engine (Some ctx) a (handle_at (length g1)) m ch
       (g1 ++ session_block (length g1) a0 wl wr fl fr tg ng pn nb ++ g2) k)
  = Normal ()
      (Build_Engine (Some ctx) a (handle_at (length g1)) m ch
         (g1 ++ session_block (length g1) a0 wl wr fl fr tg ng
                  (setValueAtTime pan (currentTime ctx) pn) nb ++ g2) k).
Proof. unfold updatePanning. run_update. Qed.

Lemma updateWaveform_active c a a0 m ch g1 g2 k
    wl wr fl fr tg ng pn nb w :
  w ≠ custom →
  updateWaveform w
    (Build_Engine c a (handle_at (length g1)) m ch
       (g1 ++ session_block (length g1) a0 wl wr fl fr tg ng pn nb ++ g2) k)
  = Normal ()
      (Build_Engine c a (handle_at (length g1)) m ch
         (g1 ++ session_block (length g1) a0 w w fl fr tg ng pn nb ++ g2) k).
Proof. intros Hw. unfold updateWaveform. run_update. Qed.

(** Selecting "custom" by name is refused, and nothing changes. *)
Lemma updateWaveform_custom c a a0 m ch g1 g2 k wl wr fl fr tg ng pn nb :
  updateWaveform custom
    (Build_Engine c a (handle_at (length g1)) m ch
       (g1 ++ session_block (length g1) a0 wl wr fl fr tg ng pn nb ++ g2) k)
  = Throw InvalidStateError
      (Build_Engine c a (handle_at (length g1)) m ch
         (g1 ++ session_block (length g1) a0 wl wr fl fr tg ng pn nb ++ g2) k).
Proof.
  unfold updateWaveform, get, handle_at; eff.
  cbn [binauralNodes leftOsc rightOsc].
  unfold session_block at 1, node; cbn [app].
  rewrite bind_run. erewrite on_node_throws by (cbn; reflexivity).
  reflexivity.
Qed.

(** The update calls only retune nodes. *)
Lemma updateBinauralFrequencies_quiet (base beat : num) :
  quiet (λ _, True) (updateBinauralFrequencies base beat).
Proof.
  unfold updateBinauralFrequencies.
  apply quiet_bind; [apply quiet_get|]. intros b.
  apply quiet_bind; [apply quiet_get|]. intros c.
  destruct (leftOsc b), (rightOsc b), c; try apply quiet_ret.
  apply quiet_bind; [|intros _];
    apply quiet_on_node; auto using calm_frequency.
Qed.

Lemma updateNoiseMix_quiet (mix : num) :
  quiet (λ _, True) (updateNoiseMix mix).
Proof.
  unfold updateNoiseMix.
  apply quiet_bind; [apply quiet_get|]. intros b.
  apply quiet_bind; [apply quiet_get|]. intros c.
  destruct (noiseGain b), (toneGain b), c; try apply quiet_ret.
  apply quiet_bind; [|intros _];
    apply quiet_on_node; auto using calm_gain.
Qed.

Lemma updatePanning_quiet (pan : num) :
  quiet (λ _, True) (updatePanning pan).
Proof.
  unfold updatePanning.
  apply quiet_bind; [apply quiet_get|]. intros b.
  apply quiet_bind; [apply quiet_get|]. intros c.
  destruct (panNode b), c; try apply quiet_ret.
  apply quiet_on_node; auto using calm_pan.
Qed.

Lemma updateWaveform_quiet w :
  quiet (λ _, True) (updateWaveform (num:=num) w).
Proof.
  unfold updateWaveform.
  apply quiet_bind; [apply quiet_get|]. intros b.
  destruct (leftOsc b), (rightOsc b); try apply quiet_ret.
  apply quiet_bind; [|intros _];
    apply quiet_on_node; auto using calm_set_type.
Qed.

(** A state that differs from a well-formed one by retuned, stopped or
    disconnected nodes, with the session's own nodes still connected,
    is well-formed. *)
Lemma wf_quieter P s s' a :
  wf s → quieter P s s' → analyser s = Some a →
  session_ok a (binauralNodes s) (chordOscillators s) (graph s') →
  wf s'.
Proof.
  intros [Hctx (a' & Ha & Han & _) Hv Hst] [Qc Qa Qh Qb Qch Qd Qg Qo]
    Ha' Hses.
  assert (a' = a) as -> by congruence.
  split.
  - by rewrite Qc.
  - exists a. rewrite Qa, Qh, Qch.
    split; [done|]. split; [by eapply analyser_ok_calm|done].
  - rewrite Qch. by eapply voices_ok_calm.
  - rewrite Qch, Qh. by eapply strays_ok_calm.
Qed.

Lemma wf_idle_quieter P s s' :
  wf s → quieter P s s' → binauralNodes s = no_nodes → wf s'.
Proof.
  intros Hwf Hq Hidle. pose proof Hwf as [_ (a & Ha & _) _ _].
  eapply wf_quieter; eauto. by left.
Qed.

Lemma session_block_ok a ch g1 g2 wl wr fl fr tg ng pn nb :
  Forall (λ i, i < length g1 ∨ length g1 + 13 ≤ i) ch →
  session_ok a (handle_at (length g1)) ch
    (g1 ++ session_block (length g1) a wl wr fl fr tg ng pn nb ++ g2).
Proof.
  intros Hch. right. do 9 eexists. split; [done|]. split; [|done].
  apply block_at_app.
Qed.

Ltac wf_update Hq lem :=
  let Hwf := fresh "Hwf" in
  intros Hwf;
  destruct (wf_analyser _ Hwf) as (a & Ha & _ & [Hidle|Hact]);
  [ by eapply wf_idle_quieter
  | destruct (wf_active_form _ Hwf) as
      (ctx & a' & g1 & g2 & wl & wr & fl & fr & tg & ng & pn & nb
       & HF & Hch & Hs);
    [ destruct Hact as (b & ? & ? & ? & ? & ? & ? & ? & ? & -> & _);
      discriminate
    | eapply wf_quieter; [exact Hwf|exact Hq|exact Ha|];
      revert Ha; rewrite Hs; fields; intros [= ->];
      rewrite lem by done; cbn [state_of]; fields;
      by apply session_block_ok ] ].

Lemma updateBinauralFrequencies_wf s base beat :
  wf s → wf (state_of (updateBinauralFrequencies base beat s)).
Proof.
  pose proof (updateBinauralFrequencies_quiet base beat s) as Hq.
  wf_update Hq updateBinauralFrequencies_active.
Qed.

Lemma updateNoiseMix_wf s mix :
  wf s → wf (state_of (updateNoiseMix mix s)).
Proof.
  pose proof (updateNoiseMix_quiet mix s) as Hq.
  wf_update Hq updateNoiseMix_active.
Qed.

Lemma updatePanning_wf s pan :
  wf s → wf (state_of (updatePanning pan s)).
Proof.
  pose proof (updatePanning_quiet pan s) as Hq.
  wf_update Hq updatePanning_active.
Qed.

Lemma updateWaveform_wf s w :
  wf s → wf (state_of (updateWaveform w s)).
Proof.
  pose proof (updateWaveform_quiet w s) as Hq.
  destruct (decide (w = custom)) as [->|Hw].
  - wf_update Hq updateWaveform_custom.
  - wf_update Hq updateWaveform_active.
Qed.

End Update.

(** ** The chord player *)

Section Chord.
Context {num : Type} `{!JSArith num} `{!JSMath num}.
Implicit Types s : Engine num.
Implicit Types g d B : list (AudioNode num).
Implicit Types n : AudioNode num.
Implicit Types (notes : list num) (octave volume : num).
Local Abbreviation release := (release (num:=num)) (only parsing).

Lemma release_returns osc s : ∃ s1, release osc s = Normal () s1.
Proof.
  unfold release, try_catch. destruct ((stop osc;; disconnect osc) s); eauto.
Qed.

Lemma release_quiet osc : quiet (λ i, i = osc) (release osc).
Proof.
  apply quiet_try_catch. apply quiet_bind; [|intros _];
    apply quiet_on_node; auto using calm_stop, calm_disconnect.
Qed.

(** A voice that was started is stopped and disconnected. *)
Lemma release_kills osc s n :
  graph s !! osc = Some n → is_oscillator n = true → started n = true →
  ∃ n', graph (state_of (release osc s)) !! osc = Some n' ∧
        stopped n' = true ∧ outputs n' = [].
Proof.
  intros Hn Ho Hs. unfold release, try_catch, stop, disconnect.
  rewrite bind_run. unfold on_node at 1. rewrite Hn.
  destruct n as [d st sp o]. cbn in Ho, Hs. subst st.
  destruct d; try discriminate Ho. cbn.
  unfold on_node. cbn.
  rewrite list_lookup_insert_eq by (by eapply lookup_lt_Some). cbn.
  rewrite list_lookup_insert_eq
    by (rewrite length_insert; by eapply lookup_lt_Some).
  eauto.
Qed.

Lemma quieter_weaken (P Q : NodeId → Prop) s s' :
  (∀ i, P i → Q i) → quieter P s s' → quieter Q s s'.
Proof.
  intros HPQ [Qc Qa Qh Qb Qch Qd Qg Qo]. split; auto.
Qed.

Lemma killed_calm g g' i : calm_graph g g' → killed g i → killed g' i.
Proof.
  intros [_ Hc] (n & Hn & Hs & Ho). destruct (Hc i n Hn) as (n' & Hn' & C).
  exists n'. split; [done|]. split; [by apply (calm_stopped _ _ C)|].
  destruct (calm_outputs _ _ C) as [->|]; done.
Qed.

Lemma release_all l : ∀ s,
  ∃ s1, forEach l release s = Normal () s1 ∧
    quieter (λ i, i ∈ l) s s1 ∧
    (∀ i n, i ∈ l → graph s !! i = Some n → is_oscillator n = true →
            started n = true → killed (graph s1) i).
Proof.
  induction l as [|x l IH]; intros s.
  { exists s. split; [done|]. split; [apply quieter_refl|].
    intros i n Hi. by apply elem_of_nil in Hi. }
  cbn [forEach]. rewrite bind_run.
  destruct (release_returns x s) as (sx & Hx). rewrite Hx.
  pose proof (release_quiet x s) as Hqx. rewrite Hx in Hqx. cbn in Hqx.
  destruct (IH sx) as (s1 & Hrun & Hq & Hk).
  exists s1. split; [done|]. split.
  - eapply quieter_trans.
    + eapply quieter_weaken; [|exact Hqx]. intros i ->. left.
    + eapply quieter_weaken; [|exact Hq]. intros i Hi. by right.
  - intros i n Hi Hn Ho Hs.
    destruct (decide (i = x)) as [->|Hne].
    + eapply killed_calm; [apply (q_graph _ _ _ Hq)|].
      pose proof (release_kills x s n Hn Ho Hs) as Hkx.
      by rewrite Hx in Hkx.
    + apply elem_of_cons in Hi as [?|Hi]; [done|].
      destruct (q_graph _ _ _ Hqx) as [_ Hc].
      destruct (Hc i n Hn) as (n' & Hn' & C).
      eapply Hk; eauto.
      * by rewrite (calm_oscillator _ _ C).
      * by rewrite (calm_started _ _ C).
Qed.

Lemma stopChord_run s :
  ∃ s1, stopChord s = Normal () (set_chordOscillators [] s1) ∧
    quieter (λ i, i ∈ chordOscillators s) s s1 ∧
    (∀ i n, i ∈ chordOscillators s → graph s !! i = Some n →
            is_oscillator n = true → started n = true →
            killed (graph s1) i).
Proof.
  unfold stopChord. rewrite bind_run. cbn [get]. rewrite bind_run.
  destruct (release_all (chordOscillators s) s) as (s1 & Hrun & Hq & Hk).
  fold release. rewrite Hrun. by exists s1.
Qed.

(** [stopChord] returns from every state whatsoever, and leaves no
    voices. *)
Lemma stopChord_total s :
  ∃ s', stopChord s = Normal () s' ∧ chordOscillators s' = [].
Proof.
  destruct (stopChord_run s) as (s1 & Hrun & _). eauto.
Qed.

(** With no voices it changes nothing. *)
Lemma stopChord_silent s :
  chordOscillators s = [] → stopChord s = Normal () s.
Proof.
  intros Hch. unfold stopChord. rewrite bind_run. cbn [get]. rewrite Hch.
  cbn. unfold put, set_chordOscillators. destruct s; cbn in *. by subst.
Qed.

Lemma audible_killed n :
  stopped n = true → audible n = false.
Proof. intros Hs. unfold audible. rewrite Hs. by rewrite andb_false_r. Qed.

Lemma stopChord_wf s :
  wf s →
  ∃ s', stopChord s = Normal () s' ∧ wf s' ∧ chordOscillators s' = [] ∧
    audioContext s' = audioContext s ∧ analyser s' = analyser s ∧
    binauralNodes s' = binauralNodes s ∧
    drumBuffers s' = drumBuffers s ∧ draws s' = draws s ∧
    calm_graph (graph s) (graph s') ∧
    Forall (killed (graph s')) (chordOscillators s).
Proof.
  intros Hwf. destruct (stopChord_run s) as (s1 & Hrun & Hq & Hk).
  pose proof Hwf as [Hctx (a & Ha & Han & Hses) Hv Hst].
  assert (Hkill : Forall (killed (graph s1)) (chordOscillators s)).
  { apply Forall_forall. intros i Hi. unfold voices_ok in Hv.
    rewrite Forall_forall in Hv. destruct (Hv i Hi) as (n & Hn & Ho & Hs).
    by eapply Hk. }
  eexists. split; [exact Hrun|].
  destruct Hq as [Qc Qa Qh Qb Qch Qd Qg Qo].
  unfold set_chordOscillators. fields.
  split; [|by repeat (split; [done|])].
  split; fields.
  - by rewrite Qc.
  - exists a. rewrite Qa, Qh. split; [done|]. split.
    + by eapply analyser_ok_calm.
    + assert (Hs' : session_ok a (binauralNodes s) (chordOscillators s)
                       (graph s1)) by (by eapply session_ok_others).
      destruct Hs' as [?|(b & wl & wr & fl & fr & tg & ng & pn & nb
                          & ? & ? & ?)]; [by left|right].
      exists b, wl, wr, fl, fr, tg, ng, pn, nb. by repeat split.
  - apply Forall_nil_2.
  - rewrite Qh. intros i n' Hn'.
    destruct (calm_graph_inv _ _ _ _ Qg Hn') as (n0 & Hn0 & C).
    destruct (Hst i n0 Hn0) as [Ho Hp]. split; intros Hl.
    + destruct (Ho (calm_live_oscillator _ _ C Hl)) as [Hin|?]; [|by right].
      rewrite Forall_forall in Hkill.
      destruct (Hkill i Hin) as (nk & Hnk & Hsk & _).
      assert (nk = n') as -> by congruence.
      unfold live_oscillator in Hl. rewrite audible_killed in Hl by done.
      by rewrite andb_false_r in Hl.
    + apply Hp. by eapply calm_live_loop.
Qed.

Lemma voices_run cg N octave notes : ∀ c a h m ch g k cgn,
  g !! cg = Some cgn → 0 < numberOfInputs (data cgn) →
  forEach notes (λ semitone,
    osc ← createOscillator;
    noteGain ← createGain;
    on_node osc (op_set_type sine);;
    on_node osc
      (op_frequency (set_value (semitoneToFrequency semitone octave)));;
    on_node noteGain (op_gain (set_value (#1 / #(Z.of_nat N))%js));;
    connect osc noteGain 0 0;;
    connect noteGain cg 0 0;;
    start osc;;
    put (λ s, set_chordOscillators (chordOscillators s ++ [osc]) s))
    (Build_Engine c a h m ch g k)
  = Normal ()
      (Build_Engine c a h m (ch ++ voice_ids (length g) notes)
         (g ++ voice_nodes cg N octave (length g) notes) k).
Proof.
  induction notes as [|semitone notes IH]; intros c a h m ch g k cgn Hcg Hin.
  { cbn. by rewrite !app_nil_r. }
  cbn [forEach voice_nodes voice_ids]. rewrite bind_run.
  unfold createOscillator, createGain, start.
  rewrite <- (app_nil_r g) at 1.
  do 8 step.
  unfold put, set_chordOscillators. fields. cbv beta iota.
  erewrite IH; [|by apply lookup_app_l_Some|done].
  rewrite length_app. cbn [length]. rewrite Nat.add_0_r.
  rewrite <- !app_assoc. reflexivity.
Qed.

Lemma voice_ids_spec i notes x :
  x ∈ voice_ids i notes ↔ ∃ j, j < length notes ∧ x = i + 2 * j.
Proof.
  revert i. induction notes as [|semitone notes IH]; intros i; cbn.
  { split; [by intros ?%elem_of_nil|]. intros (j & ? & _). lia. }
  rewrite elem_of_cons, IH. split.
  - intros [->|(j & Hj & ->)]; [exists 0|exists (S j)]; split; lia.
  - intros ([|j] & Hj & ->); [left; lia|right]. exists j. split; lia.
Qed.

Lemma length_voice_ids i notes : length (voice_ids i notes) = length notes.
Proof. revert i. induction notes; intros i; cbn; auto. Qed.

Lemma voice_nodes_even cg N octave i notes j semitone :
  notes !! j = Some semitone →
  voice_nodes cg N octave i notes !! (2 * j)
  = Some (node (Oscillator sine
                  (set_value (semitoneToFrequency semitone octave)
                     (param #440%js)))
            true false [conn (i + 2 * j + 1) 0]).
Proof.
  revert i j. induction notes as [|x notes IH]; intros i j Hj; [done|].
  destruct j as [|j]; cbn in Hj.
  - injection Hj as ->. cbn. do 4 f_equal. unfold conn. f_equal. lia.
  - replace (i + 2 * S j + 1) with (i + 2 + 2 * j + 1) by lia.
    replace (2 * S j) with (S (S (2 * j))) by lia.
    exact (IH (i + 2) j Hj).
Qed.


Lemma voice_nodes_inv cg N octave i notes k n :
  voice_nodes cg N octave i notes !! k = Some n →
  (∃ j, k = 2 * j ∧ j < length notes ∧ is_oscillator n = true
        ∧ started n = true ∧ is_loop n = false) ∨
  (is_oscillator n = false ∧ is_loop n = false).
Proof.
  revert i k. induction notes as [|x notes IH]; intros i k Hk; [done|].
  destruct k as [|[|k]]; cbn in Hk.
  - injection Hk as <-. left. exists 0. cbn. repeat split; lia.
  - injection Hk as <-. by right.
  - destruct (IH _ _ Hk) as [(j & -> & Hj & Ho)|?]; [left|by right].
    exists (S j). cbn. repeat split; try lia; apply Ho.
Qed.

Lemma playChord_run s notes octave volume :
  wf s →
  ∃ s1 a,
    stopChord s = Normal () s1 ∧ wf s1 ∧ chordOscillators s1 = [] ∧
    analyser s = Some a ∧
    audioContext s1 = audioContext s ∧ analyser s1 = analyser s ∧
    binauralNodes s1 = binauralNodes s ∧
    drumBuffers s1 = drumBuffers s ∧ draws s1 = draws s ∧
    calm_graph (graph s) (graph s1) ∧
    Forall (killed (graph s1)) (chordOscillators s) ∧
    playChord notes octave volume s
    = Normal () (chord_from s1 a notes octave volume).
Proof.
  intros Hwf.
  destruct (stopChord_wf s Hwf)
    as (s1 & Hstop & Hwf1 & Hch & Hc & Ha & Hh & Hb & Hd & Hg & Hk).
  pose proof Hwf1 as [(ctx & Hctx & HF) (a & Hana & (an & Han & Hin) & _) _ _].
  exists s1, a. do 3 (split; [done|]). split; [congruence|].
  do 7 (split; [done|]).
  unfold playChord, get. eff.
  rewrite <- Hc, Hctx, <- Ha, Hana. rewrite bind_run, Hstop. cbv beta iota.
  destruct s1 as [c1 a1 h1 m1 ch1 g1 k1]. fields. subst.
  unfold createGain. rewrite <- (app_nil_r g1) at 1.
  do 3 step.
  erewrite voices_run;
    [|by rewrite lookup_app_plus|cbn; lia].
  unfold chord_from. fields. rewrite length_app. cbn [length app].
  rewrite <- app_assoc, Nat.add_0_r. reflexivity.
Qed.

Lemma chord_from_wf s1 a notes octave volume :
  wf s1 → chordOscillators s1 = [] → analyser s1 = Some a →
  wf (chord_from s1 a notes octave volume).
Proof.
  intros [Hctx (a' & Ha & Han & Hses) Hv Hst] Hch Hana.
  assert (a' = a) as -> by congruence.
  unfold chord_from. split; fields.
  - done.
  - exists a. split; [done|]. split.
    + destruct Han as (an & Hl & Hi). exists an. split; [|done].
      by apply lookup_app_l_Some.
    + destruct Hses as
        [?|(b & wl & wr & fl & fr & tg & ng & pn & nb & Hh & Hb & _)];
        [by left|right].
      exists b, wl, wr, fl, fr, tg, ng, pn, nb. split; [done|]. split.
      * by apply block_at_grow.
      * apply Forall_forall. intros i (j & Hj & ->)%voice_ids_spec.
        right. assert (b + 12 < length (graph s1)); [|lia].
        eapply lookup_lt_Some. by apply (Hb 12).
  - apply Forall_forall. intros i (j & Hj & ->)%voice_ids_spec.
    destruct (lookup_lt_is_Some_2 notes j Hj) as [semitone Hs].
    eexists. split.
    + replace (length (graph s1) + 1 + 2 * j)
        with (length (graph s1) + S (2 * j)) by lia.
      rewrite lookup_app_plus. cbn [lookup list_lookup].
      by apply voice_nodes_even.
    + done.
  - intros i n Hn. apply lookup_app_Some in Hn as [Hn|[Hle Hn]].
    + destruct (Hst i n Hn) as [Ho Hp]. rewrite Hch in Ho.
      split; intros Hl; [|by apply Hp].
      destruct (Ho Hl) as [Hin|?]; [|by right].
      by apply elem_of_nil in Hin.
    + remember (i - length (graph s1)) as k eqn:Hk.
      assert (i = length (graph s1) + k) as -> by lia. clear Hk Hle.
      destruct k as [|k]; cbn in Hn.
      { injection Hn as <-. split; intros Hl; discriminate Hl. }
      destruct (voice_nodes_inv _ _ _ _ _ _ _ Hn)
        as [(j & -> & Hj & _ & _ & Hnl)|[Hno Hnl]].
      * split; intros Hl.
        -- left. apply voice_ids_spec. exists j. split; [done|lia].
        -- unfold live_loop in Hl. by rewrite Hnl in Hl.
      * split; intros Hl.
        -- unfold live_oscillator in Hl. by rewrite Hno in Hl.
        -- unfold live_loop in Hl. by rewrite Hnl in Hl.
Qed.

Lemma playChord_wf s notes octave volume :
  wf s → wf (state_of (playChord notes octave volume s)).
Proof.
  intros Hwf.
  destruct (playChord_run s notes octave volume Hwf)
    as (s1 & a & _ & Hwf1 & Hch & Ha & _ & Ha1 & _ & _ & _ & _ & _ & ->).
  cbn [state_of]. apply chord_from_wf; [done|done|congruence].
Qed.

Lemma stopChord_preserves_wf s : wf s → wf (state_of (stopChord s)).
Proof.
  intros Hwf. destruct (stopChord_wf s Hwf) as (s' & -> & Hwf' & _).
  done.
Qed.

End Chord.

(** ** Drum hits *)

Section Drums.
Context {num : Type} `{!JSArith num} `{!JSMath num}.
Implicit Types s : Engine num.
Implicit Types g d B : list (AudioNode num).
Implicit Types n : AudioNode num.

Lemma playDrumSound_unknown s drumType :
  drumBuffers s !! drumType = None → playDrumSound drumType s = Normal () s.
Proof.
  intros Hb. unfold playDrumSound, get. eff.
  destruct (audioContext s), (analyser s); try reflexivity.
  eff. by rewrite Hb.
Qed.

Lemma playDrumSound_run s drumType buffer :
  wf s → drumBuffers s !! drumType = Some buffer →
  ∃ a, analyser s = Some a ∧
    playDrumSound drumType s = Normal () (hit_from s a buffer).
Proof.
  intros [(ctx & Hctx & _) (a & Ha & (an & Han & Hin) & _) _ _] Hb.
  exists a. split; [done|].
  unfold playDrumSound, get. eff. rewrite Hctx, Ha. eff. rewrite Hb.
  unfold createBufferSource, createGain, start, hit_from.
  destruct s as [c1 a1 h1 m1 ch1 g1 k1]. fields.
  rewrite <- (app_nil_r g1) at 1.
  do 7 step. reflexivity.
Qed.

Lemma hit_from_wf s a buffer :
  wf s → analyser s = Some a → wf (hit_from s a buffer).
Proof.
  intros [Hctx (a' & Ha & Han & Hses) Hv Hst] Hana.
  assert (a' = a) as -> by congruence.
  unfold hit_from. split; fields.
  - done.
  - exists a. split; [done|]. split.
    + destruct Han as (an & Hl & Hi). exists an. split; [|done].
      by apply lookup_app_l_Some.
    + destruct Hses as
        [?|(b & wl & wr & fl & fr & tg & ng & pn & nb & Hh & Hb & Hch)];
        [by left|right].
      exists b, wl, wr, fl, fr, tg, ng, pn, nb. split; [done|].
      split; [by apply block_at_grow|done].
  - eapply Forall_impl; [exact Hv|]. cbn.
    intros i (n & Hn & Hon). exists n. split; [|done].
    by apply lookup_app_l_Some.
  - intros i n Hn. apply lookup_app_Some in Hn as [Hn|[Hle Hn]].
    + by apply Hst.
    + remember (i - length (graph s)) as k eqn:Hk. clear Hk Hle.
      split; intros Hl; each_node k Hn; discriminate Hl.
Qed.

Lemma playDrumSound_wf s drumType :
  wf s → wf (state_of (playDrumSound drumType s)).
Proof.
  intros Hwf. destruct (drumBuffers s !! drumType) as [buffer|] eqn:Hb.
  - destruct (playDrumSound_run s drumType buffer Hwf Hb) as (a & Ha & ->).
    by apply hit_from_wf.
  - by rewrite playDrumSound_unknown.
Qed.

End Drums.

(** ** The sample bank and the mount effect *)

Section Bank.
Context {num : Type} `{!JSArith num} `{!JSMath num}.
Implicit Types s : Engine num.
Implicit Types ctx : AudioContext num.
Local Coercion Z.of_nat : nat >-> Z.

Lemma createKick_ok ctx s :
  kickFrames ctx ≠ 0 → createKick ctx s = Normal (kick_buffer ctx) s.
Proof.
  intros HF. unfold createKick.
  rewrite bind_run, createBuffer_ok by (done || lia). fold (kickFrames ctx).
  cbn [bufferLength channelData numberOfChannels bufferSampleRate].
  rewrite bind_run. cbn [replicate lookup list_lookup].
  unfold default, Datatypes.id.
  pose proof (for_loop_pure (kick_sample ctx)) as Hloop.
  rewrite Hloop. reflexivity.
Qed.

Lemma createKick_refused ctx s :
  kickFrames ctx = 0 → createKick ctx s = Throw NotSupportedError s.
Proof.
  intros HF. unfold createKick. by rewrite bind_run, createBuffer_refused.
Qed.

Lemma createSnare_ok ctx s :
  snareFrames ctx ≠ 0 →
  createSnare ctx s
  = Normal (snare_buffer ctx (draws s))
      (set_draws (draws s + snareFrames ctx) s).
Proof.
  intros HF. unfold createSnare.
  rewrite bind_run, createBuffer_ok by (done || lia).
  fold (snareFrames ctx).
  cbn [bufferLength channelData numberOfChannels bufferSampleRate].
  rewrite bind_run. cbn [replicate lookup list_lookup].
  unfold default, Datatypes.id.
  pose proof (for_loop_random (λ i r, snare_sample ctx r i)) as Hloop.
  rewrite Hloop.
  unfold snare_buffer, mono. cbn. do 3 f_equal.
  apply writes_ext. intros j _. do 3 f_equal. lia.
Qed.

Lemma createSnare_refused ctx s :
  snareFrames ctx = 0 → createSnare ctx s = Throw NotSupportedError s.
Proof.
  intros HF. unfold createSnare. by rewrite bind_run, createBuffer_refused.
Qed.

Lemma createHihat_ok ctx s :
  hihatFrames ctx ≠ 0 →
  createHihat ctx s
  = Normal (hihat_buffer ctx (draws s))
      (set_draws (draws s + hihatFrames ctx) s).
Proof.
  intros HF. unfold createHihat.
  rewrite bind_run, createBuffer_ok by (done || lia).
  fold (hihatFrames ctx).
  cbn [bufferLength channelData numberOfChannels bufferSampleRate].
  rewrite bind_run. cbn [replicate lookup list_lookup].
  unfold default, Datatypes.id.
  pose proof (for_loop_random (λ i r, hihat_sample ctx r i)) as Hloop.
  rewrite Hloop.
  unfold hihat_buffer, mono. cbn. do 3 f_equal.
  apply writes_ext. intros j _. do 3 f_equal. lia.
Qed.

Lemma createHihat_refused ctx s :
  hihatFrames ctx = 0 → createHihat ctx s = Throw NotSupportedError s.
Proof.
  intros HF. unfold createHihat. by rewrite bind_run, createBuffer_refused.
Qed.

Lemma loadDrumSamples_ok ctx c a h ch g k :
  kickFrames ctx ≠ 0 → snareFrames ctx ≠ 0 → hihatFrames ctx ≠ 0 →
  loadDrumSamples ctx (Build_Engine c a h ∅ ch g k)
  = Normal ()
      (Build_Engine c a h (bank ctx k) ch g
         (k + snareFrames ctx + hihatFrames ctx)).
Proof.
  intros Hk Hs Hh. unfold loadDrumSamples, drumBuffers_set, put.
  rewrite bind_run, createKick_ok by done. eff.
  unfold set_drumBuffers. fields.
  rewrite createSnare_ok by done. eff. unfold set_draws. fields.
  rewrite createHihat_ok by done. eff. unfold set_draws. fields.
  reflexivity.
Qed.

(** Whatever happens in it, loading touches only the bank and the
    random draws. *)
Lemma loadDrumSamples_frame ctx c a h m ch g k :
  ∃ m' k', state_of (loadDrumSamples ctx (Build_Engine c a h m ch g k))
           = Build_Engine c a h m' ch g k'.
Proof.
  unfold loadDrumSamples, drumBuffers_set, put. rewrite bind_run.
  destruct (decide (kickFrames ctx = 0)) as [Hk|Hk].
  { rewrite createKick_refused by done. cbn. eauto. }
  rewrite createKick_ok by done. eff. unfold set_drumBuffers. fields.
  destruct (decide (snareFrames ctx = 0)) as [Hs|Hs].
  { rewrite createSnare_refused by done. cbn. eauto. }
  rewrite createSnare_ok by done. eff. unfold set_draws. fields.
  destruct (decide (hihatFrames ctx = 0)) as [Hh|Hh].
  { rewrite createHihat_refused by done. cbn. eauto. }
  rewrite createHihat_ok by done. eff. unfold set_draws. fields.
  cbn. eauto.
Qed.

Lemma mount_run rate :
  ∃ m k, mount rate unmounted
         = Normal () (Build_Engine (Some (mounted_ctx rate)) (Some 1)
                        no_nodes m [] mounted_graph k).
Proof.
  destruct (loadDrumSamples_frame (mounted_ctx rate)
              (Some (mounted_ctx rate)) (Some 1) no_nodes ∅ []
              mounted_graph 0) as (m' & k' & Hs).
  exists m', k'. revert Hs.
  cbv -[loadDrumSamples of_Z].
  by destruct (loadDrumSamples _ _) as [[] s'|e s']; intros ->.
Qed.

(** With a sample rate that gives each drum at least one frame, the
    bank is complete. *)
Lemma mount_ok rate :
  let ctx := mounted_ctx rate in
  kickFrames ctx ≠ 0 → snareFrames ctx ≠ 0 → hihatFrames ctx ≠ 0 →
  mount rate unmounted
  = Normal () (Build_Engine (Some ctx) (Some 1) no_nodes (bank ctx 0) []
                 mounted_graph (snareFrames ctx + hihatFrames ctx)).
Proof.
  intros ctx Hk Hs Hh.
  pose proof (loadDrumSamples_ok ctx (Some ctx) (Some 1) no_nodes []
                mounted_graph 0 Hk Hs Hh) as Hl.
  cbn [Nat.add] in Hl. revert Hl. subst ctx.
  generalize (bank (mounted_ctx rate) 0).
  generalize (snareFrames (mounted_ctx rate)
              + hihatFrames (mounted_ctx rate)).
  intros k m.
  cbv -[loadDrumSamples of_Z]. by intros ->.
Qed.

Lemma mounted_wf rate :
  noiseFrames (mounted_ctx rate) ≠ 0 → wf (mounted rate).
Proof.
  intros HF. unfold mounted.
  destruct (mount_run rate) as (m & k & ->). cbn [state_of].
  split; fields.
  - by exists (mounted_ctx rate).
  - exists 1. split; [done|]. split; [|by left].
    eexists. split; [reflexivity|]. cbn. lia.
  - apply Forall_nil_2.
  - intros i n Hn. destruct i as [|[|i]]; cbn in Hn; try discriminate Hn;
      injection Hn as <-; split; intros Hl; discriminate Hl.
Qed.

Lemma tick_wf now s : wf s → wf (tick now s).
Proof.
  intros [(ctx & Hctx & HF) Ha Hv Hst]. unfold tick. rewrite Hctx.
  split; try done. eexists. split; [reflexivity|]. done.
Qed.

End Bank.

(** ** Every state the hook can reach is well-formed *)

Section Reachable.
Context {num : Type} `{!JSArith num} `{!JSMath num}.
Implicit Types s : Engine num.

Lemma startBinaural_wf s baseFreq beatFreq noiseMix panValue w :
  wf s →
  wf (state_of (startBinaural baseFreq beatFreq noiseMix panValue w s)) ∧
  drumBuffers (state_of (startBinaural baseFreq beatFreq noiseMix panValue w s))
  = drumBuffers s.
Proof.
  intros Hwf. destruct (decide (w = custom)) as [->|Hw].
  - destruct (stopBinaural_wf s Hwf)
      as (s1 & Hstop & Hwf1 & Hidle & _ & _ & Hb & _).
    destruct (startBinaural_custom s baseFreq beatFreq noiseMix panValue Hwf)
      as (s1' & Hstop' & _ & _ & ->).
    assert (s1' = s1) as -> by congruence.
    cbn [state_of]. split; [by apply unborn_from_wf|done].
  - destruct (startBinaural_run s baseFreq beatFreq noiseMix panValue w Hwf Hw)
      as (s1 & ctx & a & _ & Hwf1 & Hidle & Hc & Ha & _ & _ & Hb & _ & _
          & _ & ->).
    cbn [state_of]. split; [by apply started_from_wf|done].
Qed.

Lemma step_wf s s' :
  step s s' → wf s → wf s' ∧ drumBuffers s' = drumBuffers s.
Proof.
  intros Hstep Hwf. destruct Hstep.
  - by apply startBinaural_wf.
  - destruct (stopBinaural_wf s Hwf) as (s1 & -> & Hwf1 & _ & _ & _ & Hb & _).
    done.
  - split; [by apply updateBinauralFrequencies_wf|].
    apply (q_buffers _ _ _ (updateBinauralFrequencies_quiet _ _ s)).
  - split; [by apply updateNoiseMix_wf|].
    apply (q_buffers _ _ _ (updateNoiseMix_quiet _ s)).
  - split; [by apply updatePanning_wf|].
    apply (q_buffers _ _ _ (updatePanning_quiet _ s)).
  - split; [by apply updateWaveform_wf|].
    apply (q_buffers _ _ _ (updateWaveform_quiet _ s)).
  - split; [by apply playChord_wf|].
    destruct (playChord_run s notes octave volume Hwf)
      as (s1 & a & _ & _ & _ & _ & _ & _ & _ & Hb & _ & _ & _ & ->).
    done.
  - destruct (stopChord_wf s Hwf) as (s1 & -> & Hwf1 & _ & _ & _ & _ & Hb & _).
    done.
  - split; [by apply playDrumSound_wf|].
    destruct (drumBuffers s !! drumType) as [buffer|] eqn:Hb.
    + by destruct (playDrumSound_run s drumType buffer Hwf Hb) as (a & _ & ->).
    + by rewrite playDrumSound_unknown.
  - split; [by apply tick_wf|]. unfold tick. by destruct (audioContext s).
Qed.

Lemma reachable_inv rate s :
  noiseFrames (mounted_ctx rate) ≠ 0 → reachable rate s →
  wf s ∧ drumBuffers s = drumBuffers (mounted rate).
Proof.
  intros HF Hr. induction Hr as [|s s' Hr [IHwf IHb] Hstep].
  - split; [by apply mounted_wf|done].
  - destruct (step_wf s s' Hstep IHwf) as [Hwf' Hb']. split; congruence.
Qed.

(** Every state the hook reaches on a device whose sample rate gives
    the noise buffer at least one frame is well-formed. *)
Theorem reachable_wf rate s :
  noiseFrames (mounted_ctx rate) ≠ 0 → reachable rate s → wf s.
Proof. intros HF Hr. by apply (reachable_inv rate s HF Hr). Qed.

End Reachable.

(** * The properties of the specification *)

(** ** Reading the session's parameters *)

Section Readings.
Context {num : Type} `{!JSArith num} `{!JSMath num}.
Implicit Types s : Engine num.

Lemma directed_setValueAtTime v t (p : AudioParam num) :
  directed (setValueAtTime v t p) = v.
Proof. unfold directed, setValueAtTime. cbn. by rewrite last_snoc. Qed.

(** The four readings of a state holding a session block. *)
Lemma readings_block c a a0 m ch g1 g2 k wl wr fl fr tg ng pn nb :
  let s := Build_Engine c a (handle_at (length g1)) m ch
             (g1 ++ session_block (length g1) a0 wl wr fl fr tg ng pn nb
                 ++ g2) k in
  leftFrequency s = Some fl ∧ rightFrequency s = Some fr ∧
  toneGainParam s = Some tg ∧ noiseGainParam s = Some ng.
Proof.
  cbn zeta.
  unfold leftFrequency, rightFrequency, toneGainParam, noiseGainParam,
    node_at, handle_at.
  cbn [binauralNodes leftOsc rightOsc toneGain noiseGain graph mbind
         option_bind].
  rewrite !lookup_app_plus. done.
Qed.


End Readings.

(** ** Frequencies and gains of the session *)

Section SessionValues.
Context {num : Type} `{!JSArith num} `{!JSMath num}.
Implicit Types s : Engine num.



End SessionValues.

(** ** One session at a time *)

Section SingleSession.
Context {num : Type} `{!JSArith num} `{!JSMath num}.
Implicit Types s : Engine num.
Implicit Types g B : list (AudioNode num).

Lemma retired_silence g1 B g2 i :
  length g1 ≤ i < length g1 + length B →
  retired (g1 ++ (silence <$> B) ++ g2) i.
Proof.
  intros Hi. unfold retired.
  rewrite lookup_app_r by lia.
  rewrite lookup_app_l by (rewrite length_fmap; lia).
  rewrite list_lookup_fmap.
  destruct (lookup_lt_is_Some_2 B (i - length g1)) as [n Hn]; [lia|].
  rewrite Hn. cbn. eexists. split; [reflexivity|].
  split; [done|apply audible_silence].
Qed.

Lemma stopBinaural_retires s s1 :
  wf s → stopBinaural s = Normal () s1 →
  Forall (retired (graph s1)) (handle_ids (binauralNodes s)).
Proof.
  intros Hwf Hstop.
  destruct (wf_analyser _ Hwf) as (a0 & _ & _ & [Hidle|Hact]).
  { rewrite Hidle. apply Forall_nil_2. }
  destruct (wf_active_form s Hwf)
    as (ctx & a & g1 & g2 & wl & wr & fl & fr & tg & ng & pn & nb
        & _ & _ & Hs).
  { destruct Hact as (b & ? & ? & ? & ? & ? & ? & ? & ? & -> & _).
    discriminate. }
  clear Hact. rewrite Hs in Hstop. rewrite stopBinaural_active in Hstop.
  apply (f_equal state_of) in Hstop. cbn [state_of] in Hstop. subst s1.
  rewrite Hs. fields.
  apply Forall_forall. intros i Hi. apply retired_silence.
  rewrite length_session_block.
  unfold handle_ids, handle_at in Hi. cbn in Hi.
  rewrite !elem_of_cons, elem_of_nil in Hi. lia.
Qed.

(** One [startBinaural] from a well-formed state. *)
Lemma startBinaural_single s baseFreq beatFreq noiseMix panValue w :
  wf s → w ≠ custom →
  let s' := state_of (startBinaural baseFreq beatFreq noiseMix panValue w s) in
  let b := length (graph s) in
  wf s' ∧
  binauralNodes s' = handle_at b ∧
  length (graph s') = b + 13 ∧
  chordOscillators s' = chordOscillators s ∧
  (∀ i n, graph s' !! i = Some n →
     (live_oscillator n = true ∧ i ∉ chordOscillators s'
      ↔ i = b + 1 ∨ i = b + 2) ∧
     (live_loop n = true ↔ i = b + 12)) ∧
  Forall (retired (graph s')) (handle_ids (binauralNodes s)).
Proof.
  intros Hwf Hw. cbn zeta.
  destruct (startBinaural_run s baseFreq beatFreq noiseMix panValue w Hwf Hw)
    as (s1 & ctx & a & Hstop & Hwf1 & Hidle & Hc1 & Ha1 & _ & _ & _ & Hch
        & _ & [Hlen _] & ->).
  cbn [state_of].
  pose proof (started_from_wf s1 ctx a baseFreq beatFreq noiseMix panValue w
                Hwf1 Hidle Hc1 Ha1) as Hwf'.
  pose proof (stopBinaural_retires s s1 Hwf Hstop) as Hret.
  assert (Hvalid : ∀ i, i ∈ chordOscillators s1 → i < length (graph s1)).
  { intros i Hi. pose proof (wf_voices _ Hwf1) as Hv.
    unfold voices_ok in Hv. rewrite Forall_forall in Hv.
    destruct (Hv i Hi) as (n & Hn & _). by eapply lookup_lt_Some. }
  split; [done|]. unfold started_from in *. fields. rewrite <- Hlen.
  split; [done|]. split.
  { rewrite length_app. unfold new_session.
    by rewrite length_session_block. }
  split; [done|]. split.
  - intros i n Hn. destruct (wf_strays _ Hwf' i n Hn) as [Ho Hp]. fields.
    split; split.
    + intros [Hl Hni]. destruct (Ho Hl) as [?|[Hi|Hi]]; [done|..];
        cbn in Hi; injection Hi as <-; auto.
    + intros Hi. rewrite lookup_app_Some in Hn.
      destruct Hn as [Hn|[_ Hn]].
      { apply lookup_lt_Some in Hn. lia. }
      unfold new_session, session_block in Hn.
      destruct Hi as [-> | ->].
      * replace (length (graph s1) + 1 - length (graph s1)) with 1 in Hn
          by lia.
        cbn in Hn. injection Hn as <-. split; [done|].
        intros Hin%Hvalid. lia.
      * replace (length (graph s1) + 2 - length (graph s1)) with 2 in Hn
          by lia.
        cbn in Hn. injection Hn as <-. split; [done|].
        intros Hin%Hvalid. lia.
    + intros Hl. specialize (Hp Hl). cbn in Hp. by injection Hp as <-.
    + intros ->. rewrite lookup_app_plus in Hn.
      unfold new_session, session_block in Hn. cbn in Hn.
      by injection Hn as <-.
  - eapply Forall_impl; [exact Hret|]. cbn.
    intros i (n & Hn & Hout). exists n. split; [|done].
    by apply lookup_app_l_Some.
Qed.

End SingleSession.

(** ** Starting, stopping, chords and guards *)

Section Calls.
Context {num : Type} `{!JSArith num} `{!JSMath num}.
Implicit Types s : Engine num.



(** C4.  [stopBinaural] and [stopChord] can be called again and again.
    With no session, [stopBinaural] changes nothing; from any
    well-formed state it returns, leaves the handle as it was before
    the first start, and a second call changes nothing.  [stopChord]
    returns from any state at all, whatever its voices refer to, and
    leaves no voices; with no voices it changes nothing. *)
Theorem stop_twice s :
  (binauralNodes s = no_nodes → stopBinaural s = Normal () s) ∧
  (wf s →
   ∃ s', stopBinaural s = Normal () s' ∧
         binauralNodes s' = binauralNodes (unmounted : Engine num) ∧
         stopBinaural s' = Normal () s') ∧
  (∃ s', stopChord s = Normal () s' ∧ chordOscillators s' = [] ∧
         stopChord s' = Normal () s') ∧
  (chordOscillators s = [] → stopChord s = Normal () s).
Proof.
  split; [apply stopBinaural_idle|]. split.
  - intros Hwf.
    destruct (stopBinaural_wf s Hwf) as (s' & Hstop & _ & Hidle & _).
    exists s'. split; [done|]. split; [done|]. by apply stopBinaural_idle.
  - split; [|apply stopChord_silent].
    destruct (stopChord_total s) as (s' & Hstop & Hch).
    exists s'. split; [done|]. split; [done|]. by apply stopChord_silent.
Qed.



(** C8.  With no session, each of the four update calls returns and
    changes nothing. *)
Theorem updates_without_session s :
  binauralNodes s = no_nodes →
  (∀ baseFreq beatFreq,
     updateBinauralFrequencies baseFreq beatFreq s = Normal () s) ∧
  (∀ mix, updateNoiseMix mix s = Normal () s) ∧
  (∀ panValue, updatePanning panValue s = Normal () s) ∧
  (∀ w, updateWaveform w s = Normal () s).
Proof.
  intros Hidle. repeat split; intros.
  - by apply updateBinauralFrequencies_idle.
  - by apply updateNoiseMix_idle.
  - by apply updatePanning_idle.
  - by apply updateWaveform_idle.
Qed.

(** C10.  Until both the audio context and the analyser exist,
    [startBinaural], [playChord] and [playDrumSound] return at once
    and change nothing. *)
Theorem uninitialized_calls_do_nothing s :
  audioContext s = None ∨ analyser s = None →
  (∀ baseFreq beatFreq noiseMix panValue w,
     startBinaural baseFreq beatFreq noiseMix panValue w s = Normal () s) ∧
  (∀ notes octave volume, playChord notes octave volume s = Normal () s) ∧
  (∀ drumType, playDrumSound drumType s = Normal () s).
Proof.
  intros Hnone.
  assert (Hn : ¬ initialized s).
  { intros [[c Hc] [a Ha]]. destruct Hnone; congruence. }
  repeat split; intros.
  - by apply startBinaural_uninitialized.
  - by apply playChord_uninitialized.
  - by apply playDrumSound_uninitialized.
Qed.

End Calls.

(** ** Triggering a drum *)

Section Trigger.
Context {num : Type} `{!JSArith num} `{!JSMath num}.
Implicit Types s : Engine num.

Lemma bank_lookup_other ctx k (t : string) :
  t ∉ ["kick"; "snare"; "hihat"] → bank ctx k !! t = None.
Proof.
  intros Ht. unfold bank.
  rewrite !lookup_insert_ne, lookup_empty; [done|..];
    intros <-; apply Ht; set_solver.
Qed.

Lemma bank_lookup ctx k (t : string) (buffer : AudioBuffer num) :
  (t, buffer) ∈ [ ("kick", kick_buffer ctx); ("snare", snare_buffer ctx k);
                  ("hihat", hihat_buffer ctx (k + snareFrames ctx)) ] →
  bank ctx k !! t = Some buffer.
Proof.
  rewrite !elem_of_cons, elem_of_nil. unfold bank.
  intros [[= -> ->]|[[= -> ->]|[[= -> ->]|[]]]].
  - by rewrite !lookup_insert_ne, lookup_insert_eq by done.
  - by rewrite lookup_insert_ne, lookup_insert_eq by done.
  - by rewrite lookup_insert_eq.
Qed.

(** On a device whose sample rate gives every buffer at least one
    frame, the bank the hook reaches any state with is the one built on
    mount. *)
Lemma reachable_bank rate s :
  let ctx := mounted_ctx rate in
  noiseFrames ctx ≠ 0 →
  kickFrames ctx ≠ 0 → snareFrames ctx ≠ 0 → hihatFrames ctx ≠ 0 →
  reachable rate s → drumBuffers s = bank ctx 0.
Proof.
  intros ctx HF Hk Hs Hh Hr.
  destruct (reachable_inv rate s HF Hr) as [_ ->].
  unfold mounted. by rewrite (mount_ok rate Hk Hs Hh).
Qed.

(** C9.  [playDrumSound drumType], in any state the hook reaches on a
    device whose sample rate gives every buffer at least one frame:
    for a type other than "kick", "snare" and "hihat" it returns and
    changes nothing; for one of the three it creates a buffer source
    holding the buffer synthesized for that type on mount, not
    looping, started, connected to a new gain node set to [0.5] that
    is connected to the analyser, and it leaves the bank, the session
    and the chord as they were. *)
Theorem drum_trigger rate s drumType :
  let ctx := mounted_ctx rate in
  noiseFrames ctx ≠ 0 →
  kickFrames ctx ≠ 0 → snareFrames ctx ≠ 0 → hihatFrames ctx ≠ 0 →
  reachable rate s →
  (drumType ∉ ["kick"; "snare"; "hihat"] →
   playDrumSound drumType s = Normal () s) ∧
  (∀ buffer,
     (drumType, buffer) ∈
       [ ("kick", kick_buffer ctx); ("snare", snare_buffer ctx 0);
         ("hihat", hihat_buffer ctx (snareFrames ctx)) ] →
     ∃ a s',
       analyser s = Some a ∧
       playDrumSound drumType s = Normal () s' ∧
       graph s'
       = graph s ++
         [ node (BufferSource (Some buffer) false) true false
             [conn (length (graph s) + 1) 0];
           node (Gain (set_value (dec 5 1) (param #1%js))) false false
             [conn a 0] ] ∧
       drumBuffers s' = drumBuffers s ∧
       drumBuffers s' !! drumType = Some buffer ∧
       binauralNodes s' = binauralNodes s ∧
       chordOscillators s' = chordOscillators s).
Proof.
  intros ctx HF Hk Hs Hh Hr.
  pose proof (reachable_bank rate s HF Hk Hs Hh Hr) as Hbank.
  pose proof (reachable_wf rate s HF Hr) as Hwf.
  fold ctx in Hbank. split.
  - intros Ht. apply playDrumSound_unknown. rewrite Hbank.
    by apply bank_lookup_other.
  - intros buffer Hin.
    assert (Hb : drumBuffers s !! drumType = Some buffer).
    { rewrite Hbank. by apply bank_lookup. }
    destruct (playDrumSound_run s drumType buffer Hwf Hb) as (a & Ha & Hrun).
    exists a, (hit_from s a buffer). by repeat split.
Qed.

End Trigger.

(** ** The formulas read over the real numbers *)

Section ExactForms.
Import Exact.
Variable rnd : nat → R.
Local Hint Extern 0 (JSMath R) => exact (Exact.math rnd) : typeclass_instances.
Local Open Scope R_scope.

Lemma dec_exact (m : Z) (k : nat) : dec m k = IZR m / 10 ^ k.
Proof.
  unfold dec. cbn [ndiv of_Z arith]. f_equal.
  rewrite <- (Z2Nat.id 10) at 1 by lia. rewrite <- Nat2Z.inj_pow.
  rewrite <- INR_IZR_INZ, pow_INR. f_equal.
  rewrite INR_IZR_INZ. f_equal.
Qed.

Lemma of_nat_exact (i : nat) : of_Z (Z.of_nat i) = INR i.
Proof. cbn [of_Z arith]. by rewrite INR_IZR_INZ. Qed.

(** [createBuffer] rounds a length down to a whole number of frames. *)
Lemma frames_exact x :
  0 <= x < 2 ^ 32 → INR (frames x) <= x < INR (frames x) + 1.
Proof.
  intros [H0 H1]. unfold frames. cbn [to_uint32 arith].
  unfold uint32_of_R, trunc. destruct (Rle_dec 0 x) as [_|]; [|done].
  destruct (base_Int_part x) as [Hl Hu].
  assert (Hz0 : (0 <= Int_part x)%Z).
  { apply Z.lt_succ_r, lt_IZR. rewrite succ_IZR. lra. }
  assert (Hz1 : (Int_part x < 2 ^ 32)%Z).
  { apply lt_IZR. eapply Rle_lt_trans; [exact Hl|].
    replace (IZR (2 ^ 32)) with (2 ^ 32) by (rewrite pow_IZR; f_equal). done. }
  rewrite Z.mod_small by lia.
  rewrite INR_IZR_INZ, Z2Nat.id by done. lra.
Qed.

Lemma kick_sample_exact rate i :
  rate ≠ 0 →
  kick_sample (mounted_ctx rate) i = spec_kick (INR i / rate).
Proof.
  intros Hr. unfold kick_sample, spec_kick.
  rewrite !dec_exact, of_nat_exact.
  cbn [sampleRate mounted_ctx Math_sin Math_exp Math_PI math
         nmul ndiv nneg nadd nsub of_Z arith].
  replace (60 * 2 * PI * INR i / rate) with (2 * PI * 60 * (INR i / rate))
    by (field; lra).
  replace (- INR i / (rate * (1 / 10 ^ 1))) with (- (INR i / rate) / 0.1)
    by (replace 0.1 with (1 / 10) by lra; field; lra).
  replace (5 / 10 ^ 1) with 0.5 by lra. reflexivity.
Qed.

Lemma snare_sample_exact rate r i :
  rate ≠ 0 →
  snare_sample (mounted_ctx rate) r i
  = spec_snare (r * 2 - 1) (INR i / rate).
Proof.
  intros Hr. unfold snare_sample, spec_snare.
  rewrite !dec_exact, of_nat_exact.
  cbn [sampleRate mounted_ctx Math_sin Math_exp Math_PI math
         nmul ndiv nneg nadd nsub of_Z arith].
  replace (200 * 2 * PI * INR i / rate)
    with (2 * PI * 200 * (INR i / rate)) by (field; lra).
  replace (- INR i / (rate * (5 / 10 ^ 2))) with (- (INR i / rate) / 0.05)
    by (replace 0.05 with (5 / 100) by lra; field; lra).
  replace (3 / 10 ^ 1) with 0.3 by lra.
  replace (2 / 10 ^ 1) with 0.2 by lra. reflexivity.
Qed.

Lemma hihat_sample_exact rate r i :
  rate ≠ 0 →
  hihat_sample (mounted_ctx rate) r i
  = spec_hihat (r * 2 - 1) (INR i / rate).
Proof.
  intros Hr. unfold hihat_sample, spec_hihat.
  rewrite !dec_exact, of_nat_exact.
  cbn [sampleRate mounted_ctx Math_sin Math_exp Math_PI math
         nmul ndiv nneg nadd nsub of_Z arith].
  replace (- INR i / (rate * (2 / 10 ^ 2))) with (- (INR i / rate) / 0.02)
    by (replace 0.02 with (2 / 100) by lra; field; lra).
  replace (3 / 10 ^ 1) with 0.3 by lra. reflexivity.
Qed.

Lemma mono_writes F rate v :
  mono F rate v = mono_of rate (writes 0 F v (replicate F (of_Z 0))).
Proof.
  unfold mono, mono_of. by rewrite length_writes, length_replicate.
Qed.

Lemma duration_exact rate d :
  10 <= rate < 2 ^ 32 → 0.1 <= d <= 1 →
  frames (rate * d) ≠ 0%nat ∧
  d - 1 / rate < INR (frames (rate * d)) / rate <= d.
Proof.
  intros [Hr0 Hr1] [Hd0 Hd1].
  assert (H1 : 1 <= rate * d) by nra.
  assert (H2 : rate * d < 2 ^ 32) by nra.
  destruct (frames_exact (rate * d)) as [Hl Hu]; [lra|].
  split.
  - intros Hz. rewrite Hz in Hu. cbn in Hu. lra.
  - split.
    + apply Rmult_lt_reg_r with rate; [lra|].
      replace (INR (frames (rate * d)) / rate * rate)
        with (INR (frames (rate * d))) by (field; lra).
      replace ((d - 1 / rate) * rate) with (rate * d - 1) by (field; lra).
      lra.
    + apply Rmult_le_reg_r with rate; [lra|].
      replace (INR (frames (rate * d)) / rate * rate)
        with (INR (frames (rate * d))) by (field; lra).
      lra.
Qed.

(** C5.  Mounting on a device running at [rate] samples per second
    fills the bank with exactly three one-channel buffers.  Read over
    the real numbers, with [t = i / rate] the time of sample [i]: the
    kick lasts 0.5 s (to within one sample, the length being a whole
    number of frames) and its sample [i] is [sin(2π·60·t) · e^(-t/0.1)
    · 0.5]; the snare lasts 0.2 s and its sample [i] is [(noise·0.3 +
    sin(2π·200·t)·0.2) · e^(-t/0.05)]; the hi-hat lasts 0.1 s and its
    sample [i] is [noise · e^(-t/0.02) · 0.3]; every sample of the
    snare and of the hi-hat has a random draw of its own, and its
    noise value, twice the draw minus one, lies in [-1, 1). *)
Theorem drum_bank_closed_forms (rate : R) :
  10 <= rate < 2 ^ 32 → (∀ k, 0 <= rnd k < 1) →
  let t (i : nat) := INR i / rate in
  let noise (k : nat) := rnd k * 2 - 1 in
  ∃ kick snare hihat : list R,
    drumBuffers (mounted rate)
    = <["hihat" := mono_of rate hihat]>
        (<["snare" := mono_of rate snare]>
           (<["kick" := mono_of rate kick]> ∅)) ∧
    (0.5 - 1 / rate < INR (length kick) / rate <= 0.5 ∧
     ∀ i, (i < length kick)%nat → kick !! i = Some (spec_kick (t i))) ∧
    (0.2 - 1 / rate < INR (length snare) / rate <= 0.2 ∧
     ∀ i, (i < length snare)%nat →
          snare !! i = Some (spec_snare (noise i) (t i))) ∧
    (0.1 - 1 / rate < INR (length hihat) / rate <= 0.1 ∧
     ∀ i, (i < length hihat)%nat →
          hihat !! i
          = Some (spec_hihat (noise (length snare + i)%nat) (t i))) ∧
    (∀ k, -1 <= noise k < 1).
Proof.
  intros Hrate Hrnd t noise.
  set (ctx := mounted_ctx rate).
  assert (Hr : rate ≠ 0) by lra.
  destruct (duration_exact rate 0.5 Hrate) as [Hk0 Hkd]; [lra|].
  destruct (duration_exact rate 0.2 Hrate) as [Hs0 Hsd]; [lra|].
  destruct (duration_exact rate 0.1 Hrate) as [Hh0 Hhd]; [lra|].
  assert (Ek : kickFrames ctx = frames (rate * 0.5)).
  { unfold kickFrames. rewrite dec_exact. cbn [sampleRate ctx mounted_ctx nmul arith].
    do 2 f_equal. lra. }
  assert (Es : snareFrames ctx = frames (rate * 0.2)).
  { unfold snareFrames. rewrite dec_exact. cbn [sampleRate ctx mounted_ctx nmul arith].
    do 2 f_equal. lra. }
  assert (Eh : hihatFrames ctx = frames (rate * 0.1)).
  { unfold hihatFrames. rewrite dec_exact. cbn [sampleRate ctx mounted_ctx nmul arith].
    do 2 f_equal. lra. }
  rewrite <- Ek in Hk0, Hkd. rewrite <- Es in Hs0, Hsd.
  rewrite <- Eh in Hh0, Hhd.
  eexists _, _, _. split.
  { unfold mounted. rewrite (mount_ok rate Hk0 Hs0 Hh0). cbn [state_of drumBuffers].
    unfold bank, kick_buffer, snare_buffer, hihat_buffer.
    rewrite !mono_writes. reflexivity. }
  rewrite !length_writes, !length_replicate. fold ctx.
  split; [split; [done|]|split; [split; [done|]|split; [split; [done|]|]]].
  - intros i Hi. rewrite writes_lookup by (rewrite ?length_replicate; lia).
    unfold ctx. by rewrite kick_sample_exact.
  - intros i Hi. rewrite writes_lookup by (rewrite ?length_replicate; lia).
    unfold ctx. by rewrite snare_sample_exact.
  - intros i Hi. rewrite writes_lookup by (rewrite ?length_replicate; lia).
    unfold ctx. by rewrite hihat_sample_exact.
  - intros k. unfold noise. specialize (Hrnd k). lra.
Qed.


End ExactForms.

(** ** The frequency of a semitone *)

Section Semitones.
Import Binary64 Exact.
Context (M : JSMath float) (rnd : nat → R).
Local Hint Extern 0 (JSMath R) => exact (Exact.math rnd) : typeclass_instances.

(** C7.  [semitoneToFrequency semitone octave] is [261.63 ·
    2^(semitone/12) · 2^(octave-4)].  In double precision the powers
    are the host's [Math.pow], and where that function is exact at the
    exponents 0 and 1, [semitoneToFrequency 0 4] is 261.63 and both
    [semitoneToFrequency 12 4] and [semitoneToFrequency 0 5] are 523.26,
    as doubles.  Over the real numbers the powers are the real ones and
    the three values hold as they stand. *)
Theorem semitoneToFrequency_values :
  (∀ semitone octave : Z,
     semitoneToFrequency (num:=float) #semitone%js #octave%js
     = (dec 26163 2 * Math_pow #2 (#semitone / #12)
        * Math_pow #2 (#octave - #4))%js) ∧
  (Math_pow (#2%js : float) #0%js = #1%js →
   Math_pow (#2%js : float) #1%js = #2%js →
   semitoneToFrequency (num:=float) #0%js #4%js = dec 26163 2 ∧
   semitoneToFrequency (num:=float) #12%js #4%js = dec 52326 2 ∧
   semitoneToFrequency (num:=float) #0%js #5%js = dec 52326 2) ∧
  (∀ semitone octave : Z,
     semitoneToFrequency (IZR semitone) (IZR octave)
     = (261.63 * Rpower 2 (IZR semitone / 12)
        * Rpower 2 (IZR octave - 4))%R) ∧
  (semitoneToFrequency 0%R 4%R = 261.63%R ∧
   semitoneToFrequency 12%R 4%R = 523.26%R ∧
   semitoneToFrequency 0%R 5%R = 523.26%R).
Proof.
  split; [reflexivity|]. split.
  - intros H0 H1. unfold semitoneToFrequency.
    replace (#0 / #12)%js with (#0%js : float) by (vm_compute; reflexivity).
    replace (#12 / #12)%js with (#1%js : float) by (vm_compute; reflexivity).
    replace (#4 - #4)%js with (#0%js : float) by (vm_compute; reflexivity).
    replace (#5 - #4)%js with (#1%js : float) by (vm_compute; reflexivity).
    rewrite H0, H1. repeat split; vm_compute; reflexivity.
  - assert (Hf : ∀ x y : R,
      semitoneToFrequency x y
      = (261.63 * Rpower 2 (x / 12) * Rpower 2 (y - 4))%R).
    { intros x y. unfold semitoneToFrequency. rewrite dec_exact.
      cbn [Math_pow math nmul ndiv nsub of_Z arith].
      f_equal. f_equal. lra. }
    split; [intros; apply Hf|]. rewrite !Hf.
    replace (0 / 12)%R with 0%R by lra.
    replace (12 / 12)%R with 1%R by lra.
    replace (4 - 4)%R with 0%R by lra.
    replace (5 - 4)%R with 1%R by lra.
    rewrite Rpower_O, Rpower_1 by lra. repeat split; lra.
Qed.

End Semitones.

(** ** The hook run on a 44.1 kHz device *)

Section DeviceFacts.
Import Binary64 Host.

Lemma frames_positive (x : float) (z : Z) :
  to_uint32 x = z → (0 < z)%Z → frames x ≠ 0.
Proof. intros <- Hz. unfold frames. lia. Qed.

(** At 44100 Hz: 88200 frames of noise, 22050 of kick, 8820 of snare
    and 4410 of hi-hat. *)
Lemma playable_rate0 : noiseFrames (mounted_ctx rate0) ≠ 0.
Proof.
  apply (frames_positive _ 88200); [vm_compute; reflexivity|lia].
Qed.

Lemma kick_rate0 : kickFrames (mounted_ctx rate0) ≠ 0.
Proof.
  apply (frames_positive _ 22050); [vm_compute; reflexivity|lia].
Qed.

Lemma snare_rate0 : snareFrames (mounted_ctx rate0) ≠ 0.
Proof.
  apply (frames_positive _ 8820); [vm_compute; reflexivity|lia].
Qed.

Lemma hihat_rate0 : hihatFrames (mounted_ctx rate0) ≠ 0.
Proof.
  apply (frames_positive _ 4410); [vm_compute; reflexivity|lia].
Qed.

Lemma s0_wf : wf s0.
Proof. apply mounted_wf, playable_rate0. Qed.

Lemma s1_wf : wf s1.
Proof. apply startBinaural_wf, s0_wf. Qed.

Lemma s1_active : binauralNodes s1 ≠ no_nodes.
Proof.
  destruct (startBinaural_single s0 #200 #4 #0 #0 sine s0_wf)%js
    as (_ & Hh & _); [done|].
  unfold s1. by rewrite Hh.
Qed.

End DeviceFacts.

(** ** The mix of tone and noise *)

Section NoiseMix.
Import Exact.
Context {num : Type} `{!JSArith num} `{!JSMath num}.
Implicit Types s : Engine num.


End NoiseMix.

(** ** The properties on a 44.1 kHz device *)

Section Examples.
Import Binary64 Host.
Local Open Scope js_scope.





(** Stopping a running session, twice. *)
Lemma stop_twice_example :
  wf s1 ∧
  ∃ s', stopBinaural s1 = Normal () s' ∧
        binauralNodes s' = binauralNodes (unmounted : Engine float) ∧
        stopBinaural s' = Normal () s'.
Proof.
  split; [exact s1_wf|].
  exact (proj1 (proj2 (stop_twice s1)) s1_wf).
Defined.


(** The reference [Math.pow] is exact at the exponents 0 and 1. *)
Lemma semitoneToFrequency_values_example :
  Math_pow #2 #0 = #1 ∧ Math_pow #2 #1 = #2 ∧
  semitoneToFrequency #0 #4 = dec 26163 2 ∧
  semitoneToFrequency #12 #4 = dec 52326 2 ∧
  semitoneToFrequency #0 #5 = dec 52326 2.
Proof.
  split; [vm_compute; reflexivity|]. split; [vm_compute; reflexivity|].
  apply (proj1 (proj2 (semitoneToFrequency_values Host.math even_draws)));
    vm_compute; reflexivity.
Defined.

(** The hook before it is mounted has no session. *)
Lemma updates_without_session_example :
  binauralNodes (unmounted : Engine float) = no_nodes ∧
  (∀ baseFreq beatFreq,
     updateBinauralFrequencies baseFreq beatFreq (unmounted : Engine float)
     = Normal () unmounted) ∧
  (∀ mix, updateNoiseMix mix (unmounted : Engine float)
          = Normal () unmounted) ∧
  (∀ panValue, updatePanning panValue (unmounted : Engine float)
               = Normal () unmounted) ∧
  (∀ w, updateWaveform w (unmounted : Engine float) = Normal () unmounted).
Proof.
  split; [reflexivity|].
  apply (updates_without_session (unmounted : Engine float)). reflexivity.
Defined.

(** A snare hit, and an unknown drum, while a session is running. *)
Lemma drum_trigger_example :
  noiseFrames (mounted_ctx rate0) ≠ 0 ∧
  kickFrames (mounted_ctx rate0) ≠ 0 ∧
  snareFrames (mounted_ctx rate0) ≠ 0 ∧
  hihatFrames (mounted_ctx rate0) ≠ 0 ∧
  reachable rate0 s1 ∧
  playDrumSound "cowbell" s1 = Normal () s1 ∧
  ∃ a s',
    analyser s1 = Some a ∧
    playDrumSound "snare" s1 = Normal () s' ∧
    graph s'
    = graph s1 ++
      [ node (BufferSource (Some (snare_buffer (mounted_ctx rate0) 0)) false)
          true false [conn (length (graph s1) + 1)%nat 0];
        node (Gain (set_value (dec 5 1) (param #1))) false false
          [conn a 0] ] ∧
    drumBuffers s' = drumBuffers s1.
Proof.
  assert (Hr : reachable rate0 s1).
  { apply (reachable_step rate0 s0); [apply reachable_mount|].
    unfold s1. constructor. }
  split; [exact playable_rate0|]. split; [exact kick_rate0|].
  split; [exact snare_rate0|]. split; [exact hihat_rate0|].
  split; [exact Hr|]. split.
  - apply (drum_trigger rate0 s1 "cowbell" playable_rate0 kick_rate0
             snare_rate0 hihat_rate0 Hr).
    rewrite !elem_of_cons, elem_of_nil.
    intros [H|[H|[H|[]]]]; discriminate H.
  - destruct (proj2 (drum_trigger rate0 s1 "snare" playable_rate0 kick_rate0
                       snare_rate0 hihat_rate0 Hr)
                (snare_buffer (mounted_ctx rate0) 0))
      as (a & s' & Ha & Hrun & Hg & Hb & _).
    { rewrite !elem_of_cons. right. left. reflexivity. }
    exists a, s'. split; [exact Ha|]. split; [exact Hrun|].
    split; [exact Hg|]. exact Hb.
Defined.

(** The hook before it is mounted has no audio context. *)
Lemma uninitialized_calls_do_nothing_example :
  audioContext (unmounted : Engine float) = None ∧
  (∀ baseFreq beatFreq noiseMix panValue w,
     startBinaural baseFreq beatFreq noiseMix panValue w
       (unmounted : Engine float) = Normal () unmounted) ∧
  (∀ notes octave volume,
     playChord notes octave volume (unmounted : Engine float)
     = Normal () unmounted) ∧
  (∀ drumType,
     playDrumSound drumType (unmounted : Engine float)
     = Normal () unmounted).
Proof.
  split; [reflexivity|].
  apply (uninitialized_calls_do_nothing (unmounted : Engine float)).
  left. reflexivity.
Defined.

End Examples.

(** ** The bank of a 44.1 kHz device, read exactly *)

Section ExactExample.
Import Exact.
Local Open Scope R_scope.

Local Hint Extern 0 (JSMath R) =>
  exact (Exact.math even_draws) : typeclass_instances.

(** The bank of a 44.1 kHz device, every random draw being one half. *)
Lemma drum_bank_closed_forms_example :
  10 <= 44100 < 2 ^ 32 ∧ (∀ k, 0 <= even_draws k < 1) ∧
  ∃ kick snare hihat : list R,
    drumBuffers (mounted 44100)
    = <["hihat" := mono_of 44100 hihat]>
        (<["snare" := mono_of 44100 snare]>
           (<["kick" := mono_of 44100 kick]> ∅)) ∧
    (0.5 - 1 / 44100 < INR (length kick) / 44100 <= 0.5) ∧
    (0.2 - 1 / 44100 < INR (length snare) / 44100 <= 0.2) ∧
    (0.1 - 1 / 44100 < INR (length hihat) / 44100 <= 0.1).
Proof.
  assert (Hrate : 10 <= 44100 < 2 ^ 32) by (split; lra).
  assert (Hrnd : ∀ k : nat, 0 <= even_draws k < 1)
    by (intros; unfold even_draws; lra).
  split; [exact Hrate|]. split; [exact Hrnd|].
  destruct (drum_bank_closed_forms even_draws 44100 Hrate Hrnd)
    as (kick & snare & hihat & Hb & [Hk _] & [Hs _] & [Hh _] & _).
  exists kick, snare, hihat. split; [exact Hb|]. split; [exact Hk|].
  split; [exact Hs|]. exact Hh.
Defined.

End ExactExample.

(** * Further properties of the hook *)

(** ** The session, node by node *)

Section SessionNodes.
Context {num : Type} `{!JSArith num} `{!JSMath num}.
Implicit Types s : Engine num.
Implicit Types g B : list (AudioNode num).

(** All the readings of a state holding a session block. *)
Lemma more_readings_block c a a0 m ch g1 g2 k wl wr fl fr tg ng pn nb :
  let s := Build_Engine c a (handle_at (length g1)) m ch
             (g1 ++ session_block (length g1) a0 wl wr fl fr tg ng pn nb
                 ++ g2) k in
  leftType s = Some wl ∧ rightType s = Some wr ∧ panParam s = Some pn ∧
  noiseBuffer s = Some (nb, true).
Proof.
  cbn zeta.
  unfold leftType, rightType, panParam, noiseBuffer, node_at, handle_at.
  cbn [binauralNodes leftOsc rightOsc panNode noiseSource graph mbind
         option_bind].
  rewrite !lookup_app_plus. done.
Qed.

(** The state a well-formed state with no session is stopped into is the
    state itself. *)
Lemma stopBinaural_unique s s1 s2 :
  stopBinaural s = Normal () s1 → stopBinaural s = Normal () s2 → s1 = s2.
Proof. intros H1 H2. rewrite H1 in H2. by injection H2. Qed.



(** Asked for the "custom" wave shape, [startBinaural] throws
    [InvalidStateError] at its first assignment to [type].  By then the
    session that was running has been stopped and the handle cleared,
    and twelve nodes have been created that are neither started nor
    connected; the chord is as it was. *)
Theorem startBinaural_custom_refused s baseFreq beatFreq noiseMix panValue :
  wf s →
  ∃ s',
    startBinaural baseFreq beatFreq noiseMix panValue custom s
    = Throw InvalidStateError s' ∧
    binauralNodes s' = no_nodes ∧
    Forall (retired (graph s')) (handle_ids (binauralNodes s)) ∧
    chordOscillators s' = chordOscillators s ∧
    drumBuffers s' = drumBuffers s ∧
    length (graph s') = length (graph s) + 12 ∧
    (∀ i n, length (graph s) ≤ i → graph s' !! i = Some n →
            started n = false ∧ outputs n = []).
Proof.
  intros Hwf.
  destruct (startBinaural_custom s baseFreq beatFreq noiseMix panValue Hwf)
    as (s1 & Hstop & _ & Hidle & Hrun).
  destruct (stopBinaural_wf s Hwf)
    as (s2 & Hstop2 & _ & _ & _ & _ & Hb & Hch & _ & [Hlen _]).
  pose proof (stopBinaural_unique s s1 s2 Hstop Hstop2) as <-.
  pose proof (stopBinaural_retires s s1 Hwf Hstop) as Hret.
  exists (unborn_from s1). split; [exact Hrun|]. unfold unborn_from.
  cbn [binauralNodes chordOscillators drumBuffers graph].
  split; [done|]. split.
  { eapply Forall_impl; [exact Hret|]. cbn.
    intros i (n & Hn & Hout). exists n. split; [|done].
    by apply lookup_app_l_Some. }
  split; [done|]. split; [done|]. split.
  { rewrite length_app, Hlen. reflexivity. }
  intros i n Hi Hn. rewrite lookup_app_r in Hn by lia.
  unfold unborn_session in Hn.
  remember (i - length (graph s1)) as k eqn:Hk. clear Hk.
  repeat (destruct k as [|k]; [cbn in Hn; injection Hn as <-; done|]).
  cbn in Hn. discriminate Hn.
Qed.

(** [updateWaveform] while a session runs: a shape that can be selected
    becomes the type of both oscillators, which go on sounding at the
    frequencies they had; "custom" makes the first assignment throw
    [InvalidStateError] and nothing changes. *)
Theorem updateWaveform_session s w :
  wf s → binauralNodes s ≠ no_nodes →
  (w ≠ custom →
   ∃ s', updateWaveform w s = Normal () s' ∧
     leftType s' = Some w ∧ rightType s' = Some w ∧
     leftFrequency s' = leftFrequency s ∧
     rightFrequency s' = rightFrequency s ∧
     binauralNodes s' = binauralNodes s ∧
     (live_oscillator <$> node_at s' (leftOsc (binauralNodes s'))) = Some true ∧
     (live_oscillator <$> node_at s' (rightOsc (binauralNodes s'))) = Some true) ∧
  (w = custom → updateWaveform w s = Throw InvalidStateError s).
Proof.
  intros Hwf Hact.
  destruct (wf_active_form s Hwf Hact)
    as (ctx & a & g1 & g2 & wl & wr & fl & fr & tg & ng & pn & nb
        & _ & _ & ->).
  split.
  - intros Hw. eexists. split; [by apply updateWaveform_active|].
    fields.
    destruct (more_readings_block (Some ctx) (Some a) a
                (drumBuffers s) (chordOscillators s) g1 g2 (draws s)
                w w fl fr tg ng pn nb) as (-> & -> & _).
    destruct (readings_block (Some ctx) (Some a) a
                (drumBuffers s) (chordOscillators s) g1 g2 (draws s)
                w w fl fr tg ng pn nb) as (-> & -> & _).
    destruct (readings_block (Some ctx) (Some a) a
                (drumBuffers s) (chordOscillators s) g1 g2 (draws s)
                wl wr fl fr tg ng pn nb) as (-> & -> & _).
    repeat (split; [done|]).
    unfold node_at, handle_at.
    cbn [binauralNodes leftOsc rightOsc graph mbind option_bind].
    rewrite !lookup_app_plus. done.
  - intros ->. apply updateWaveform_custom.
Qed.


End SessionNodes.

(** ** The noise of a session *)

Section Noise.
Context {num : Type} `{!JSArith num} `{!JSMath num}.
Implicit Types s : Engine num.




End Noise.

(** ** Session and voices keep out of each other's way *)

Section Frames.
Context {num : Type} `{!JSArith num} `{!JSMath num}.
Implicit Types s : Engine num.
Implicit Types g B : list (AudioNode num).

Lemma block_frame g1 B B' g2 i :
  length B' = length B →
  i < length g1 ∨ length g1 + length B ≤ i →
  (g1 ++ B' ++ g2) !! i = (g1 ++ B ++ g2) !! i.
Proof.
  intros HB [Hi|Hi].
  - by rewrite !lookup_app_l by done.
  - rewrite !lookup_app_r by lia. f_equal. lia.
Qed.

Lemma handle_ids_at b i :
  i ∉ handle_ids (handle_at b) → i < b ∨ b + 13 ≤ i.
Proof.
  unfold handle_ids, handle_at. cbn.
  rewrite !not_elem_of_cons. lia.
Qed.

Lemma handle_ids_in b i :
  i ∈ handle_ids (handle_at b) → b ≤ i < b + 13.
Proof.
  unfold handle_ids, handle_at. cbn.
  rewrite !elem_of_cons, elem_of_nil. lia.
Qed.

Lemma wf_idle_or_active s :
  wf s → binauralNodes s = no_nodes ∨ binauralNodes s ≠ no_nodes.
Proof.
  intros Hwf. destruct (wf_analyser _ Hwf) as (a & _ & _ & [Hidle|Hact]);
    [by left|right].
  destruct Hact as (b & ? & ? & ? & ? & ? & ? & ? & ? & -> & _). discriminate.
Qed.

(** The nodes of a well-formed state's session exist and are no voices
    of the chord. *)
Lemma wf_handle_ids s i :
  wf s → i ∈ handle_ids (binauralNodes s) →
  i < length (graph s) ∧ i ∉ chordOscillators s.
Proof.
  intros Hwf Hi.
  destruct (wf_idle_or_active s Hwf) as [Hidle|Hact].
  { rewrite Hidle in Hi. cbn in Hi. by apply elem_of_nil in Hi. }
  destruct (wf_active_form s Hwf Hact)
    as (ctx & a & g1 & g2 & wl & wr & fl & fr & tg & ng & pn & nb
        & _ & Hch & Hs).
  rewrite Hs in Hi |- *. fields. apply handle_ids_in in Hi. split.
  - rewrite !length_app, length_session_block. lia.
  - rewrite Forall_forall in Hch. intros Hin%Hch. lia.
Qed.

(** The voices of a well-formed state's chord exist and are no nodes of
    the session. *)
Lemma wf_voice_ids s i :
  wf s → i ∈ chordOscillators s →
  i < length (graph s) ∧ i ∉ handle_ids (binauralNodes s).
Proof.
  intros Hwf Hi. split.
  - pose proof (wf_voices _ Hwf) as Hv. unfold voices_ok in Hv.
    rewrite Forall_forall in Hv.
    destruct (Hv i Hi) as (n & Hn & _). by eapply lookup_lt_Some.
  - intros Hin. by destruct (wf_handle_ids s i Hwf Hin).
Qed.

Lemma stopBinaural_others s :
  wf s →
  ∃ s1, stopBinaural s = Normal () s1 ∧
    chordOscillators s1 = chordOscillators s ∧
    length (graph s1) = length (graph s) ∧
    ∀ i, i ∉ handle_ids (binauralNodes s) → graph s1 !! i = graph s !! i.
Proof.
  intros Hwf.
  destruct (wf_idle_or_active s Hwf) as [Hidle|Hact].
  { exists s. by rewrite stopBinaural_idle. }
  destruct (wf_active_form s Hwf Hact)
    as (ctx & a & g1 & g2 & wl & wr & fl & fr & tg & ng & pn & nb
        & _ & _ & ->).
  eexists. split; [apply stopBinaural_active|]. fields.
  split; [done|]. split.
  { by rewrite !length_app, length_fmap. }
  intros i Hi%handle_ids_at. apply block_frame.
  - apply length_fmap.
  - by rewrite length_session_block.
Qed.

(** A call on the session changes no node outside the session it
    found, and leaves the chord's list alone. *)
Lemma session_call_others s s' :
  wf s → session_call s s' →
  chordOscillators s' = chordOscillators s ∧
  ∀ i, i < length (graph s) → i ∉ handle_ids (binauralNodes s) →
       graph s' !! i = graph s !! i.
Proof.
  intros Hwf Hcall.
  destruct (stopBinaural_others s Hwf) as (s1 & Hstop & Hch1 & Hlen1 & Ho1).
  assert (Hupd : ∀ (m : Eff (num:=num) ()),
    (binauralNodes s = no_nodes → m s = Normal () s) →
    (∀ ctx a g1 g2 wl wr fl fr tg ng pn nb ch bf k,
       ∃ wl' wr' fl' fr' tg' ng' pn',
         state_of (m (Build_Engine (Some ctx) (Some a)
                      (handle_at (length g1)) bf ch
                      (g1 ++ session_block (length g1) a wl wr fl fr tg ng
                                pn nb ++ g2) k))
         = Build_Engine (Some ctx) (Some a) (handle_at (length g1)) bf ch
             (g1 ++ session_block (length g1) a wl' wr' fl' fr' tg' ng'
                      pn' nb ++ g2) k) →
    chordOscillators (state_of (m s)) = chordOscillators s ∧
    ∀ i, i < length (graph s) → i ∉ handle_ids (binauralNodes s) →
         graph (state_of (m s)) !! i = graph s !! i).
  { intros m Hidle Hact.
    destruct (wf_idle_or_active s Hwf) as [Hi|Ha].
    { by rewrite (Hidle Hi). }
    destruct (wf_active_form s Hwf Ha)
      as (ctx & a & g1 & g2 & wl & wr & fl & fr & tg & ng & pn & nb
          & _ & _ & Hs).
    rewrite Hs.
    destruct (Hact ctx a g1 g2 wl wr fl fr tg ng pn nb (chordOscillators s)
                (drumBuffers s) (draws s))
      as (wl' & wr' & fl' & fr' & tg' & ng' & pn' & ->).
    fields. split; [done|]. intros i _ Hi%handle_ids_at.
    apply block_frame; by rewrite !length_session_block. }
  destruct Hcall as [s baseFreq beatFreq noiseMix panValue w|s|s base beat
                     |s mix|s pan|s w].
  - destruct (decide (w = custom)) as [->|Hw].
    + destruct (startBinaural_custom s baseFreq beatFreq noiseMix panValue
                  Hwf) as (s2 & Hstop2 & _ & _ & ->).
      pose proof (stopBinaural_unique s s1 s2 Hstop Hstop2) as <-.
      unfold unborn_from. cbn [state_of chordOscillators graph].
      split; [done|]. intros i Hi Hni.
      rewrite lookup_app_l by lia. by apply Ho1.
    + destruct (startBinaural_run s baseFreq beatFreq noiseMix panValue w
                  Hwf Hw)
        as (s2 & ctx & a & Hstop2 & _ & _ & _ & _ & _ & _ & _ & _ & _ & _
            & ->).
      pose proof (stopBinaural_unique s s1 s2 Hstop Hstop2) as <-.
      unfold started_from. cbn [state_of chordOscillators graph].
      split; [done|]. intros i Hi Hni.
      rewrite lookup_app_l by lia. by apply Ho1.
  - rewrite Hstop. cbn [state_of]. split; [done|]. intros i _ Hi.
    by apply Ho1.
  - apply Hupd; [apply updateBinauralFrequencies_idle|]. intros.
    rewrite updateBinauralFrequencies_active. cbn [state_of].
    by eexists _, _, _, _, _, _, _.
  - apply Hupd; [apply updateNoiseMix_idle|]. intros.
    rewrite updateNoiseMix_active. cbn [state_of].
    by eexists _, _, _, _, _, _, _.
  - apply Hupd; [apply updatePanning_idle|]. intros.
    rewrite updatePanning_active. cbn [state_of].
    by eexists _, _, _, _, _, _, _.
  - apply Hupd; [apply updateWaveform_idle|]. intros.
    destruct (decide (w = custom)) as [->|Hw].
    + rewrite updateWaveform_custom. cbn [state_of].
      by eexists _, _, _, _, _, _, _.
    + rewrite updateWaveform_active by done. cbn [state_of].
      by eexists _, _, _, _, _, _, _.
Qed.

(** A call on the chord or the drums changes no node other than the
    voices it found, and leaves the session's handle alone. *)
Lemma voice_call_others s s' :
  wf s → voice_call s s' →
  binauralNodes s' = binauralNodes s ∧
  ∀ i, i < length (graph s) → i ∉ chordOscillators s →
       graph s' !! i = graph s !! i.
Proof.
  intros Hwf Hcall.
  destruct (stopChord_run s) as (s1 & Hstop & Hq & _).
  destruct Hq as [Qc Qa Qh Qb Qch Qd Qg Qo].
  destruct Hcall as [s notes octave volume|s|s drumType].
  - destruct (playChord_run s notes octave volume Hwf)
      as (s2 & a & Hstop2 & _ & _ & _ & _ & _ & _ & _ & _ & _ & _ & ->).
    rewrite Hstop in Hstop2. injection Hstop2 as <-.
    unfold chord_from. cbn [state_of binauralNodes graph set_chordOscillators].
    split; [done|]. intros i Hi Hni. destruct Qg as [Hlen _].
    rewrite lookup_app_l by lia. by apply Qo.
  - rewrite Hstop. cbn [state_of binauralNodes graph set_chordOscillators].
    split; [done|]. intros i _ Hni. by apply Qo.
  - destruct (drumBuffers s !! drumType) as [buffer|] eqn:Hb.
    + destruct (playDrumSound_run s drumType buffer Hwf Hb) as (a & _ & ->).
      unfold hit_from. cbn [state_of binauralNodes graph].
      split; [done|]. intros i Hi _. by rewrite lookup_app_l by lia.
    + by rewrite playDrumSound_unknown.
Qed.

(** Starting, stopping or retuning the session leaves the chord as it
    is: the same voices are held, and each of them is the node it was,
    so a voice that sounded goes on sounding. *)
Theorem session_spares_chord s s' :
  wf s → session_call s s' →
  chordOscillators s' = chordOscillators s ∧
  ∀ i, i ∈ chordOscillators s →
       is_Some (graph s !! i) ∧ graph s' !! i = graph s !! i.
Proof.
  intros Hwf Hcall.
  destruct (session_call_others s s' Hwf Hcall) as [Hch Ho].
  split; [done|]. intros i Hi.
  destruct (wf_voice_ids s i Hwf Hi) as [Hlt Hni].
  split; [by apply lookup_lt_is_Some_2|by apply Ho].
Qed.

(** Playing or releasing a chord, or triggering a drum, leaves the
    session as it is: the handle is the same, and each of its thirteen
    nodes is the node it was. *)
Theorem voices_spare_session s s' :
  wf s → voice_call s s' →
  binauralNodes s' = binauralNodes s ∧
  ∀ i, i ∈ handle_ids (binauralNodes s) →
       is_Some (graph s !! i) ∧ graph s' !! i = graph s !! i.
Proof.
  intros Hwf Hcall.
  destruct (voice_call_others s s' Hwf Hcall) as [Hh Ho].
  split; [done|]. intros i Hi.
  destruct (wf_handle_ids s i Hwf Hi) as [Hlt Hni].
  split; [by apply lookup_lt_is_Some_2|by apply Ho].
Qed.

End Frames.

(** ** What sounds, in every state the hook reaches *)

Section Sounding.
Context {num : Type} `{!JSArith num} `{!JSMath num}.
Implicit Types s : Engine num.

Lemma wf_sounding s :
  wf s →
  ∀ i n, graph s !! i = Some n →
    (live_oscillator n = true ∧ i ∉ chordOscillators s
     ↔ leftOsc (binauralNodes s) = Some i
       ∨ rightOsc (binauralNodes s) = Some i) ∧
    (live_loop n = true ↔ noiseSource (binauralNodes s) = Some i).
Proof.
  intros Hwf i n Hn. destruct (wf_strays _ Hwf i n Hn) as [Ho Hl].
  destruct (wf_idle_or_active s Hwf) as [Hidle|Hact].
  { rewrite Hidle in *. cbn in *. split; split.
    - intros [Hlive Hni]. destruct (Ho Hlive) as [?|[?|?]]; done.
    - intros [?|?]; done.
    - done.
    - done. }
  destruct (wf_active_form s Hwf Hact)
    as (ctx & a & g1 & g2 & wl & wr & fl & fr & tg & ng & pn & nb
        & _ & Hch & Hs).
  rewrite Hs in Hn, Ho, Hl |- *. fields.
  rewrite Forall_forall in Hch. split; split.
  - intros [Hlive Hni]. destruct (Ho Hlive) as [?|?]; done.
  - intros [Hi|Hi]; cbn in Hi; injection Hi as <-;
      rewrite lookup_app_plus in Hn; cbn in Hn; injection Hn as <-;
      (split; [done|]); intros Hin%Hch; lia.
  - done.
  - intros Hi. cbn in Hi. injection Hi as <-.
    rewrite lookup_app_plus in Hn. cbn in Hn. by injection Hn as <-.
Qed.

(** In every state the hook reaches, whatever was called and in
    whatever order, the oscillators that sound are the voices held by
    the chord and the two oscillators of the handle, and nothing else;
    the only looping source that sounds is the handle's noise source.
    With no session, then, no oscillator sounds but chord voices. *)
Theorem one_session_always rate s :
  noiseFrames (mounted_ctx rate) ≠ 0 → reachable rate s →
  ∀ i n, graph s !! i = Some n →
    (live_oscillator n = true ∧ i ∉ chordOscillators s
     ↔ leftOsc (binauralNodes s) = Some i
       ∨ rightOsc (binauralNodes s) = Some i) ∧
    (live_loop n = true ↔ noiseSource (binauralNodes s) = Some i).
Proof.
  intros HF Hr. apply wf_sounding. by apply (reachable_inv rate s HF Hr).
Qed.

Lemma wf_silent s :
  wf s → binauralNodes s = no_nodes → chordOscillators s = [] → silent s.
Proof.
  intros Hwf Hidle Hch i n Hn.
  destruct (wf_strays _ Hwf i n Hn) as [Ho Hl].
  rewrite Hidle in Ho, Hl. rewrite Hch in Ho. cbn in Ho, Hl. split.
  - destruct (live_oscillator n); [|done].
    destruct Ho as [Hin|[?|?]]; [done| |done..]. by apply elem_of_nil in Hin.
  - destruct (live_loop n); [|done]. by specialize (Hl eq_refl).
Qed.

(** Stop means silence.  From any state the hook reaches, once
    [stopBinaural] and [stopChord] have both been called, in either
    order, there is no session, no voice is held, and no oscillator and
    no looping source sounds any more. *)
Theorem stops_silence rate s s' :
  noiseFrames (mounted_ctx rate) ≠ 0 → reachable rate s →
  s' = state_of (stopChord (state_of (stopBinaural s))) ∨
  s' = state_of (stopBinaural (state_of (stopChord s))) →
  binauralNodes s' = no_nodes ∧ chordOscillators s' = [] ∧ silent s'.
Proof.
  intros HF Hr Hs'.
  pose proof (proj1 (reachable_inv rate s HF Hr)) as Hwf.
  assert (wf s' ∧ binauralNodes s' = no_nodes ∧ chordOscillators s' = [])
    as (Hwf' & Hidle & Hch).
  { destruct Hs' as [-> | ->].
    - destruct (stopBinaural_wf s Hwf) as (s1 & -> & Hwf1 & Hidle1 & _).
      cbn [state_of].
      destruct (stopChord_wf s1 Hwf1)
        as (s2 & -> & Hwf2 & Hch2 & _ & _ & Hh2 & _).
      cbn [state_of]. split; [done|]. split; [congruence|done].
    - destruct (stopChord_wf s Hwf) as (s1 & -> & Hwf1 & Hch1 & _).
      cbn [state_of].
      destruct (stopBinaural_wf s1 Hwf1)
        as (s2 & -> & Hwf2 & Hidle2 & _ & _ & _ & Hch2 & _).
      cbn [state_of]. split; [done|]. split; [done|congruence]. }
  split; [done|]. split; [done|]. by apply wf_silent.
Qed.

End Sounding.

(** ** Updates in a row *)

Section UpdatesInARow.
Context {num : Type} `{!JSArith num} `{!JSMath num}.
Implicit Types s : Engine num.




End UpdatesInARow.

(** ** Amplitudes and pitches, read over the real numbers *)

Section ExactBounds.
Import Exact.
Variable rnd : nat → R.
Local Hint Extern 0 (JSMath R) => exact (Exact.math rnd) : typeclass_instances.
Local Open Scope R_scope.









(** Read in exact arithmetic: twelve semitones up double the frequency,
    and so does one octave up; the frequency is positive, and grows
    with the semitone. *)
Theorem semitoneToFrequency_octaves (semitone octave : R) :
  semitoneToFrequency (semitone + 12) octave
  = 2 * semitoneToFrequency semitone octave ∧
  semitoneToFrequency semitone (octave + 1)
  = 2 * semitoneToFrequency semitone octave ∧
  0 < semitoneToFrequency semitone octave ∧
  (∀ higher, semitone < higher →
     semitoneToFrequency semitone octave < semitoneToFrequency higher octave).
Proof.
  assert (Hf : ∀ x y : R,
    semitoneToFrequency x y
    = 261.63 * Rpower 2 (x / 12) * Rpower 2 (y - 4)).
  { intros x y. unfold semitoneToFrequency. rewrite dec_exact.
    cbn [Math_pow math nmul ndiv nsub of_Z arith]. f_equal. f_equal. lra. }
  assert (Hp : ∀ x, 0 < Rpower 2 x) by (intros; apply exp_pos).
  rewrite !Hf. split; [|split; [|split]].
  - replace ((semitone + 12) / 12) with (semitone / 12 + 1) by lra.
    rewrite Rpower_plus, Rpower_1 by lra. lra.
  - replace (octave + 1 - 4) with (octave - 4 + 1) by lra.
    rewrite Rpower_plus, Rpower_1 by lra. lra.
  - pose proof (Hp (semitone / 12)). pose proof (Hp (octave - 4)). nra.
  - intros higher Hlt. rewrite Hf.
    assert (Rpower 2 (semitone / 12) < Rpower 2 (higher / 12))
      by (apply Rpower_lt; lra).
    pose proof (Hp (octave - 4)). nra.
Qed.

End ExactBounds.

(** ** Where the sound goes *)

Section Routes.
Context {num : Type} `{!JSArith num} `{!JSMath num}.
Implicit Types s : Engine num.
Implicit Types g B : list (AudioNode num).

Lemma routed_calm g g' h : calm_graph g g' → routed g h → routed g' h.
Proof.
  intros Hc Hr i n' c Hn' Hin.
  destruct (calm_graph_inv g g' i n' Hc Hn') as (n & Hn & Hcalm).
  destruct Hc as [Hlen _]. rewrite Hlen.
  destruct (calm_outputs _ _ Hcalm) as [Ho|Ho]; rewrite Ho in Hin.
  - by apply (Hr i n c).
  - by apply elem_of_nil in Hin.
Qed.

Lemma routed_forget g h : routed g h → routed g no_nodes.
Proof.
  intros Hr i n c Hn Hin. destruct (Hr i n c Hn Hin) as (? & ? & _).
  by repeat split.
Qed.

Lemma routed_append g B h h' :
  routed g h →
  (∀ t, t < length g →
        Some t = convolverNode h' ∨ Some t = reverbGain h' →
        Some t = convolverNode h ∨ Some t = reverbGain h) →
  (∀ k n c, B !! k = Some n → c ∈ outputs n →
     target c < length g + length B ∧ target c ≠ 0 ∧
     Some (target c) ≠ convolverNode h' ∧ Some (target c) ≠ reverbGain h') →
  routed (g ++ B) h'.
Proof.
  intros Hr Hh HB i n c Hn Hin. rewrite length_app.
  apply lookup_app_Some in Hn as [Hn|[Hi Hn]].
  - destruct (Hr i n c Hn Hin) as (Hlt & H0 & Hcv & Hrv).
    split; [lia|]. split; [done|]. split.
    + intros Ht. by destruct (Hh _ Hlt (or_introl Ht)).
    + intros Ht. by destruct (Hh _ Hlt (or_intror Ht)).
  - destruct (HB _ n c Hn Hin) as (Hlt & H0 & Hcv & Hrv).
    by repeat split.
Qed.

Lemma length_voice_nodes cg N (octave : num) notes : ∀ i,
  length (voice_nodes cg N octave i notes) = 2 * length notes.
Proof.
  induction notes as [|x notes IH]; intros i; [done|].
  cbn [voice_nodes length]. rewrite IH. lia.
Qed.

Lemma voice_nodes_targets cg N (octave : num) notes : ∀ i k n c,
  voice_nodes cg N octave i notes !! k = Some n → c ∈ outputs n →
  target c = cg ∨ i < target c < i + 2 * length notes.
Proof.
  induction notes as [|x notes IH]; intros i k n c Hn Hin; [done|].
  cbn [voice_nodes length] in *.
  destruct k as [|[|k]]; cbn [lookup list_lookup] in Hn.
  - injection Hn as <-. cbn in Hin. apply list_elem_of_singleton in Hin as ->.
    cbn. right. lia.
  - injection Hn as <-. cbn in Hin. apply list_elem_of_singleton in Hin as ->.
    cbn. by left.
  - destruct (IH _ _ _ _ Hn Hin) as [?|?]; [by left|right; lia].
Qed.

(** The connections of a new session. *)
Lemma new_session_targets b a (ctx : AudioContext num) k0
    baseFreq beatFreq noiseMix panValue w k n c :
  new_session b a ctx k0 baseFreq beatFreq noiseMix panValue w !! k
  = Some n →
  c ∈ outputs n →
  target c = a ∨
  b ≤ target c < b + 13 ∧ target c ≠ b + 10 ∧ target c ≠ b + 11.
Proof.
  unfold new_session, session_block. intros Hn Hin.
  repeat (destruct k as [|k];
    [cbn in Hn; injection Hn as <-; cbn in Hin;
     rewrite ?elem_of_cons, elem_of_nil in Hin;
     repeat destruct Hin as [Hin|Hin]; try done; subst c; unfold conn; cbn;
     lia|]).
  cbn in Hn. discriminate Hn.
Qed.

Lemma tapped_length s : tapped s → 2 ≤ length (graph s).
Proof.
  intros Ht. pose proof (t_tap _ Ht) as H1.
  apply lookup_lt_Some in H1. lia.
Qed.

(** The nodes of the handle are neither the destination nor the
    analyser. *)
Lemma tapped_handle_ids s i :
  tapped s → i ∈ handle_ids (binauralNodes s) → 2 ≤ i.
Proof.
  intros Ht Hi. destruct (t_handle _ Ht) as [Hidle|(b & Hb & Hh)].
  - rewrite Hidle in Hi. cbn in Hi. by apply elem_of_nil in Hi.
  - rewrite Hh in Hi. apply handle_ids_in in Hi. lia.
Qed.

Lemma tapped_reverb s t :
  tapped s →
  Some t = convolverNode (binauralNodes s) ∨
  Some t = reverbGain (binauralNodes s) →
  1 < t < length (graph s).
Proof.
  intros Ht Hcv.
  assert (Hin : t ∈ handle_ids (binauralNodes s)).
  { unfold handle_ids. apply list_elem_of_omap.
    destruct Hcv as [Hcv|Hcv]; eexists; (split; [|symmetry; exact Hcv]);
      set_solver. }
  pose proof (tapped_handle_ids s t Ht Hin).
  destruct (wf_handle_ids s t (t_wf _ Ht) Hin). lia.
Qed.

(** A call on the session keeps the hook tapped. *)
Lemma tapped_session_call s s' :
  tapped s → session_call s s' → wf s' → tapped s'.
Proof.
  intros Ht Hcall Hwf'. pose proof (t_wf _ Ht) as Hwf.
  pose proof (tapped_length s Ht) as Hlen.
  destruct (session_call_others s s' Hwf Hcall) as [Hch Ho].
  assert (H01 : ∀ i, i < 2 → graph s' !! i = graph s !! i).
  { intros i Hi. apply Ho; [lia|]. intros Hin.
    pose proof (tapped_handle_ids s i Ht Hin). lia. }
  destruct (t_context _ Ht) as (ctx & Hc & Hd).
  assert (Hquiet : ∀ m : Eff (num:=num) (),
    quiet (λ _, True) m → s' = state_of (m s) →
    audioContext s' = audioContext s ∧ analyser s' = analyser s ∧
    binauralNodes s' = binauralNodes s ∧
    routed (graph s') (binauralNodes s')).
  { intros m Hq ->. destruct (Hq s) as [Qc Qa Qh Qb Qch' Qd Qg Qo].
    repeat (split; [done|]). rewrite Qh.
    eapply routed_calm; [exact Qg|apply (t_routed _ Ht)]. }
  assert (Hkeep :
    audioContext s' = audioContext s → analyser s' = analyser s →
    routed (graph s') (binauralNodes s') →
    (binauralNodes s' = no_nodes ∨
     ∃ b, 2 ≤ b ∧ binauralNodes s' = handle_at b) →
    tapped s').
  { intros Hc' Ha' Hr' Hh'. split; try done.
    - exists ctx. by rewrite Hc'.
    - rewrite Ha'. apply (t_analyser _ Ht).
    - rewrite H01 by lia. apply (t_destination _ Ht).
    - rewrite H01 by lia. apply (t_tap _ Ht).
    - rewrite Hch. apply (t_voices _ Ht). }
  destruct (stopBinaural_wf s Hwf)
    as (s1 & Hstop & Hwf1 & Hidle1 & Hc1 & Ha1 & _ & _ & _ & Hcalm1).
  pose proof (routed_forget _ _ (routed_calm _ _ _ Hcalm1 (t_routed _ Ht)))
    as Hr1.
  destruct Hcalm1 as [Hlen1 _].
  destruct Hcall as [s baseFreq beatFreq noiseMix panValue w|s|s base beat
                     |s mix|s pan|s w].
  - destruct (decide (w = custom)) as [->|Hw].
    + destruct (startBinaural_custom s baseFreq beatFreq noiseMix panValue
                  Hwf) as (s2 & Hstop2 & _ & _ & Hrun).
      pose proof (stopBinaural_unique s s1 s2 Hstop Hstop2) as <-.
      rewrite Hrun in *. cbn [state_of] in *. unfold unborn_from in *.
      fields. apply Hkeep; [done|done| |by left]. rewrite Hidle1.
      apply (routed_append _ _ no_nodes); [done|done|].
      intros k n c Hn Hin. unfold unborn_session in Hn.
      repeat (destruct k as [|k];
        [cbn in Hn; injection Hn as <-; cbn in Hin;
         by apply elem_of_nil in Hin|]).
      cbn in Hn. discriminate Hn.
    + destruct (startBinaural_run s baseFreq beatFreq noiseMix panValue w
                  Hwf Hw)
        as (s2 & ctx2 & a & Hstop2 & _ & _ & Hc2 & Ha2 & _ & _ & _ & _ & _
            & _ & Hrun).
      pose proof (stopBinaural_unique s s1 s2 Hstop Hstop2) as <-.
      rewrite Hrun in *. cbn [state_of] in *. unfold started_from in *.
      fields.
      assert (a = 1) as ->.
      { pose proof (t_analyser _ Ht). congruence. }
      apply Hkeep; [congruence|congruence| |].
      * apply (routed_append _ _ no_nodes); [done| |].
        { intros t Hlt [Hcv|Hcv]; cbn in Hcv; injection Hcv as ->; lia. }
        intros k n c Hn Hin.
        unfold new_session in *. rewrite length_session_block.
        destruct (new_session_targets _ _ _ _ _ _ _ _ _ _ _ _ Hn Hin)
          as [Heq|(Hrange & H10 & H11)];
          (split; [lia|]); (split; [lia|]); split; intros [= Heq']; lia.
      * right. exists (length (graph s1)). split; [lia|done].
  - rewrite Hstop in *. cbn [state_of] in *.
    apply Hkeep; [done|done| |by left]. by rewrite Hidle1.
  - destruct (Hquiet _ (updateBinauralFrequencies_quiet base beat) eq_refl)
      as (Hc' & Ha' & Hh' & Hr').
    apply Hkeep; [done|done|done|]. rewrite Hh'. apply (t_handle _ Ht).
  - destruct (Hquiet _ (updateNoiseMix_quiet mix) eq_refl)
      as (Hc' & Ha' & Hh' & Hr').
    apply Hkeep; [done|done|done|]. rewrite Hh'. apply (t_handle _ Ht).
  - destruct (Hquiet _ (updatePanning_quiet pan) eq_refl)
      as (Hc' & Ha' & Hh' & Hr').
    apply Hkeep; [done|done|done|]. rewrite Hh'. apply (t_handle _ Ht).
  - destruct (Hquiet _ (updateWaveform_quiet w) eq_refl)
      as (Hc' & Ha' & Hh' & Hr').
    apply Hkeep; [done|done|done|]. rewrite Hh'. apply (t_handle _ Ht).
Qed.

(** A call on the chord or the drums keeps the hook tapped. *)
Lemma tapped_voice_call s s' :
  tapped s → voice_call s s' → wf s' → tapped s'.
Proof.
  intros Ht Hcall Hwf'. pose proof (t_wf _ Ht) as Hwf.
  pose proof (tapped_length s Ht) as Hlen.
  destruct (voice_call_others s s' Hwf Hcall) as [Hh Ho].
  assert (H01 : ∀ i, i < 2 → graph s' !! i = graph s !! i).
  { intros i Hi. apply Ho; [lia|]. intros Hin.
    pose proof (t_voices _ Ht) as Hv. rewrite Forall_forall in Hv.
    specialize (Hv i Hin). lia. }
  destruct (t_context _ Ht) as (ctx & Hc & Hd).
  pose proof (t_analyser _ Ht) as Ha.
  assert (Hkeep :
    audioContext s' = audioContext s → analyser s' = analyser s →
    routed (graph s') (binauralNodes s) →
    Forall (λ i, 2 ≤ i) (chordOscillators s') →
    tapped s').
  { intros Hc' Ha' Hr' Hv'. split; try done.
    - exists ctx. by rewrite Hc'.
    - by rewrite Ha'.
    - rewrite H01 by lia. apply (t_destination _ Ht).
    - rewrite H01 by lia. apply (t_tap _ Ht).
    - by rewrite Hh.
    - rewrite Hh. apply (t_handle _ Ht). }
  assert (Hsame : ∀ t,
    Some t = convolverNode (binauralNodes s) ∨
    Some t = reverbGain (binauralNodes s) →
    Some t = convolverNode (binauralNodes s) ∨
    Some t = reverbGain (binauralNodes s)) by done.
  destruct (stopChord_wf s Hwf)
    as (s1 & Hstop & _ & Hch1 & Hc1 & Ha1 & Hh1 & _ & _ & Hcalm1 & _).
  pose proof (routed_calm _ _ _ Hcalm1 (t_routed _ Ht)) as Hr1.
  destruct Hcalm1 as [Hlen1 _].
  destruct Hcall as [s notes octave volume|s|s drumType].
  - destruct (playChord_run s notes octave volume Hwf)
      as (s2 & a & Hstop2 & _ & _ & Ha2 & _ & _ & _ & _ & _ & _ & _ & Hrun).
    rewrite Hstop in Hstop2. injection Hstop2 as <-.
    assert (a = 1) as -> by congruence.
    rewrite Hrun in *. cbn [state_of] in *. unfold chord_from in *. fields.
    apply Hkeep; [done|done| |].
    + apply (routed_append _ _ (binauralNodes s)); [done|by intros|].
      intros k n c Hn Hin. cbn [length]. rewrite length_voice_nodes.
      assert (Htc : target c = 1 ∨
                    length (graph s1) ≤ target c
                    < length (graph s1) + S (2 * length notes)).
      { destruct k as [|k]; cbn [lookup list_lookup] in Hn.
        - injection Hn as <-. cbn in Hin.
          apply list_elem_of_singleton in Hin as ->. by left.
        - destruct (voice_nodes_targets _ _ _ _ _ _ _ _ Hn Hin); right; lia. }
      assert (Hrv : ∀ t, Some t = convolverNode (binauralNodes s) ∨
                         Some t = reverbGain (binauralNodes s) →
                         target c ≠ t).
      { intros t Hcv. pose proof (tapped_reverb s t Ht Hcv). lia. }
      split; [lia|]. split; [lia|].
      split; intros Heq; by apply (Hrv (target c)); [auto|].
    + apply Forall_forall. intros i (j & _ & ->)%voice_ids_spec. lia.
  - rewrite Hstop in *. cbn [state_of] in *.
    apply Hkeep; [done|done|done|]. by rewrite Hch1.
  - destruct (drumBuffers s !! drumType) as [buffer|] eqn:Hb.
    + destruct (playDrumSound_run s drumType buffer Hwf Hb)
        as (a & Ha2 & Hrun).
      assert (a = 1) as -> by congruence.
      rewrite Hrun in *. cbn [state_of] in *. unfold hit_from in *. fields.
      apply Hkeep; [done|done| |apply (t_voices _ Ht)].
      apply (routed_append _ _ (binauralNodes s));
        [apply (t_routed _ Ht)|by intros|].
      intros k n c Hn Hin. cbn [length].
      assert (Htc : target c = 1 ∨ target c = length (graph s) + 1).
      { destruct k as [|[|k]]; cbn [lookup list_lookup] in Hn; [| |done];
          injection Hn as <-; cbn in Hin;
          apply list_elem_of_singleton in Hin as ->; auto. }
      assert (Hrv : ∀ t, Some t = convolverNode (binauralNodes s) ∨
                         Some t = reverbGain (binauralNodes s) →
                         target c ≠ t).
      { intros t Hcv. pose proof (tapped_reverb s t Ht Hcv). lia. }
      split; [lia|]. split; [lia|].
      split; intros Heq; by apply (Hrv (target c)); [auto|].
    + rewrite playDrumSound_unknown in * by done. cbn [state_of] in *.
      apply Hkeep; [done|done|apply (t_routed _ Ht)|apply (t_voices _ Ht)].
Qed.

Lemma tapped_tick now s : tapped s → tapped (tick now s).
Proof.
  intros Ht. pose proof (tick_wf now s (t_wf _ Ht)) as Hwf'.
  destruct (t_context _ Ht) as (ctx & Hc & Hd).
  unfold tick in *. rewrite Hc in *. destruct Ht. split; try done.
  eexists. split; [reflexivity|done].
Qed.

Lemma tapped_step s s' : step s s' → tapped s → tapped s'.
Proof.
  intros Hstep Ht.
  pose proof (proj1 (step_wf s s' Hstep (t_wf _ Ht))) as Hwf'.
  destruct Hstep.
  - eapply tapped_session_call; [done|constructor|done].
  - eapply tapped_session_call; [done|constructor|done].
  - eapply tapped_session_call; [done|constructor|done].
  - eapply tapped_session_call; [done|constructor|done].
  - eapply tapped_session_call; [done|constructor|done].
  - eapply tapped_session_call; [done|constructor|done].
  - eapply tapped_voice_call; [done|constructor|done].
  - eapply tapped_voice_call; [done|constructor|done].
  - eapply tapped_voice_call; [done|constructor|done].
  - by apply tapped_tick.
Qed.

Lemma tapped_mounted rate :
  noiseFrames (mounted_ctx rate) ≠ 0 → tapped (mounted rate).
Proof.
  intros HF. pose proof (mounted_wf rate HF) as Hwf.
  destruct (mount_run rate) as (m & k & Hrun).
  unfold mounted in *. rewrite Hrun in *. cbn [state_of] in *.
  split; try done.
  - by eexists.
  - intros i n c Hn Hin. cbn [graph] in *. unfold mounted_graph in Hn.
    destruct i as [|[|i]]; cbn in Hn; [| |done]; injection Hn as <-.
    + by apply elem_of_nil in Hin.
    + cbn in Hin. apply list_elem_of_singleton in Hin as ->. cbn.
      repeat split; (lia || done).
  - by left.
Qed.

Lemma reachable_tapped rate s :
  noiseFrames (mounted_ctx rate) ≠ 0 → reachable rate s → tapped s.
Proof.
  intros HF Hr. induction Hr as [|s s' _ IH Hstep].
  - by apply tapped_mounted.
  - by apply (tapped_step s s').
Qed.

(** All sound reaches the output through the analyser.  In every state
    the hook reaches, the analyser is the node created on mount, with
    [fftSize] 2048 and its one connection, to the context's
    destination; every connection of every node leads to a node that
    exists; and no node but the analyser is connected to the
    destination. *)
Theorem analysis_tap_always rate s :
  noiseFrames (mounted_ctx rate) ≠ 0 → reachable rate s →
  ∃ ctx a,
    audioContext s = Some ctx ∧ analyser s = Some a ∧
    graph s !! destination ctx = Some (fresh Destination) ∧
    graph s !! a
    = Some (node (Analyser 2048) false false [conn (destination ctx) 0]) ∧
    ∀ i n c, graph s !! i = Some n → c ∈ outputs n →
      is_Some (graph s !! target c) ∧
      (target c = destination ctx → i = a).
Proof.
  intros HF Hr. pose proof (reachable_tapped rate s HF Hr) as Ht.
  destruct (t_context _ Ht) as (ctx & Hc & Hd).
  exists ctx, 1. rewrite Hd. split; [done|].
  split; [apply (t_analyser _ Ht)|]. split; [apply (t_destination _ Ht)|].
  split; [apply (t_tap _ Ht)|]. intros i n c Hn Hin.
  destruct (t_routed _ Ht i n c Hn Hin) as (Hlt & H0 & _).
  split; [by apply lookup_lt_is_Some_2|done].
Qed.

(** The reverb is never in the signal path.  In every state the hook
    reaches, the convolver and the reverb gain of the handle have no
    connection to anything, and no node is connected to them. *)
Theorem reverb_dormant rate s t :
  noiseFrames (mounted_ctx rate) ≠ 0 → reachable rate s →
  convolverNode (binauralNodes s) = Some t ∨
  reverbGain (binauralNodes s) = Some t →
  (∃ nt, graph s !! t = Some nt ∧ outputs nt = []) ∧
  ∀ i n c, graph s !! i = Some n → c ∈ outputs n → target c ≠ t.
Proof.
  intros HF Hr Hcv. pose proof (reachable_tapped rate s HF Hr) as Ht.
  pose proof (t_wf _ Ht) as Hwf. split.
  - destruct (wf_idle_or_active s Hwf) as [Hidle|Hact].
    { rewrite Hidle in Hcv. by destruct Hcv. }
    destruct (wf_active_form s Hwf Hact)
      as (ctx & a & g1 & g2 & wl & wr & fl & fr & tg & ng & pn & nb
          & _ & _ & Hs).
    rewrite Hs in Hcv |- *. fields. cbn in Hcv.
    destruct Hcv as [[= <-]|[= <-]]; rewrite lookup_app_plus; cbn;
      eexists; (split; [reflexivity|done]).
  - intros i n c Hn Hin <-.
    destruct (t_routed _ Ht i n c Hn Hin) as (_ & _ & H1 & H2).
    destruct Hcv as [Hcv|Hcv]; congruence.
Qed.

End Routes.

(** * The components *)

(** ** The generator *)

Section Generator.
Import BinauralGenerator.
Context {num : Type} `{!JSArith num} `{!JSMath num} `{!EqDecision num}.
Implicit Types s : Engine num.
Implicit Types g : State num.

(** The four updates of the effect, on a running session. *)
Lemma sync_block ctx a a0 m ch (g1 g2 : list (AudioNode num)) k
    wl wr fl fr tg ng pn nb base beat mix pan w :
  w ≠ custom →
  (updateBinauralFrequencies base beat;; updateNoiseMix mix;;
   updatePanning pan;; updateWaveform w)
    (Build_Engine (Some ctx) a (handle_at (length g1)) m ch
       (g1 ++ session_block (length g1) a0 wl wr fl fr tg ng pn nb ++ g2) k)
  = Normal ()
      (Build_Engine (Some ctx) a (handle_at (length g1)) m ch
         (g1 ++ session_block (length g1) a0 w w
                  (setValueAtTime base (currentTime ctx) fl)
                  (setValueAtTime (base + beat)%js (currentTime ctx) fr)
                  (setValueAtTime ((#1 - mix) * dec 3 1)%js
                     (currentTime ctx) tg)
                  (setValueAtTime (mix * dec 3 1)%js (currentTime ctx) ng)
                  (setValueAtTime pan (currentTime ctx) pn) nb ++ g2) k).
Proof.
  intros Hw.
  rewrite bind_run, updateBinauralFrequencies_active.
  rewrite bind_run, updateNoiseMix_active.
  rewrite bind_run, updatePanning_active.
  by rewrite updateWaveform_active.
Qed.

Lemma sync_active s base beat mix pan w :
  wf s → binauralNodes s ≠ no_nodes → w ≠ custom →
  ∃ s',
    (updateBinauralFrequencies base beat;; updateNoiseMix mix;;
     updatePanning pan;; updateWaveform w) s = Normal () s' ∧
    wf s' ∧ binauralNodes s' = binauralNodes s ∧
    chordOscillators s' = chordOscillators s ∧
    directed <$> leftFrequency s' = Some base ∧
    directed <$> rightFrequency s' = Some (base + beat)%js ∧
    directed <$> toneGainParam s' = Some ((#1 - mix) * dec 3 1)%js ∧
    directed <$> noiseGainParam s' = Some (mix * dec 3 1)%js ∧
    directed <$> panParam s' = Some pan ∧
    leftType s' = Some w ∧ rightType s' = Some w.
Proof.
  intros Hwf Hact Hw.
  pose proof (updateWaveform_wf _ w
                (updatePanning_wf _ pan
                   (updateNoiseMix_wf _ mix
                      (updateBinauralFrequencies_wf s base beat Hwf))))
    as Hwf'.
  destruct (wf_active_form s Hwf Hact)
    as (ctx & a & g1 & g2 & wl & wr & fl & fr & tg & ng & pn & nb
        & _ & _ & Hs).
  set (m := drumBuffers s) in *. set (ch := chordOscillators s) in *.
  set (k := draws s) in *. clearbody m ch k. subst s.
  rewrite updateBinauralFrequencies_active in Hwf'. cbn [state_of] in Hwf'.
  rewrite updateNoiseMix_active in Hwf'. cbn [state_of] in Hwf'.
  rewrite updatePanning_active in Hwf'. cbn [state_of] in Hwf'.
  rewrite updateWaveform_active in Hwf' by done. cbn [state_of] in Hwf'.
  eexists. split; [by apply sync_block|]. split; [exact Hwf'|].
  fields. split; [done|]. split; [done|].
  match goal with
  | |- context [session_block _ _ _ _ ?fl' ?fr' ?tg' ?ng' ?pn' _] =>
      destruct (readings_block (Some ctx) (Some a) a m ch g1 g2 k
                  w w fl' fr' tg' ng' pn' nb) as (-> & -> & -> & ->);
      destruct (more_readings_block (Some ctx) (Some a) a m ch g1 g2 k
                  w w fl' fr' tg' ng' pn' nb) as (-> & -> & -> & _)
  end.
  cbn [fmap option_fmap option_map]. by rewrite !directed_setValueAtTime.
Qed.

Lemma wf_active_sounding s :
  wf s → binauralNodes s ≠ no_nodes → sounding s.
Proof.
  intros Hwf Hact.
  destruct (wf_active_form s Hwf Hact)
    as (ctx & a & g1 & g2 & wl & wr & fl & fr & tg & ng & pn & nb
        & _ & _ & ->).
  unfold sounding, node_at, handle_at.
  cbn [binauralNodes leftOsc rightOsc noiseSource graph mbind option_bind].
  rewrite !lookup_app_plus. done.
Qed.

Lemma set_engine_same g : set_engine (engine g) g = g.
Proof. by destruct g. Qed.

Lemma in_tune_deps g g' :
  deps g' = deps g → engine g' = engine g → in_tune g → in_tune g'.
Proof.
  unfold deps, in_tune. intros [= -> -> -> -> -> _] ->. done.
Qed.

Lemma tick_handle now s : binauralNodes (tick now s) = binauralNodes s.
Proof. unfold tick. by destruct (audioContext s). Qed.

Lemma tick_chord now s : chordOscillators (tick now s) = chordOscillators s.
Proof. unfold tick. by destruct (audioContext s). Qed.

Lemma tick_graph now s : graph (tick now s) = graph s.
Proof. unfold tick. by destruct (audioContext s). Qed.

Lemma in_tune_tick now g :
  in_tune g → in_tune (set_engine (tick now (engine g)) g).
Proof.
  unfold in_tune, leftFrequency, rightFrequency, toneGainParam,
    noiseGainParam, panParam, leftType, rightType, node_at.
  cbn [engine set_engine baseFreq beatFreq noiseMix panValue waveform].
  by rewrite tick_handle, tick_graph.
Qed.

(** The render after a handler. *)
Lemma commit_steady old new :
  wf (engine new) → chordOscillators (engine new) = [] →
  waveform new ≠ custom →
  (isPlaying new = true → binauralNodes (engine new) ≠ no_nodes) →
  (isPlaying new = false → binauralNodes (engine new) = no_nodes) →
  (deps new = deps old → isPlaying new = true → in_tune new) →
  ∃ g', commit old new = Done g' ∧ steady g' ∧
        isPlaying g' = isPlaying new.
Proof.
  intros Hwf Hch Hw Hplay Hstop Hsame. unfold commit.
  destruct (decide (deps new = deps old)) as [Hd|Hd].
  { exists new. split; [done|]. split; [|done]. split; auto. }
  unfold call, syncEffect. destruct (isPlaying new) eqn:Hp.
  - destruct (sync_active (engine new) (baseFreq new) (beatFreq new)
                (noiseMix new / #100)%js (panValue new / #100)%js
                (waveform new) Hwf (Hplay eq_refl) Hw)
      as (s' & -> & Hwf' & Hh & Hch' & H1 & H2 & H3 & H4 & H5 & H6 & H7).
    eexists. split; [reflexivity|]. split; [|by destruct new].
    split; destruct new; cbn in *; try done.
    + congruence.
    + intros _. split; [rewrite Hh; auto|]. by repeat split.
    + intros ?; congruence.
  - rewrite ret_run. exists new. rewrite set_engine_same.
    split; [done|]. split; [|done]. split; auto. congruence.
Qed.

(** One event keeps the generator steady, and does not throw. *)
Lemma dispatch_steady ev g :
  steady g → selectable ev →
  ∃ g', dispatch ev g = Done g' ∧ steady g'.
Proof.
  intros [Hwf Hch Hw Hplay Hstop] Hsel. unfold dispatch.
  assert (Hset : ∀ g1,
    engine g1 = engine g → isPlaying g1 = isPlaying g →
    waveform g1 ≠ custom →
    ∃ g', commit g g1 = Done g' ∧ steady g').
  { intros g1 He Hp Hw1.
    assert (H1 : wf (engine g1)) by (by rewrite He).
    assert (H2 : chordOscillators (engine g1) = []) by (by rewrite He).
    assert (H3 : isPlaying g1 = true → binauralNodes (engine g1) ≠ no_nodes).
    { rewrite He, Hp. intros H. by apply Hplay. }
    assert (H4 : isPlaying g1 = false → binauralNodes (engine g1) = no_nodes).
    { by rewrite He, Hp. }
    assert (H5 : deps g1 = deps g → isPlaying g1 = true → in_tune g1).
    { intros Hd Hp'. apply (in_tune_deps g); [done|done|].
      apply Hplay. congruence. }
    destruct (commit_steady g g1 H1 H2 Hw1 H3 H4 H5) as (g' & Hc & Hs & _).
    by eauto. }
  destruct ev as [|preset|v|v|wave|v|v|now]; cbn [handle];
    try (by apply Hset).
  2:{ destruct (commit_steady g (set_engine (tick now (engine g)) g))
        as (g' & Hc & Hs & _).
      - by apply tick_wf.
      - cbn. by rewrite tick_chord.
      - by cbn.
      - cbn. rewrite tick_handle. intros Hp. by apply Hplay.
      - cbn. by rewrite tick_handle.
      - intros _ Hp. apply in_tune_tick. by apply Hplay.
      - by eauto. }
  unfold handleTogglePlay, call. destruct (isPlaying g) eqn:Hp.
  - destruct (stopBinaural_wf (engine g) Hwf)
      as (s1 & -> & Hwf1 & Hidle1 & _ & _ & _ & Hch1 & _).
    destruct (commit_steady g (setIsPlaying false (set_engine s1 g)))
      as (g' & Hc & Hs & _); [by cbn|cbn; congruence|by cbn|by cbn|by cbn
                              |by cbn|].
    by eauto.
  - destruct (startBinaural_single (engine g) (baseFreq g) (beatFreq g)
                (noiseMix g / #100)%js (panValue g / #100)%js (waveform g)
                Hwf Hw) as (Hwf1 & Hh1 & _ & Hch1 & _).
    destruct (startBinaural_run (engine g) (baseFreq g) (beatFreq g)
                (noiseMix g / #100)%js (panValue g / #100)%js (waveform g)
                Hwf Hw) as (? & ? & ? & _ & _ & _ & _ & _ & _ & _ & _ & _
                            & _ & _ & Hrun).
    rewrite Hrun in *. cbn [state_of] in *.
    match type of Hwf1 with wf ?e =>
      destruct (commit_steady g (setIsPlaying true (set_engine e g)))
        as (g' & Hc & Hs & _)
    end.
    + by cbn.
    + cbn [engine setIsPlaying set_engine]. congruence.
    + by cbn.
    + cbn [engine setIsPlaying set_engine]. intros _. by rewrite Hh1.
    + by cbn.
    + unfold deps. cbn. rewrite Hp. congruence.
    + by eauto.
Qed.

Lemma toggle_flips g :
  steady g → isPlaying (after (dispatch TogglePlay g)) = negb (isPlaying g).
Proof.
  intros [Hwf Hch Hw Hplay Hstop]. unfold dispatch. cbn [handle].
  unfold handleTogglePlay, call. destruct (isPlaying g) eqn:Hp.
  - destruct (stopBinaural_wf (engine g) Hwf)
      as (s1 & -> & Hwf1 & Hidle1 & _ & _ & _ & Hch1 & _).
    destruct (commit_steady g (setIsPlaying false (set_engine s1 g)))
      as (g' & Hc & _ & Hi); [by cbn|cbn; congruence|by cbn|by cbn|by cbn
                              |by cbn|].
    by rewrite Hc.
  - destruct (startBinaural_single (engine g) (baseFreq g) (beatFreq g)
                (noiseMix g / #100)%js (panValue g / #100)%js (waveform g)
                Hwf Hw) as (Hwf1 & Hh1 & _ & Hch1 & _).
    destruct (startBinaural_run (engine g) (baseFreq g) (beatFreq g)
                (noiseMix g / #100)%js (panValue g / #100)%js (waveform g)
                Hwf Hw) as (? & ? & ? & _ & _ & _ & _ & _ & _ & _ & _ & _
                            & _ & _ & Hrun).
    rewrite Hrun in *. cbn [state_of] in *.
    match type of Hwf1 with wf ?e =>
      destruct (commit_steady g (setIsPlaying true (set_engine e g)))
        as (g' & Hc & _ & Hi)
    end.
    + by cbn.
    + cbn [engine setIsPlaying set_engine]. congruence.
    + by cbn.
    + cbn [engine setIsPlaying set_engine]. intros _. by rewrite Hh1.
    + by cbn.
    + unfold deps. cbn. rewrite Hp. congruence.
    + by rewrite Hc.
Qed.

Lemma initial_steady rate :
  noiseFrames (mounted_ctx rate) ≠ 0 → steady (initial rate).
Proof.
  intros HF. pose proof (mounted_wf rate HF) as Hwf. unfold mounted in Hwf.
  destruct (mount_run rate) as (m & k & Hrun).
  unfold initial. rewrite Hrun in *. split; cbn; done.
Qed.

Lemma run_steady evs : ∀ g,
  steady g → Forall selectable evs →
  all_done dispatch evs g ∧ steady (run evs g).
Proof.
  induction evs as [|ev evs IH]; intros g Hs Hsel; [done|].
  apply Forall_cons in Hsel as [Hev Hsel].
  destruct (dispatch_steady ev g Hs Hev) as (g' & Hd & Hs').
  cbn [all_done run foldl]. rewrite Hd. cbn [after finished].
  destruct (IH g' Hs' Hsel) as [Hall Hrun].
  split; [split; [done|exact Hall]|exact Hrun].
Qed.

(** The play button tells the truth.  After anything the user does to
    the generator on a mounted hook, no handler and no effect having
    thrown: when the button shows STOP the session's two oscillators and
    its noise source sound, and when it shows PLAY there is no session
    and no oscillator and no looping source sounds. *)
Theorem play_button_tells rate evs :
  noiseFrames (mounted_ctx rate) ≠ 0 → Forall selectable evs →
  let g := run evs (initial rate) in
  all_done dispatch evs (initial rate) ∧
  (isPlaying g = true → sounding (engine g)) ∧
  (isPlaying g = false →
   binauralNodes (engine g) = no_nodes ∧ silent (engine g)).
Proof.
  intros HF Hsel. cbn zeta.
  destruct (run_steady evs (initial rate) (initial_steady rate HF) Hsel)
    as [Hall [Hwf Hch Hw Hplay Hstop]].
  split; [done|]. split.
  - intros Hp. apply wf_active_sounding; [done|]. by apply Hplay.
  - intros Hp. split; [by apply Hstop|]. apply wf_silent; auto.
Qed.

(** What sounds is what the controls show.  After anything the user
    does to the generator on a mounted hook, while it plays: the left
    oscillator is directed at the base frequency shown and the right
    one at that plus the beat frequency shown, the tone and noise gains
    at the levels of the mix shown, the panner at the pan shown, and
    both oscillators have the wave shape selected. *)
Theorem controls_in_tune rate evs :
  noiseFrames (mounted_ctx rate) ≠ 0 → Forall selectable evs →
  let g := run evs (initial rate) in
  isPlaying g = true → in_tune g.
Proof.
  intros HF Hsel. cbn zeta.
  destruct (run_steady evs (initial rate) (initial_steady rate HF) Hsel)
    as [_ [Hwf Hch Hw Hplay Hstop]].
  intros Hp. by apply Hplay.
Qed.

End Generator.

(** ** The chord player *)

Section Player.
Import ChordPlayer.
Context {num : Type} `{!JSArith num} `{!JSMath num}.
Implicit Types s : Engine num.
Implicit Types p : State num.

(** The voices of a chord just played sound. *)
Lemma chord_from_live s1 a notes octave volume :
  Forall (λ i, ∃ n, graph (chord_from s1 a notes octave volume) !! i = Some n
                    ∧ live_oscillator n = true)
    (chordOscillators (chord_from s1 a notes octave volume)).
Proof.
  apply Forall_forall. intros i Hi. cbn [chord_from chordOscillators] in Hi.
  apply voice_ids_spec in Hi as (j & Hj & ->).
  destruct (lookup_lt_is_Some_2 notes j Hj) as [semitone Hsemi].
  eexists. split; [|shelve].
  cbn [chord_from graph].
  rewrite lookup_app_r by lia.
  replace (length (graph s1) + 1 + 2 * j - length (graph s1))
    with (S (2 * j)) by lia.
  cbn [lookup list_lookup]. by apply voice_nodes_even.
  Unshelve. done.
Qed.

Lemma chord_length chord :
  chord ∈ chords (num:=num) → length (Chord.notes chord) = 3.
Proof.
  unfold chords. rewrite !elem_of_cons, elem_of_nil.
  intros [->|[->|[->|[->|[->|[->|[->|[]]]]]]]]; reflexivity.
Qed.

Lemma dispatch_held ev p :
  held p → pressable ev → ∃ p', dispatch ev p = Done p' ∧ held p'.
Proof.
  intros [Hwf Hidle Hlive Hnone Hsome] Hev.
  destruct ev as [chord| |v|v]; cbn [dispatch].
  - unfold handleChordPress, call. cbn [engine setSelectedChord].
    destruct (playChord_run (engine p) (Chord.notes chord) (octave p)
                (chordVolume p / #100)%js Hwf)
      as (s1 & a & _ & Hwf1 & Hch & Ha & _ & Ha1 & Hh & _ & _ & _ & _ & ->).
    eexists. split; [reflexivity|]. split; cbn [engine set_engine
      selectedChord setSelectedChord].
    + apply chord_from_wf; [done|done|congruence].
    + cbn. congruence.
    + apply chord_from_live.
    + done.
    + intros name [= <-]. exists chord. split; [done|]. split; [done|].
      cbn. apply length_voice_ids.
  - unfold handleChordRelease, call. cbn [engine setSelectedChord].
    destruct (stopChord_wf (engine p) Hwf)
      as (s' & -> & Hwf' & Hch & _ & _ & Hh & _).
    eexists. split; [reflexivity|]. split; cbn [engine set_engine
      selectedChord setSelectedChord].
    + done.
    + congruence.
    + rewrite Hch. constructor.
    + done.
    + done.
  - eexists. split; [reflexivity|]. by split.
  - eexists. split; [reflexivity|]. by split.
Qed.

Lemma initial_held rate :
  noiseFrames (mounted_ctx rate) ≠ 0 → held (initial rate).
Proof.
  intros HF. pose proof (mounted_wf rate HF) as Hwf. unfold mounted in Hwf.
  destruct (mount_run rate) as (m & k & Hrun).
  unfold initial. rewrite Hrun in *. split; cbn; done.
Qed.

Lemma run_held evs : ∀ p,
  held p → Forall pressable evs →
  all_done dispatch evs p ∧ held (run evs p).
Proof.
  induction evs as [|ev evs IH]; intros p Hs Hsel; [done|].
  apply Forall_cons in Hsel as [Hev Hsel].
  destruct (dispatch_held ev p Hs Hev) as (p' & Hd & Hs').
  cbn [all_done run foldl]. rewrite Hd. cbn [after finished].
  destruct (IH p' Hs' Hsel) as [Hall Hrun].
  split; [split; [done|exact Hall]|exact Hrun].
Qed.

(** The chord that sounds is the one shown as held.  After anything the
    user does to the chord player on a mounted hook (pressing any of its
    seven buttons, letting go, moving the sliders, in any order and with
    presses not paired with releases), no handler having thrown: the
    oscillators that sound are exactly the voices the hook holds; with
    no chord shown there are none and nothing sounds; with a chord shown
    it is one of the seven and three voices are held. *)
Theorem chord_button_tells rate evs :
  noiseFrames (mounted_ctx rate) ≠ 0 → Forall pressable evs →
  let p := run evs (initial rate) in
  all_done dispatch evs (initial rate) ∧
  voices_sound (engine p) ∧
  (selectedChord p = None → silent (engine p)) ∧
  (∀ name, selectedChord p = Some name →
     ∃ chord, chord ∈ chords (num:=num) ∧ Chord.name chord = name ∧
       length (chordOscillators (engine p)) = 3).
Proof.
  intros HF Hev. cbn zeta.
  destruct (run_held evs (initial rate) (initial_held rate HF) Hev)
    as [Hall [Hwf Hidle Hlive Hnone Hsome]].
  split; [done|]. split; [|split].
  - intros i n Hn. split.
    + intros Hl.
      destruct (decide (i ∈ chordOscillators (engine (run evs (initial rate)))))
        as [|Hni]; [done|].
      destruct (wf_sounding _ Hwf i n Hn) as [[Hs _] _].
      rewrite Hidle in Hs. by destruct (Hs (conj Hl Hni)).
    + intros Hi. rewrite Forall_forall in Hlive.
      destruct (Hlive i Hi) as (n' & Hn' & Hl). congruence.
  - intros Hsel. apply wf_silent; auto.
  - intros name Hsel. destruct (Hsome name Hsel) as (chord & Hin & Hname & Hl).
    exists chord. split; [done|]. split; [done|].
    by rewrite Hl, chord_length.
Qed.

End Player.

(** ** The beat sequencer *)

Section Sequencer.
Import BeatSequencer.
Context {num : Type} `{!JSArith num} `{!JSMath num}.
Implicit Types s e : Engine num.
Implicit Types q : State num.

Lemma bank_drumTypes ctx k (d : string) :
  d ∈ drumTypes → is_Some (bank (num:=num) ctx k !! d).
Proof.
  unfold drumTypes. rewrite !elem_of_cons, elem_of_nil.
  intros [->|[->|[->|[]]]]; eexists; apply bank_lookup;
    rewrite !elem_of_cons; eauto.
Qed.

(** The hits of a step, track after track. *)
Lemma forEachIndexed_hits ctx a step (pat : list (list bool)) : ∀ i e,
  wf e → drumBuffers e = bank ctx 0 → analyser e = Some a →
  ∃ buffers,
    Forall2 (λ d b, bank ctx 0 !! d = Some b)
      (omap (λ '(track, drumType),
               if active track step then Some drumType else None)
         (zip pat (drop i drumTypes))) buffers ∧
    forEachIndexed pat i (λ track trackIndex,
      if active track step then
        match drumTypes !! trackIndex with
        | Some drumType => playDrumSound drumType
        | None => mret ()
        end
      else mret ()) e
    = Normal () (foldl (λ e b, hit_from e a b) e buffers).
Proof.
  induction pat as [|track pat IH]; intros i e Hwf Hb Ha.
  { exists []. split; [constructor|done]. }
  cbn [forEachIndexed]. rewrite bind_run.
  destruct (drumTypes !! i) as [d|] eqn:Hd.
  - rewrite (drop_S _ _ _ Hd). cbn [zip zip_with omap list_omap].
    destruct (active track step).
    + destruct (bank_drumTypes ctx 0 d) as [b Hbd];
        [by eapply list_elem_of_lookup_2|].
      destruct (playDrumSound_run e d b Hwf) as (a' & Ha' & ->);
        [by rewrite Hb|].
      assert (a' = a) as -> by congruence.
      destruct (IH (S i) (hit_from e a b)) as (buffers & HF & Hrun);
        [by apply hit_from_wf|done|done|].
      exists (b :: buffers). split; [by constructor|]. exact Hrun.
    + cbn [mret Eff_ret]. destruct (IH (S i) e) as (buffers & HF & Hrun);
        [done..|].
      exists buffers. split; [done|]. exact Hrun.
  - apply lookup_ge_None in Hd.
    rewrite (drop_ge _ i) by done.
    destruct (IH (S i) e) as (buffers & HF & Hrun); [done..|].
    rewrite (drop_ge _ (S i)) in HF by lia.
    rewrite zip_with_nil_r in HF. cbn in HF. apply Forall2_nil_inv_l in HF.
    subst buffers. exists []. split; [constructor|].
    destruct (active track step); exact Hrun.
Qed.

Lemma playStep_hits ctx a step (pat : list (list bool)) e :
  wf e → drumBuffers e = bank ctx 0 → analyser e = Some a →
  ∃ buffers,
    Forall2 (λ d b, drumBuffers e !! d = Some b) (step_drums pat step)
      buffers ∧
    playStep pat step e = Normal () (foldl (λ e b, hit_from e a b) e buffers).
Proof.
  intros Hwf Hb Ha.
  destruct (forEachIndexed_hits ctx a step pat 0 e Hwf Hb Ha)
    as (buffers & HF & Hrun).
  exists buffers. rewrite Hb. split; [exact HF|exact Hrun].
Qed.

Lemma hits_keep a buffers : ∀ e,
  wf e → analyser e = Some a →
  let e' := foldl (λ e b, hit_from e a b) e buffers in
  wf e' ∧ analyser e' = Some a ∧ drumBuffers e' = drumBuffers e ∧
  binauralNodes e' = binauralNodes e ∧
  chordOscillators e' = chordOscillators e ∧
  audioContext e' = audioContext e.
Proof.
  induction buffers as [|b buffers IH]; intros e Hwf Ha; [done|].
  cbn [foldl]. destruct (IH (hit_from e a b)) as (? & ? & ? & ? & ? & ?);
    [by apply hit_from_wf|done|]. done.
Qed.

Lemma tick_looping rate q :
  looping rate q →
  ∃ a buffers,
    analyser (engine q) = Some a ∧
    Forall2 (λ d b, drumBuffers (engine q) !! d = Some b)
      (step_drums (pattern q) ((currentStep q + 1) mod 8)) buffers ∧
    tick q
    = Done (setCurrentStep ((currentStep q + 1) mod 8)
              (set_engine (foldl (λ e b, hit_from e a b) (engine q) buffers)
                 q)) ∧
    looping rate (after (tick q)).
Proof.
  intros [Hwf Hb Hidle Hch Hstep Hlen].
  pose proof Hwf as [_ (a & Ha & _) _ _].
  destruct (playStep_hits (mounted_ctx rate) a ((currentStep q + 1) mod 8)
              (pattern q) (engine q) Hwf Hb Ha) as (buffers & HF & Hrun).
  exists a, buffers. split; [done|]. split; [done|].
  unfold tick. rewrite Hrun. split; [done|].
  destruct (hits_keep a buffers (engine q) Hwf Ha)
    as (Hwf' & _ & Hb' & Hh' & Hch' & _).
  cbn [after]. split; cbn [engine set_engine setCurrentStep currentStep
                            pattern]; try congruence.
  apply Nat.mod_upper_bound. lia.
Qed.

Lemma toggleStep_looping rate track step q :
  looping rate q →
  looping rate (after (toggleStep track step q)) ∧
  (finished (toggleStep track step q) = true ↔ track < 3).
Proof.
  intros [Hwf Hb Hidle Hch Hstep Hlen]. unfold toggleStep.
  destruct (pattern q !! track) as [row|] eqn:Hrow.
  - apply lookup_lt_Some in Hrow as Hlt. cbn [after finished]. split.
    + split; cbn; try done. by rewrite length_insert.
    + split; [lia|done].
  - apply lookup_ge_None in Hrow. cbn [after finished]. split; [by split|].
    split; [done|lia].
Qed.

Lemma dispatch_looping rate ev q :
  looping rate q → looping rate (after (dispatch ev q)).
Proof.
  intros Hq. destruct ev as [|v|track step|]; cbn [dispatch].
  - destruct Hq. by split.
  - destruct Hq. by split.
  - by apply toggleStep_looping.
  - destruct (isPlaying q); [|done].
    by destruct (tick_looping rate q Hq) as (_ & _ & _ & _ & _ & ?).
Qed.

Lemma initial_looping rate :
  noiseFrames (mounted_ctx rate) ≠ 0 →
  kickFrames (mounted_ctx rate) ≠ 0 → snareFrames (mounted_ctx rate) ≠ 0 →
  hihatFrames (mounted_ctx rate) ≠ 0 →
  looping rate (initial rate).
Proof.
  intros HF Hk Hs Hh. pose proof (mounted_wf rate HF) as Hwf.
  unfold mounted in Hwf. unfold initial.
  rewrite (mount_ok rate Hk Hs Hh) in *. split; cbn; try done. lia.
Qed.

Lemma run_looping rate evs : ∀ q,
  looping rate q → looping rate (run evs q).
Proof.
  induction evs as [|ev evs IH]; intros q Hq; [done|].
  cbn [run foldl]. apply IH. by apply dispatch_looping.
Qed.

Lemma dispatch_tracks ev q :
  length (pattern (after (dispatch ev q))) = length (pattern q).
Proof.
  destruct ev as [|v|track step|]; cbn [dispatch]; try done.
  - unfold toggleStep. destruct (pattern q !! track); [|done].
    cbn. by rewrite length_insert.
  - destruct (isPlaying q); [|done]. unfold tick.
    by destruct (playStep _ _ _).
Qed.

Lemma run_tracks evs : ∀ q,
  length (pattern (run evs q)) = length (pattern q).
Proof.
  induction evs as [|ev evs IH]; intros q; [done|].
  cbn [run foldl]. fold (run evs (after (dispatch ev q))).
  by rewrite IH, dispatch_tracks.
Qed.

(** A tick of the timer plays the next step.  After anything that
    happens to the sequencer on a mounted hook, a tick moves to step
    [(currentStep + 1) mod 8], which is below 8, leaves the pattern as
    it is, and starts one one-shot source for each of the kick, snare
    and hi-hat tracks that is active at that step, in this order, each
    playing the buffer of its drum; it never throws. *)
Theorem tick_plays_step rate evs :
  noiseFrames (mounted_ctx rate) ≠ 0 →
  kickFrames (mounted_ctx rate) ≠ 0 → snareFrames (mounted_ctx rate) ≠ 0 →
  hihatFrames (mounted_ctx rate) ≠ 0 →
  let q := run evs (initial rate) in
  let nextStep := (currentStep q + 1) mod 8 in
  ∃ a buffers q',
    tick q = Done q' ∧
    currentStep q' = nextStep ∧ nextStep < 8 ∧
    pattern q' = pattern q ∧ isPlaying q' = isPlaying q ∧ bpm q' = bpm q ∧
    analyser (engine q) = Some a ∧
    Forall2 (λ d b, drumBuffers (engine q) !! d = Some b)
      (step_drums (pattern q) nextStep) buffers ∧
    engine q' = foldl (λ e b, hit_from e a b) (engine q) buffers.
Proof.
  intros HF Hk Hs Hh. cbn zeta.
  pose proof (run_looping rate evs _ (initial_looping rate HF Hk Hs Hh)) as Hq.
  destruct (tick_looping rate _ Hq) as (a & buffers & Ha & HF2 & Hrun & _).
  exists a, buffers. eexists. split; [exact Hrun|].
  split; [done|]. split; [apply Nat.mod_upper_bound; lia|].
  by do 5 (split; [done|]).
Qed.

(** The step buttons.  Whatever has happened to the sequencer, it has
    its three tracks: toggling a step returns for these and throws a
    [TypeError] for any other, and then changes nothing. *)
Theorem toggleStep_tracks rate evs track step :
  let q := run evs (initial rate) in
  length (pattern q) = 3%nat ∧
  (track < 3 → finished (toggleStep track step q) = true) ∧
  (3 ≤ track → toggleStep track step q = Failed TypeError q).
Proof.
  cbn zeta.
  pose proof (run_tracks evs (initial rate)) as Hlen. cbn in Hlen.
  split; [done|]. unfold toggleStep. split; intros Ht.
  - destruct (lookup_lt_is_Some_2 (pattern (run evs (initial rate))) track)
      as [row ->]; [lia|done].
  - by rewrite (proj2 (lookup_ge_None _ _)) by lia.
Qed.

(** Toggling a step the pattern has flips that step and no other, and
    toggling it again gives the state back. *)
Theorem toggleStep_flips track step v q :
  cell (pattern q) track step = Some v →
  ∃ q1,
    toggleStep track step q = Done q1 ∧
    cell (pattern q1) track step = Some (negb v) ∧
    (∀ t k, (t, k) ≠ (track, step) →
            cell (pattern q1) t k = cell (pattern q) t k) ∧
    engine q1 = engine q ∧ currentStep q1 = currentStep q ∧
    isPlaying q1 = isPlaying q ∧ bpm q1 = bpm q ∧
    toggleStep track step q1 = Done q.
Proof.
  unfold cell, toggleStep. intros Hc.
  destruct (pattern q !! track) as [row|] eqn:Hrow; [|done].
  cbn in Hc. apply lookup_lt_Some in Hrow as Htrack.
  apply lookup_lt_Some in Hc as Hstep.
  assert (active row step = v) as Hact by (unfold active; by rewrite Hc).
  assert (assign row step (negb v) = <[step := negb v]> row) as Hassign.
  { unfold assign. by rewrite decide_True. }
  eexists. split; [reflexivity|].
  cbn [pattern setPattern engine currentStep isPlaying bpm].
  rewrite Hact, Hassign, list_lookup_insert_eq by done. cbn.
  split; [by rewrite list_lookup_insert_eq|].
  split.
  { intros t k Hne. destruct (decide (t = track)) as [->|Ht].
    - rewrite list_lookup_insert_eq, Hrow by done. cbn.
      rewrite list_lookup_insert_ne; [done|]. congruence.
    - by rewrite list_lookup_insert_ne. }
  do 4 (split; [done|]).
  unfold active, assign. rewrite list_lookup_insert_eq by done. cbn.
  rewrite length_insert, decide_True by done.
  rewrite negb_involutive, !list_insert_insert_eq.
  rewrite (list_insert_id row) by done. rewrite list_insert_id by done.
  by destruct q.
Qed.

End Sequencer.

(** ** The curve on the canvas, read exactly *)

Section Curve.
Import Exact Draw.
Variable rnd : nat → R.
Local Hint Extern 0 (JSMath R) => exact (Exact.math rnd) : typeclass_instances.
Local Open Scope R_scope.

Lemma sign_abs (x : R) : Math_sign x * Math_abs x = x.
Proof.
  cbn [Math_sign Math_abs R_draw].
  destruct (Rlt_dec x 0) as [Hneg|Hnn].
  - rewrite Rabs_left by done. lra.
  - destruct (Rlt_dec 0 x) as [Hpos|Hnp].
    + rewrite Rabs_right by lra. lra.
    + assert (x = 0) as -> by lra. lra.
Qed.

Lemma sign_range (x : R) : -1 <= Math_sign x <= 1.
Proof.
  cbn [Math_sign R_draw].
  destruct (Rlt_dec x 0); [lra|]. destruct (Rlt_dec 0 x); lra.
Qed.

Lemma centre_distance (byte : Z) (height : R) :
  (0 ≤ byte ≤ 255)%Z → 0 <= height →
  Rabs (IZR byte / 128 * height / 2 - height / 2) <= height / 2.
Proof.
  intros [H0 H1] Hh. apply IZR_le in H0, H1.
  apply Rabs_le. split; nra.
Qed.

Lemma plotX_exact (w : R) (i : nat) : plotX w i = INR i * w.
Proof.
  induction i as [|i IH]; [cbn; lra|].
  cbn [plotX]. rewrite IH, S_INR. cbn [nadd arith]. lra.
Qed.

(** The curve stays on the canvas.  Read in exact arithmetic, for every
    wave shape and every byte the analyser can give: a sample is drawn
    between the top and the bottom of the canvas, the byte 128 of
    silence on its centre line, and from left to right at [i] of
    [bufferLength] equal parts of the width, so that the curve ends at
    the right edge.  The adjustment made for a square wave moves no
    point: the sample is drawn where a sine's is. *)
Theorem curve_within_canvas waveform (i bufferLength : nat) (byte : Z)
    (width height : R) :
  (0 ≤ byte ≤ 255)%Z → 0 <= height → 0 <= width →
  (i ≤ bufferLength)%nat → (0 < bufferLength)%nat →
  0 <= plotY waveform i byte height <= height ∧
  plotY waveform i 128 height = height / 2 ∧
  plotY square i byte height = plotY sine i byte height ∧
  plotX (sliceWidth width bufferLength) i
  = INR i / INR bufferLength * width ∧
  0 <= plotX (sliceWidth width bufferLength) i <= width ∧
  plotX (sliceWidth width bufferLength) bufferLength = width.
Proof.
  intros Hb Hh Hw Hi Hn.
  pose proof (centre_distance byte height Hb Hh) as Hd.
  pose proof (Rabs_pos (IZR byte / 128 * height / 2 - height / 2)) as Hd0.
  assert (0 <= IZR byte / 128 * height / 2 <= height) as Hy.
  { destruct Hb as [H0 H1]. apply IZR_le in H0, H1. split; nra. }
  assert (0 < INR bufferLength) as Hn' by (apply lt_0_INR; lia).
  assert (0 <= INR i <= INR bufferLength) as Hi'.
  { split; [apply pos_INR|by apply le_INR]. }
  split; [|split; [|split; [|split; [|split]]]].
  - unfold plotY. cbn [nadd nsub nmul ndiv of_Z arith].
    destruct waveform; try exact Hy.
    + rewrite sign_abs. lra.
    + pose proof (sign_range (Math_sin (IZR (Z.of_nat i) * dec 1 1))) as Hs.
      cbn [Math_abs R_draw]. nra.
  - unfold plotY. cbn [nadd nsub nmul ndiv of_Z arith].
    destruct waveform; try lra.
    + rewrite sign_abs. lra.
    + replace (128 / 128 * height / 2 - height / 2) with 0 by lra.
      cbn [Math_abs R_draw]. rewrite Rabs_R0. lra.
  - unfold plotY. cbn [nadd nsub nmul ndiv of_Z arith].
    rewrite sign_abs. lra.
  - rewrite plotX_exact. unfold sliceWidth. cbn [ndiv of_Z arith].
    rewrite <- INR_IZR_INZ. field. lra.
  - rewrite plotX_exact. unfold sliceWidth. cbn [ndiv of_Z arith].
    rewrite <- INR_IZR_INZ.
    replace (INR i * (width / INR bufferLength))
      with (INR i / INR bufferLength * width) by (field; lra).
    assert (0 <= INR i / INR bufferLength <= 1) as Hq.
    { split.
      - apply Rmult_le_pos; [lra|]. left. by apply Rinv_0_lt_compat.
      - apply (Rmult_le_reg_r (INR bufferLength)); [done|].
        replace (INR i / INR bufferLength * INR bufferLength)
          with (INR i) by (field; lra). lra. }
    split; nra.
  - rewrite plotX_exact. unfold sliceWidth. cbn [ndiv of_Z arith].
    rewrite <- INR_IZR_INZ. field. lra.
Qed.

End Curve.

(** ** The calls and the components on the 44.1 kHz device *)

Section MoreExamples.
Import Binary64 Host Same.
Local Open Scope js_scope.

Lemma s0_reachable : reachable rate0 s0.
Proof. apply reachable_mount. Qed.

Lemma s1_reachable : reachable rate0 s1.
Proof.
  eapply reachable_step; [apply reachable_mount|].
  apply (step_startBinaural (mounted rate0) #200 #4 #0 #0 sine).
Qed.

Lemma s1_handle : binauralNodes s1 = handle_at 2.
Proof.
  destruct (startBinaural_single s0 #200 #4 #0 #0 sine s0_wf)
    as (_ & Hh & _); [done|].
  unfold s1. rewrite Hh. unfold s0, mounted.
  by destruct (mount_run rate0) as (m & k & ->).
Qed.


(** A custom wave asked for while a session runs. *)
Lemma startBinaural_custom_refused_example :
  wf s1 ∧
  ∃ s', startBinaural #200 #4 #0 #0 custom s1 = Throw InvalidStateError s' ∧
        binauralNodes s' = no_nodes.
Proof.
  split; [exact s1_wf|].
  destruct (startBinaural_custom_refused s1 #200 #4 #0 #0 s1_wf)
    as (s' & Hrun & Hh & _).
  exists s'. split; [exact Hrun|exact Hh].
Defined.

(** A square wave selected while the session runs. *)
Lemma updateWaveform_session_example :
  wf s1 ∧ binauralNodes s1 ≠ no_nodes ∧
  ∃ s', updateWaveform square s1 = Normal () s' ∧
        leftType s' = Some square ∧ rightType s' = Some square.
Proof.
  split; [exact s1_wf|]. split; [exact s1_active|].
  destruct (proj1 (updateWaveform_session s1 square s1_wf s1_active)
              ltac:(discriminate))
    as (s' & Hrun & Hl & Hr & _).
  exists s'. split; [exact Hrun|]. split; [exact Hl|exact Hr].
Defined.



(** The session stopped: the chord is as it was. *)
Lemma session_spares_chord_example :
  wf s1 ∧ session_call s1 (state_of (stopBinaural s1)) ∧
  chordOscillators (state_of (stopBinaural s1)) = chordOscillators s1.
Proof.
  split; [exact s1_wf|]. split; [apply call_stopBinaural|].
  exact (proj1 (session_spares_chord s1 _ s1_wf (call_stopBinaural s1))).
Defined.

(** A chord played over the session. *)
Lemma voices_spare_session_example :
  wf s1 ∧ voice_call s1 (state_of (playChord [ #0; #4; #7 ] #4 (dec 5 1) s1)) ∧
  binauralNodes (state_of (playChord [ #0; #4; #7 ] #4 (dec 5 1) s1))
  = binauralNodes s1.
Proof.
  split; [exact s1_wf|]. split; [apply call_playChord|].
  exact (proj1 (voices_spare_session s1 _ s1_wf
                  (call_playChord s1 [ #0; #4; #7 ] #4 (dec 5 1)))).
Defined.

(** The running session is the only one that sounds. *)
Lemma one_session_always_example :
  noiseFrames (mounted_ctx rate0) ≠ 0 ∧ reachable rate0 s1 ∧
  ∀ i n, graph s1 !! i = Some n →
    (live_loop n = true ↔ noiseSource (binauralNodes s1) = Some i).
Proof.
  split; [exact playable_rate0|]. split; [exact s1_reachable|].
  intros i n Hn.
  exact (proj2 (one_session_always rate0 s1 playable_rate0 s1_reachable
                  i n Hn)).
Defined.

(** The session stopped, then the chord. *)
Lemma stops_silence_example :
  noiseFrames (mounted_ctx rate0) ≠ 0 ∧ reachable rate0 s1 ∧
  silent (state_of (stopChord (state_of (stopBinaural s1)))).
Proof.
  split; [exact playable_rate0|]. split; [exact s1_reachable|].
  exact (proj2 (proj2 (stops_silence rate0 s1 _ playable_rate0 s1_reachable
                         (or_introl eq_refl)))).
Defined.


(** The analyser of the running session. *)
Lemma analysis_tap_always_example :
  noiseFrames (mounted_ctx rate0) ≠ 0 ∧ reachable rate0 s1 ∧
  ∃ ctx a,
    audioContext s1 = Some ctx ∧ analyser s1 = Some a ∧
    graph s1 !! a
    = Some (node (Analyser 2048) false false [conn (destination ctx) 0]).
Proof.
  split; [exact playable_rate0|]. split; [exact s1_reachable|].
  destruct (analysis_tap_always rate0 s1 playable_rate0 s1_reachable)
    as (ctx & a & Hc & Ha & _ & Hn & _).
  exists ctx, a. split; [exact Hc|]. split; [exact Ha|exact Hn].
Defined.

(** The convolver of the running session is node 12. *)
Lemma reverb_dormant_example :
  noiseFrames (mounted_ctx rate0) ≠ 0 ∧ reachable rate0 s1 ∧
  (convolverNode (binauralNodes s1) = Some 12%nat ∨
   reverbGain (binauralNodes s1) = Some 12%nat) ∧
  ∃ nt, graph s1 !! 12%nat = Some nt ∧ outputs nt = [].
Proof.
  assert (H : convolverNode (binauralNodes s1) = Some 12%nat
              ∨ reverbGain (binauralNodes s1) = Some 12%nat).
  { left. rewrite s1_handle. reflexivity. }
  split; [exact playable_rate0|]. split; [exact s1_reachable|].
  split; [exact H|].
  exact (proj1 (reverb_dormant rate0 s1 12 playable_rate0 s1_reachable H)).
Defined.

(** The play button pressed, then the base frequency moved. *)
Lemma play_button_tells_example :
  noiseFrames (mounted_ctx rate0) ≠ 0 ∧
  Forall selectable
    [BinauralGenerator.TogglePlay; BinauralGenerator.SetBaseFreq #220] ∧
  all_done BinauralGenerator.dispatch
    [BinauralGenerator.TogglePlay; BinauralGenerator.SetBaseFreq #220]
    (BinauralGenerator.initial rate0).
Proof.
  assert (H : Forall selectable
    [BinauralGenerator.TogglePlay; BinauralGenerator.SetBaseFreq #220]).
  { repeat constructor. }
  split; [exact playable_rate0|]. split; [exact H|].
  exact (proj1 (play_button_tells rate0 _ playable_rate0 H)).
Defined.

(** The play button pressed: the session is at the initial controls. *)
Lemma controls_in_tune_example :
  noiseFrames (mounted_ctx rate0) ≠ 0 ∧
  Forall selectable [BinauralGenerator.TogglePlay (num:=float)] ∧
  BinauralGenerator.isPlaying
    (BinauralGenerator.run [BinauralGenerator.TogglePlay]
       (BinauralGenerator.initial rate0)) = true ∧
  in_tune (BinauralGenerator.run [BinauralGenerator.TogglePlay]
             (BinauralGenerator.initial rate0)).
Proof.
  assert (H : Forall selectable [BinauralGenerator.TogglePlay (num:=float)]).
  { repeat constructor. }
  assert (Hp : BinauralGenerator.isPlaying
    (BinauralGenerator.run [BinauralGenerator.TogglePlay]
       (BinauralGenerator.initial rate0)) = true).
  { apply (toggle_flips (BinauralGenerator.initial rate0)).
    apply initial_steady, playable_rate0. }
  split; [exact playable_rate0|]. split; [exact H|]. split; [exact Hp|].
  exact (controls_in_tune rate0 _ playable_rate0 H Hp).
Defined.

(** The C button held. *)
Lemma chord_button_tells_example :
  noiseFrames (mounted_ctx rate0) ≠ 0 ∧
  Forall pressable
    [ChordPlayer.Press {| Chord.name := "C"; Chord.notes := [ #0; #4; #7 ] |}] ∧
  voices_sound
    (ChordPlayer.engine
       (ChordPlayer.run
          [ChordPlayer.Press
             {| Chord.name := "C"; Chord.notes := [ #0; #4; #7 ] |}]
          (ChordPlayer.initial rate0))).
Proof.
  assert (H : Forall pressable
    [ChordPlayer.Press
       {| Chord.name := "C"; Chord.notes := [ #0; #4; #7 ] |}]).
  { constructor; [|constructor]. unfold pressable, ChordPlayer.chords.
    apply elem_of_cons. by left. }
  split; [exact playable_rate0|]. split; [exact H|].
  exact (proj1 (proj2 (chord_button_tells rate0 _ playable_rate0 H))).
Defined.

(** The first tick of the sequencer. *)
Lemma tick_plays_step_example :
  noiseFrames (mounted_ctx rate0) ≠ 0 ∧
  kickFrames (mounted_ctx rate0) ≠ 0 ∧
  snareFrames (mounted_ctx rate0) ≠ 0 ∧
  hihatFrames (mounted_ctx rate0) ≠ 0 ∧
  ∃ q', BeatSequencer.tick
          (BeatSequencer.run [BeatSequencer.TogglePlaying]
             (BeatSequencer.initial rate0)) = Done q' ∧
        BeatSequencer.currentStep q' = 1%nat.
Proof.
  split; [exact playable_rate0|]. split; [exact kick_rate0|].
  split; [exact snare_rate0|]. split; [exact hihat_rate0|].
  destruct (tick_plays_step rate0 [BeatSequencer.TogglePlaying]
              playable_rate0 kick_rate0 snare_rate0 hihat_rate0)
    as (a & buffers & q' & Hrun & Hstep & _).
  exists q'. split; [exact Hrun|exact Hstep].
Defined.

(** The first step of the kick track, switched off and on again. *)
Lemma toggleStep_flips_example :
  cell (BeatSequencer.pattern (BeatSequencer.initial rate0)) 0 0 = Some true ∧
  ∃ q1,
    BeatSequencer.toggleStep 0 0 (BeatSequencer.initial rate0) = Done q1 ∧
    cell (BeatSequencer.pattern q1) 0 0 = Some false ∧
    BeatSequencer.toggleStep 0 0 q1 = Done (BeatSequencer.initial rate0).
Proof.
  assert (H : cell (BeatSequencer.pattern (BeatSequencer.initial rate0)) 0 0
              = Some true) by reflexivity.
  split; [exact H|].
  destruct (toggleStep_flips 0 0 true (BeatSequencer.initial rate0) H)
    as (q1 & Hrun & Hc & _ & _ & _ & _ & _ & Hback).
  exists q1. split; [exact Hrun|]. split; [exact Hc|exact Hback].
Defined.

End MoreExamples.

Section MoreExactExamples.
Import Exact Draw.
Local Open Scope R_scope.

Local Hint Extern 0 (JSMath R) =>
  exact (Exact.math even_draws) : typeclass_instances.


(** A loud sample of a triangle wave on a canvas of 800 by 200. *)
Lemma curve_within_canvas_example :
  (0 ≤ 200 ≤ 255)%Z ∧ 0 <= 200 ∧ 0 <= 800 ∧
  (3 ≤ 1024)%nat ∧ (0 < 1024)%nat ∧
  0 <= plotY triangle 3 200 200 <= 200.
Proof.
  assert (Hb : (0 ≤ 200 ≤ 255)%Z) by lia.
  assert (Hh : 0 <= 200) by lra.
  assert (Hw : 0 <= 800) by lra.
  assert (Hi : (3 ≤ 1024)%nat) by lia.
  assert (Hn : (0 < 1024)%nat) by lia.
  split; [exact Hb|]. split; [exact Hh|]. split; [exact Hw|].
  split; [exact Hi|]. split; [exact Hn|].
  exact (proj1 (curve_within_canvas even_draws triangle 3 1024 200 800 200
                  Hb Hh Hw Hi Hn)).
Defined.

End MoreExactExamples.
